(** * The hrana transaction coordinator of libsql-client-ts

    A shallow embedding of [HranaTransaction], [executeHranaBatch],
    [stmtToHrana], [resultSetFromHrana] and [mapHranaError], and of the URI
    parser, [parse], [parseAuthority], [parseQuery] and [percentDecode] with
    the two patterns they match.

    The hrana client library (streams, batches, steps, error classes) is an
    external collaborator: its objects are modelled by the observable state
    the coordinator relies on (the closed flag of a stream, the requests
    issued on it, the steps declared on a batch) and the server's replies
    are inputs chosen by the environment. *)

From stdpp Require Import base option list strings gmap.
From Stdlib Require Import ZArith Lia Ascii.

#[local] Set Warnings "-register-all".
Local Open Scope string_scope.
Local Open Scope list_scope.
Local Open Scope nat_scope.

(** ** Thrown values *)

(** The error classes exported by the hrana client that [mapHranaError]
    tests with [instanceof]. *)
Inductive HranaClass :=
| ClientError
| ResponseError
| ProtoError
| ClosedError
| WebSocketError
| HttpServerError
| ProtocolVersionError.

#[global] Instance HranaClass_eq_dec : EqDecision HranaClass.
Proof. solve_decision. Defined.

(** Modelled from the spec: [LibsqlError], the class of [api.ts], which is
    not part of these sources, "a message, a closed-set error kind tag, and
    an optional wrapped lower-level cause". Any other thrown value is
    described by what the code can observe of it: the hrana classes on its
    prototype chain, its [message] and its [code] property ([None] when
    undefined). *)
Inductive Thrown :=
| Foreign (proto : list HranaClass) (message : string) (code : option string)
| LibsqlError (message : string) (code : string) (cause : option Thrown).

(** [e instanceof hrana.C] *)
Definition instanceof (e : Thrown) (c : HranaClass) : bool :=
  match e with
  | Foreign proto _ _ => bool_decide (c ∈ proto)
  | LibsqlError _ _ _ => false
  end.

Definition message_of (e : Thrown) : string :=
  match e with
  | Foreign _ m _ => m
  | LibsqlError m _ _ => m
  end.

(** [e.code] of a [hrana.ResponseError] *)
Definition code_of (e : Thrown) : option string :=
  match e with
  | Foreign _ _ c => c
  | LibsqlError _ c _ => Some c
  end.

Definition mapHranaError (e : Thrown) : Thrown :=
  if instanceof e ClientError then
    let code :=
      match (if instanceof e ResponseError then code_of e else None) with
      | Some c => c
      | None =>
        if instanceof e ProtoError then "HRANA_PROTO_ERROR"
        else if instanceof e ClosedError then "HRANA_CLOSED_ERROR"
        else if instanceof e WebSocketError then "HRANA_WEBSOCKET_ERROR"
        else if instanceof e HttpServerError then "SERVER_ERROR"
        else if instanceof e ProtocolVersionError then "PROTOCOL_VERSION_ERROR"
        else "UNKNOWN"
      end in
    LibsqlError (message_of e) code (Some e)
  else e.

(** The value a caller sees carries the failure [e]: it is [e] itself or a
    [LibsqlError] whose cause is [e]. *)
Definition carries (e' e : Thrown) : Prop :=
  e' = e ∨ ∃ m c, e' = LibsqlError m c (Some e).

(** The taxonomy as the specification words it: an explicit code of a
    structured server response first, then the first matching kind of
    failure in this order, and [UNKNOWN] when none matches. *)
Definition taxonomy : list (HranaClass * string) :=
  [ (ProtoError, "HRANA_PROTO_ERROR");
    (ClosedError, "HRANA_CLOSED_ERROR");
    (WebSocketError, "HRANA_WEBSOCKET_ERROR");
    (HttpServerError, "SERVER_ERROR");
    (ProtocolVersionError, "PROTOCOL_VERSION_ERROR") ].

Definition explicitCode (e : Thrown) : option string :=
  if instanceof e ResponseError then code_of e else None.

Definition classify (e : Thrown) : string :=
  match explicitCode e with
  | Some c => c
  | None =>
    match List.find (λ rule, instanceof e rule.1) taxonomy with
    | Some rule => rule.2
    | None => "UNKNOWN"
    end
  end.

(** A settled promise. *)
Inductive Settled (A : Type) :=
| Fulfilled (a : A)
| Rejected (e : Thrown).
Arguments Fulfilled {A} a.
Arguments Rejected {A} e.

(** * The URI parser

    A JavaScript string is a sequence of UTF-16 code units. The built-in
    functions [decodeURIComponent] and [parseInt] are parameters;
    [String.prototype.split], [indexOf], [substring] and [replaceAll] are
    written out for the separators the parser uses. *)

Module Uri.

Definition chr (a : ascii) : N := N_of_ascii a.

(** A string literal of the source. *)
Definition lit (s : string) : list N := chr <$> String.list_ascii_of_string s.

(** ** Regular expressions

    The constructs the two regular expressions of the parser are made of:
    a character, a character class, a greedy [*] over a character class, a
    sequence, an alternative, a greedy optional group and a named group.
    Matching backtracks as [RegExp.prototype.exec] does: every construct is
    given the rest of the pattern as a continuation and gives up its
    choices, longest first, until the continuation succeeds. The optional
    groups and the starred classes of the two patterns consume at least one
    character at each iteration, so that the rule that rejects an empty
    iteration never applies; the groups without a name are not read by the
    parser and are not recorded. *)

Inductive Re :=
| Lit (c : N)
| Class (p : N → bool)
| Many (p : N → bool)
| Cat (r1 r2 : Re)
| Or (r1 r2 : Re)
| Maybe (r : Re)
| Named (name : string) (r : Re).

(** The named groups that took part in a match. *)
Abbreviation Groups := (gmap string (list N)).

Fixpoint many {A : Type} (p : N → bool) (s : list N) (k : list N → option A)
  : option A :=
  match s with
  | c :: s' =>
    if p c then
      match many p s' k with
      | Some r => Some r
      | None => k s
      end
    else k s
  | [] => k []
  end.

Fixpoint matchRe (r : Re) (s : list N) (g : Groups)
    (k : list N → Groups → option Groups) : option Groups :=
  match r with
  | Lit c =>
    match s with
    | x :: s' => if bool_decide (x = c) then k s' g else None
    | [] => None
    end
  | Class p =>
    match s with
    | x :: s' => if p x then k s' g else None
    | [] => None
    end
  | Many p => many p s (λ s', k s' g)
  | Cat r1 r2 => matchRe r1 s g (λ s' g', matchRe r2 s' g' k)
  | Or r1 r2 =>
    match matchRe r1 s g k with
    | Some g' => Some g'
    | None => matchRe r2 s g k
    end
  | Maybe r' =>
    match matchRe r' s g k with
    | Some g' => Some g'
    | None => k s g
    end
  | Named name r' =>
    matchRe r' s g (λ s' g', k s' (<[name := take (length s - length s') s]> g'))
  end.

(** [re.exec(text)] for a pattern anchored by [^] and [$]: [None] is
    [null]. *)
Definition exec (re : Re) (text : list N) : option Groups :=
  matchRe re text ∅ (λ s g, match s with [] => Some g | _ => None end).

Definition cat (rs : list Re) (last : Re) : Re := foldr Cat last rs.

Definition oneOf (cs : string) (c : N) : bool := bool_decide (c ∈ lit cs).
Definition noneOf (cs : string) (c : N) : bool := negb (oneOf cs c).
Definition inRange (lo hi : ascii) (c : N) : bool :=
  (chr lo <=? c)%N && (c <=? chr hi)%N.

(** [[A-Za-z]], [[A-Za-z.+-]], [[0-9]] *)
Definition letter (c : N) : bool := inRange "A" "Z" c || inRange "a" "z" c.
Definition schemeChar (c : N) : bool := letter c || oneOf ".+-" c.
Definition digit (c : N) : bool := inRange "0" "9" c.

(** [.] with the flag [s], and without it: any character but the line
    terminators LF, CR, U+2028 and U+2029. *)
Definition anyChar (c : N) : bool := true.
Definition lineTerminator (c : N) : bool :=
  bool_decide (c ∈ [10; 13; 8232; 8233]%N).
Definition dot (c : N) : bool := negb (lineTerminator c).

(** Lines 59-66. With the flag [u] a surrogate pair is one character; the
    classes that are negated match both of its halves, so that the groups
    are the same texts. *)
Definition SCHEME : Re := Named "scheme" (Cat (Class letter) (Many schemeChar)).
Definition AUTHORITY : Re := Named "authority" (Many (noneOf "/?#")).
Definition PATH : Re := Named "path" (Many (noneOf "?#")).
Definition QUERY : Re := Named "query" (Many (noneOf "#")).
Definition FRAGMENT : Re := Named "fragment" (Many anyChar).

Definition URI_RE : Re :=
  cat [SCHEME; Lit (chr ":"); Maybe (cat [Lit (chr "/"); Lit (chr "/")] AUTHORITY); PATH;
       Maybe (Cat (Lit (chr "?")) QUERY)]
      (Maybe (Cat (Lit (chr "#")) FRAGMENT)).

(** Lines 89-94. *)
Definition USERINFO : Re :=
  Cat (Named "username" (Many (noneOf ":")))
      (Maybe (Cat (Lit (chr ":")) (Named "password" (Many dot)))).
Definition HOST : Re :=
  Named "host" (Or (Many (noneOf ":")) (cat [Lit (chr "["); Many dot] (Lit (chr "]")))).
Definition PORT : Re := Named "port" (Many digit).

Definition AUTHORITY_RE : Re :=
  cat [Maybe (Cat USERINFO (Lit (chr "@"))); HOST] (Maybe (Cat (Lit (chr ":")) PORT)).

(** ** Strings *)

(** [text.split(sep)] for a separator of one character. *)
Fixpoint split (sep : N) (text : list N) : list (list N) :=
  match text with
  | [] => [[]]
  | c :: text' =>
    if bool_decide (c = sep) then [] :: split sep text'
    else
      match split sep text' with
      | piece :: pieces => (c :: piece) :: pieces
      | [] => [[c]]
      end
  end.

(** [text.indexOf(c)]: [None] is [-1]. *)
Fixpoint indexOf (c : N) (text : list N) : option nat :=
  match text with
  | [] => None
  | x :: text' => if bool_decide (x = c) then Some 0 else S <$> indexOf c text'
  end.

(** [text.replaceAll(a, b)] for two characters. *)
Definition replaceAll (a b : N) (text : list N) : list N :=
  (λ c, if bool_decide (c = a) then b else c) <$> text.

(** ** The parser *)

Definition bind {A B : Type} (m : Thrown + A) (f : A → Thrown + B) : Thrown + B :=
  match m with
  | inl e => inl e
  | inr a => f a
  end.

Notation "x ← m ; f" := (bind m (λ x, f))
  (at level 20, m at level 100, f at level 200, only parsing).

Section Parser.

(** [parseInt(text, 10)] and [decodeURIComponent(text)], which returns or
    throws a [URIError]. *)
Variable Number : Type.
Variable parseInt : list N → Number.
Variable decodeURIComponent : list N → Thrown + list N.

Record Userinfo := mkUserinfo {
  username : list N;
  password : option (list N)
}.

Record Authority := mkAuthority {
  host : list N;
  port : option Number;
  userinfo : option Userinfo
}.

Record KeyValue := mkKeyValue {
  key : list N;
  value : list N
}.

Record Query := mkQuery {
  pairs : list KeyValue
}.

Record Uri := mkUri {
  scheme : list N;
  authority : option Authority;
  path : list N;
  query : option Query;
  fragment : option (list N)
}.

Definition invalidEncoding (e : Thrown) : Thrown :=
  LibsqlError "URL component has invalid percent encoding" "URL_INVALID" (Some e).

Definition invalidFormat : Thrown :=
  LibsqlError "The URL is not in a valid format" "URL_INVALID" None.

Definition invalidAuthority : Thrown :=
  LibsqlError "The authority part of the URL is not valid" "URL_INVALID" None.

Definition percentDecode (text : list N) : Thrown + list N :=
  match decodeURIComponent text with
  | inr decoded => inr decoded
  | inl e => inl (invalidEncoding e)
  end.

(** The body of the loop of [parseQuery], lines 102-120. *)
Definition parsePair (sequence : list N) : Thrown + list KeyValue :=
  if bool_decide (sequence = []) then inr []
  else
    let '(key, value) :=
      match indexOf (chr "=") sequence with
      | None => (sequence, [])
      | Some splitIdx => (take splitIdx sequence, drop (splitIdx + 1) sequence)
      end in
    k ← percentDecode (replaceAll (chr "+") (chr " ") key);
    v ← percentDecode (replaceAll (chr "+") (chr " ") value);
    inr [mkKeyValue k v].

Fixpoint parsePairs (sequences : list (list N)) : Thrown + list KeyValue :=
  match sequences with
  | [] => inr []
  | sequence :: rest =>
    pair ← parsePair sequence;
    pairs ← parsePairs rest;
    inr (pair ++ pairs)
  end.

Definition parseQuery (text : list N) : Thrown + Query :=
  pairs ← parsePairs (split (chr "&") text);
  inr (mkQuery pairs).

(** [groups[name]!] and the optional [groups[name]]. *)
Definition group (groups : Groups) (name : string) : list N :=
  default [] (groups !! name).

Definition parseAuthority (text : list N) : Thrown + Authority :=
  match exec AUTHORITY_RE text with
  | None => inl invalidAuthority
  | Some groups =>
    host ← percentDecode (group groups "host");
    let port :=
      match groups !! "port" with
      | Some (c :: digits) => Some (parseInt (c :: digits))
      | Some [] | None => None
      end in
    userinfo ←
      match groups !! "username" with
      | Some username =>
        u ← percentDecode username;
        p ← match groups !! "password" with
            | Some password => p ← percentDecode password; inr (Some p)
            | None => inr None
            end;
        inr (Some (mkUserinfo u p))
      | None => inr None
      end;
    inr (mkAuthority host port userinfo)
  end.

Definition parse (text : list N) : Thrown + Uri :=
  match exec URI_RE text with
  | None => inl invalidFormat
  | Some groups =>
    let scheme := group groups "scheme" in
    authority ←
      match groups !! "authority" with
      | Some a => a' ← parseAuthority a; inr (Some a')
      | None => inr None
      end;
    path ← percentDecode (group groups "path");
    query ←
      match groups !! "query" with
      | Some q => q' ← parseQuery q; inr (Some q')
      | None => inr None
      end;
    fragment ←
      match groups !! "fragment" with
      | Some f => f' ← percentDecode f; inr (Some f')
      | None => inr None
      end;
    inr (mkUri scheme authority path query fragment)
  end.

(** ** The vocabulary of the statements about the parser *)

(** An optional component, [parseAuthority], [parseQuery] or
    [percentDecode] applied to a group that may be [undefined]. *)
Definition optionally {A : Type} (f : list N → Thrown + A) (o : option (list N))
  : Thrown + option A :=
  match o with
  | Some t => a ← f t; inr (Some a)
  | None => inr None
  end.

(** The port of an authority whose group [port] is [d]. *)
Definition portOf (d : option (list N)) : option Number :=
  match d with
  | Some (c :: ds) => Some (parseInt (c :: ds))
  | _ => None
  end.

(** The error of a component that [decodeURIComponent] refuses. *)
Definition encodingError (err : Thrown) : Prop :=
  ∃ t e, decodeURIComponent t = inl e ∧ err = invalidEncoding e.

End Parser.

(** Every character of [t] is in the class [p]; [t] is empty or starts
    with a character that is not. *)
Definition all (p : N → bool) (t : list N) : Prop := Forall (λ c, p c = true) t.
Definition stops (p : N → bool) (t : list N) : Prop :=
  match t with [] => True | c :: _ => p c = false end.

(** The end of the pattern, [$]. *)
Definition kend (s : list N) (g : Groups) : option Groups :=
  match s with [] => Some g | _ => None end.

(** An optional part of a text behind its delimiter, and the group it
    leaves. *)
Definition optional (prefix : list N) (o : option (list N)) : list N :=
  match o with Some t => prefix ++ t | None => [] end.

Definition record (name : string) (o : option (list N)) (g : Groups) : Groups :=
  match o with Some t => <[name := t]> g | None => g end.

(** The parts of [URI_RE] behind the scheme and its colon. *)
Definition fragPart : Re := Maybe (Cat (Lit (chr "#")) FRAGMENT).
Definition queryPart : Re := Maybe (Cat (Lit (chr "?")) QUERY).
Definition authPart : Re := Maybe (cat [Lit (chr "/"); Lit (chr "/")] AUTHORITY).
Definition hierPart : Re := Cat authPart (Cat PATH (Cat queryPart fragPart)).

(** A scheme: a letter, then letters, [.], [+] and [-]. A text has a
    scheme when one is in front of a colon. *)
Definition isScheme (t : list N) : Prop :=
  ∃ c t', t = c :: t' ∧ letter c = true ∧ all schemeChar t'.

Definition hasScheme (text : list N) : Prop :=
  ∃ c sch rest, text = c :: sch ++ chr ":" :: rest ∧ letter c = true ∧ all schemeChar sch.

(** The text of a URI with the given components. *)
Definition assemble (scheme : list N) (auth : option (list N)) (pth : list N)
    (qry frg : option (list N)) : list N :=
  scheme ++ lit ":" ++ optional (lit "//") auth ++ pth
  ++ optional (lit "?") qry ++ optional (lit "#") frg.

(** The components that can be read back: behind an authority the path
    is empty or starts with a slash, and with no authority the path does
    not start with two slashes; no component holds the delimiter of a later
    one. *)
Definition pathFits (auth : option (list N)) (pth : list N) : Prop :=
  match auth with
  | Some _ => pth = [] ∨ ∃ t, pth = chr "/" :: t
  | None => ¬ ∃ t, pth = chr "/" :: chr "/" :: t
  end.

Definition wellFormed (auth : option (list N)) (pth : list N) (qry : option (list N)) : Prop :=
  (∀ a, auth = Some a → all (noneOf "/?#") a)
  ∧ all (noneOf "?#") pth
  ∧ pathFits auth pth
  ∧ (∀ q, qry = Some q → all (noneOf "#") q).

(** The groups of the match of [URI_RE] on such a text. *)
Definition groupsOf (scheme : list N) (auth : option (list N)) (pth : list N)
    (qry frg : option (list N)) : Groups :=
  record "fragment" frg (record "query" qry
    (<["path" := pth]> (record "authority" auth (<["scheme" := scheme]> ∅)))).

(** The parts of [AUTHORITY_RE]. *)
Definition portPart : Re := Maybe (Cat (Lit (chr ":")) PORT).
Definition passwordPart : Re := Maybe (Cat (Lit (chr ":")) (Named "password" (Many dot))).
Definition hostPort : Re := Cat HOST portPart.

(** A port is made of digits; a host has no colon, or is any text with no
    line terminator between brackets. *)
Definition digits (d : option (list N)) : Prop := ∀ ds, d = Some ds → all digit ds.

Definition isHost (h : list N) : Prop :=
  all (noneOf ":") h ∨ ∃ x, h = chr "[" :: x ++ [chr "]"] ∧ all dot x.

(** The user part of an authority, a name and an optional password in
    front of [@]: the name has no colon and the password no line
    terminator. *)
Definition userText (ui : option (list N * option (list N))) : list N :=
  match ui with
  | Some (u, pw) => u ++ optional (lit ":") pw ++ lit "@"
  | None => []
  end.

Definition userinfoFits (ui : option (list N * option (list N))) : Prop :=
  ∀ u pw, ui = Some (u, pw) → all (noneOf ":") u ∧ ∀ p, pw = Some p → all dot p.

Definition recordUser (ui : option (list N * option (list N))) (g : Groups) : Groups :=
  match ui with
  | Some (u, pw) => record "password" pw (<["username" := u]> g)
  | None => g
  end.

(** The groups of the match of [AUTHORITY_RE] on such an authority. *)
Definition authorityGroups (ui : option (list N * option (list N))) (h : list N)
    (d : option (list N)) : Groups :=
  record "port" d (<["host" := h]> (recordUser ui ∅)).

(** [text.replaceAll("+", " ")] *)
Definition plus (t : list N) : list N := replaceAll (chr "+") (chr " ") t.

End Uri.

Section Coordinator.

(** A row of a result, a bound argument value and the row id as the hrana
    client represents them; [BigInt] is the built-in conversion applied to a
    row id. *)
Variable Row : Type.
Variable InValue : Type.
Variable RowId : Type.
Variable BigInt : RowId → Z.

(** ** Statements *)

Inductive InArgs :=
| ArgsArray (values : list InValue)
| ArgsObject (entries : list (string * InValue)).

Inductive InStatement :=
| SqlText (sql : string)
| SqlArgs (sql : string) (args : InArgs).

(** [hrana.Stmt]: the text and the positional and named bindings. *)
Record Stmt := mkStmt {
  sql : string;
  args : list InValue;
  namedArgs : list (string * InValue)
}.

Definition newStmt (sql : string) : Stmt := mkStmt sql [] [].

Definition bindIndexes (values : list InValue) (s : Stmt) : Stmt :=
  mkStmt (sql s) values (namedArgs s).

Fixpoint setName (key : string) (value : InValue) (l : list (string * InValue))
  : list (string * InValue) :=
  match l with
  | [] => [(key, value)]
  | (k, v) :: l' =>
    if bool_decide (k = key) then (k, value) :: l' else (k, v) :: setName key value l'
  end.

Definition bindName (key : string) (value : InValue) (s : Stmt) : Stmt :=
  mkStmt (sql s) (args s) (setName key value (namedArgs s)).

Definition stmtToHrana (stmt : InStatement) : Stmt :=
  match stmt with
  | SqlText sql => newStmt sql
  | SqlArgs sql (ArgsArray values) => bindIndexes values (newStmt sql)
  | SqlArgs sql (ArgsObject entries) =>
    foldl (λ hranaStmt kv, bindName kv.1 kv.2 hranaStmt) (newStmt sql) entries
  end.

(** ** Results *)

Record RowsResult := mkRowsResult {
  columnNames : list (option string);
  hranaRows_rows : list Row;
  affectedRowCount : Z;
  hranaRows_lastInsertRowid : option RowId
}.

Record ResultSet := mkResultSet {
  columns : list string;
  rows : list Row;
  rowsAffected : Z;
  lastInsertRowid : option Z
}.

Definition resultSetFromHrana (hranaRows : RowsResult) : ResultSet :=
  {| columns := (λ c, default "" c) <$> columnNames hranaRows;
     rows := hranaRows_rows hranaRows;
     rowsAffected := affectedRowCount hranaRows;
     lastInsertRowid :=
       match hranaRows_lastInsertRowid hranaRows with
       | Some id => Some (BigInt id)
       | None => None
       end |}.

(** ** Batches *)

Inductive BatchCond :=
| CondOk (step : nat)
| CondNot (cond : BatchCond).

Inductive StepOp :=
| Run (sql : string)
| Query (stmt : Stmt).

Record Step := mkStep {
  condition : option BatchCond;
  op : StepOp
}.

(** A [hrana.Batch] under construction: the steps added so far, in order
    (a step is identified by its position), and how many times the batch
    was submitted with [execute()]. *)
Record Batch := mkBatch {
  steps : list Step;
  executions : nat
}.

Definition emptyBatch : Batch := mkBatch [] 0.

(** [batch.step().condition(c).run(sql)] and [...query(stmt)]: the step is
    appended and the returned promise is the one of its position. *)
Definition addStep (cond : option BatchCond) (o : StepOp) (b : Batch) : nat * Batch :=
  (length (steps b), mkBatch (steps b ++ [mkStep cond o]) (executions b)).

(** [batch.execute()] *)
Definition submit (b : Batch) : Batch := mkBatch (steps b) (S (executions b)).

(** What the server reports for one step. *)
Inductive StepOutcome :=
| StepOk (r : RowsResult)
| StepError (e : Thrown)
| StepNotRun.

(** The promise returned by [run]/[query] for the step at position [i],
    once the batch was answered with [outs]: the result, [undefined] when
    the step was not run, or a rejection with the step's error. *)
Definition stepPromise (outs : list StepOutcome) (i : nat) : Settled (option RowsResult) :=
  match outs !! i with
  | Some (StepOk r) => Fulfilled (Some r)
  | Some (StepError e) => Rejected e
  | Some StepNotRun | None => Fulfilled None
  end.

(** The answer to [batch.execute()]: the submission fails as a whole or
    every step gets its outcome. *)
Definition BatchReply : Type := Settled (list StepOutcome).

(** *** executeHranaBatch *)

(** The callback of [hranaStmts.map], threading [batch] and [lastStep]. *)
Definition addStmt (acc : Batch * nat * list nat) (hranaStmt : Stmt)
  : Batch * nat * list nat :=
  let '(batch, lastStep, stmtPromises) := acc in
  let '(stmtStep, batch) := addStep (Some (CondOk lastStep)) (Query hranaStmt) batch in
  (batch, stmtStep, stmtPromises ++ [stmtStep]).

(** Lines 146-167: declare the steps and submit. Returns the batch and the
    promises [beginPromise], [stmtPromises], [commitPromise]. *)
Definition executeHranaBatch_build (batch : Batch) (hranaStmts : list Stmt)
  : Batch * (nat * list nat * nat) :=
  let '(beginStep, batch) := addStep None (Run "BEGIN") batch in
  let '(batch, lastStep, stmtPromises) :=
    foldl addStmt (batch, beginStep, []) hranaStmts in
  let '(commitStep, batch) := addStep (Some (CondOk lastStep)) (Run "COMMIT") batch in
  let '(rollbackStep, batch) :=
    addStep (Some (CondNot (CondOk commitStep))) (Run "ROLLBACK") batch in
  (submit batch, (beginStep, stmtPromises, commitStep)).

Definition missingResult : Thrown :=
  LibsqlError "Server did not return a result for statement in a batch" "SERVER_ERROR" None.

(** The [for] loop of lines 171-180. *)
Fixpoint collect (outs : list StepOutcome) (stmtPromises : list nat)
    (resultSets : list ResultSet) : Settled (list ResultSet) :=
  match stmtPromises with
  | [] => Fulfilled resultSets
  | stmtPromise :: rest =>
    match stepPromise outs stmtPromise with
    | Rejected e => Rejected e
    | Fulfilled None => Rejected missingResult
    | Fulfilled (Some hranaRows) =>
      collect outs rest (resultSets ++ [resultSetFromHrana hranaRows])
    end
  end.

(** Lines 167-183: what the function settles to, given the answer to
    [batch.execute()]. *)
Definition executeHranaBatch_finish (promises : nat * list nat * nat)
    (reply : BatchReply) : Settled (list ResultSet) :=
  let '(beginPromise, stmtPromises, commitPromise) := promises in
  match reply with
  | Rejected e => Rejected e
  | Fulfilled outs =>
    match stepPromise outs beginPromise with
    | Rejected e => Rejected e
    | Fulfilled _ =>
      match collect outs stmtPromises [] with
      | Rejected e => Rejected e
      | Fulfilled resultSets =>
        match stepPromise outs commitPromise with
        | Rejected e => Rejected e
        | Fulfilled _ => Fulfilled resultSets
        end
      end
    end
  end.

Definition executeHranaBatch (batch : Batch) (hranaStmts : list Stmt)
    (reply : BatchReply) : Batch * Settled (list ResultSet) :=
  let '(batch, promises) := executeHranaBatch_build batch hranaStmts in
  (batch, executeHranaBatch_finish promises reply).

(** What a well-behaved server answers: a step is skipped exactly when its
    condition, evaluated on the outcomes of the steps before it, is false. *)
Fixpoint evalCond (outs : list StepOutcome) (c : BatchCond) : bool :=
  match c with
  | CondOk i => match outs !! i with Some (StepOk _) => true | _ => false end
  | CondNot c' => negb (evalCond outs c')
  end.

Definition isNotRun (o : StepOutcome) : bool :=
  match o with StepNotRun => true | _ => false end.

Fixpoint conformsFrom (done : list StepOutcome) (todo : list Step)
    (outs : list StepOutcome) : bool :=
  match todo, outs with
  | [], [] => true
  | st :: todo', o :: outs' =>
    let enabled := from_option (evalCond done) true (condition st) in
    bool_decide (isNotRun o = negb enabled) && conformsFrom (done ++ [o]) todo' outs'
  | _, _ => false
  end.

Definition conforms (b : Batch) (outs : list StepOutcome) : bool :=
  conformsFrom [] (steps b) outs.

(** ** The stream *)

Inductive Request :=
| ReqBatch (steps : list Step)
| ReqQuery (stmt : Stmt)
| ReqRun (sql : string).

(** A [hrana.Stream] as the coordinator sees it: the [closed] flag and the
    requests issued on it so far, oldest first. The promise returned for a
    request is identified by the request's position. *)
Record Stream := mkStream {
  stream_closed : bool;
  sent : list Request
}.

Definition issue (r : Request) (stream : Stream) : nat * Stream :=
  (length (sent stream), mkStream (stream_closed stream) (sent stream ++ [r])).

(** [stream.query(stmt)], [stream.run(sql)], [batch.execute()] of a batch
    opened with [stream.batch()], and [stream.close()]. *)
Definition streamQuery (stmt : Stmt) : Stream → nat * Stream := issue (ReqQuery stmt).
Definition streamRun (sql : string) : Stream → nat * Stream := issue (ReqRun sql).
Definition streamBatch (b : Batch) : Stream → nat * Stream := issue (ReqBatch (steps (submit b))).
Definition streamClose (stream : Stream) : Stream := mkStream true (sent stream).

(** ** The transaction *)

(** The promise stored in [#started],
    [batch.execute().then(() => beginPromise).then(() => undefined)]:
    the request of the batch and the position of its BEGIN step. *)
Record StartedPromise := mkStarted {
  batchReq : nat;
  beginPromise : nat
}.

(** The promise awaited on line 73: a step of the BEGIN batch or a query
    issued on the stream. *)
Inductive RowsPromise :=
| OfStep (batchReq : nat) (step : nat)
| OfQuery (req : nat).

(** A [HranaTransaction]: its stream ([_getStream()]), the private field
    [#started] ([None] is [undefined]) and whether the [close()] hook ran. *)
Record Tx := mkTx {
  stream : Stream;
  started : option StartedPromise;
  released : bool
}.

(** Modelled from the spec: the abstract [close()], implemented by the
    transport-specific transactions, which are not part of these sources.
    "Closing the transaction always closes the stream"; it can be called
    any number of times, and [#started], private to the base class, is out
    of its reach. *)
Definition close (t : Tx) : Tx :=
  mkTx (streamClose (stream t)) (started t) true.

(** Modelled from the spec: the abstract getter [closed], the state
    [closed] of the transaction. *)
Definition closed (t : Tx) : bool := released t.

(** The abstract [_applySqlCache]. *)
Variable _applySqlCache : Stmt → Stmt.

(** *** Replies and promises *)

(** The answers received so far, by request. *)
Record Replies := mkReplies {
  batchReplies : gmap nat BatchReply;
  stmtReplies : gmap nat (Settled RowsResult)
}.

(** State of a [#started] promise: [None] while pending. It is fulfilled
    only if the batch and the BEGIN step inside it are both successful. *)
Definition startedPromise (replies : Replies) (p : StartedPromise) : option (Settled ()) :=
  match batchReplies replies !! batchReq p with
  | None => None
  | Some (Rejected e) => Some (Rejected e)
  | Some (Fulfilled outs) =>
    match stepPromise outs (beginPromise p) with
    | Rejected e => Some (Rejected e)
    | Fulfilled _ => Some (Fulfilled ())
    end
  end.

(** State of a rows promise. The promise of a step settles when its batch
    is answered; the steps of a batch whose submission failed are never
    awaited by the coordinator. *)
Definition rowsPromise (replies : Replies) (p : RowsPromise)
  : option (Settled (option RowsResult)) :=
  match p with
  | OfStep req i =>
    match batchReplies replies !! req with
    | Some (Fulfilled outs) => Some (stepPromise outs i)
    | _ => None
    end
  | OfQuery req =>
    match stmtReplies replies !! req with
    | Some (Fulfilled r) => Some (Fulfilled (Some r))
    | Some (Rejected e) => Some (Rejected e)
    | None => None
    end
  end.

(** State of the promise of [stream.run(sql)]. *)
Definition runPromise (replies : Replies) (req : nat) : option (Settled ()) :=
  match stmtReplies replies !! req with
  | Some (Fulfilled _) => Some (Fulfilled ())
  | Some (Rejected e) => Some (Rejected e)
  | None => None
  end.

(** *** The asynchronous methods

    An [async] method runs synchronously up to its first [await]; it then
    waits as a task until the awaited promise settles, and is resumed from
    there up to the next [await] or its end. *)

Inductive Ret :=
| RetResultSet (rs : ResultSet)
| RetVoid.

Inductive Task :=
| ExecuteBegin (p : StartedPromise) (rows : RowsPromise)   (* line 58 *)
| ExecuteStarted (p : StartedPromise) (hranaStmt : Stmt)   (* line 68 *)
| ExecuteRows (rows : RowsPromise)                         (* line 73 *)
| CommitStarted (p : StartedPromise)                       (* line 124 *)
| CommitRun (promise : nat)                                (* line 133 *)
| RollbackRun (promise : nat).                             (* line 99 *)

(** Where a phase ends: suspended on an [await], or settled. *)
Definition Phase : Type := Tx * (Task + Settled Ret).

Definition executeClosed : Thrown :=
  LibsqlError "Cannot execute a statement because the transaction is closed"
    "TRANSACTION_CLOSED" None.

Definition commitClosed : Thrown :=
  LibsqlError "Cannot commit the transaction because it is already closed"
    "TRANSACTION_CLOSED" None.

(** [resultSetFromHrana(undefined)]: reading [columnNames] of [undefined]
    throws a TypeError, which is not a hrana error. *)
Definition typeError : Thrown :=
  Foreign [] "Cannot read properties of undefined" None.

(** [execute(stmt)], lines 24-58 and 66-68. *)
Definition execute (t : Tx) (stmt : InStatement) : Phase :=
  let stream := stream t in
  if stream_closed stream then (t, inr (Rejected executeClosed))
  else
    let hranaStmt := _applySqlCache (stmtToHrana stmt) in
    match started t with
    | None =>
      let batch := emptyBatch in
      let '(beginStep, batch) := addStep None (Run "BEGIN") batch in
      let '(rows, batch) := addStep (Some (CondOk beginStep)) (Query hranaStmt) batch in
      let '(req, stream) := streamBatch batch stream in
      let p := mkStarted req beginStep in
      (mkTx stream (Some p) (released t), inl (ExecuteBegin p (OfStep req rows)))
    | Some p => (t, inl (ExecuteStarted p hranaStmt))
    end.

(** [rollback()], lines 80-99. *)
Definition rollback (t : Tx) : Phase :=
  let stream := stream t in
  if stream_closed stream then (close t, inr (Fulfilled RetVoid))
  else
    match started t with
    | Some _ =>
      let '(promise, stream) := streamRun "ROLLBACK" stream in
      let stream := streamClose stream in
      (mkTx stream (started t) (released t), inl (RollbackRun promise))
    | None => (close t, inr (Fulfilled RetVoid))
    end.

(** [commit()], lines 113-127. *)
Definition commit (t : Tx) : Phase :=
  let stream := stream t in
  if stream_closed stream then (close t, inr (Rejected (mapHranaError commitClosed)))
  else
    match started t with
    | Some p => (t, inl (CommitStarted p))
    | None => (close t, inr (Fulfilled RetVoid))
    end.

(** The continuation of a task once the promise it awaits has settled;
    [None] while that promise is pending. *)
Definition resume (replies : Replies) (t : Tx) (task : Task) : option Phase :=
  match task with
  | ExecuteBegin p rows =>
    (* lines 57-64 *)
    match startedPromise replies p with
    | None => None
    | Some (Rejected e) => Some (close t, inr (Rejected (mapHranaError e)))
    | Some (Fulfilled _) => Some (t, inl (ExecuteRows rows))
    end
  | ExecuteStarted p hranaStmt =>
    (* lines 68-70 *)
    match startedPromise replies p with
    | None => None
    | Some (Rejected e) => Some (t, inr (Rejected (mapHranaError e)))
    | Some (Fulfilled _) =>
      let '(req, stream) := streamQuery hranaStmt (stream t) in
      Some (mkTx stream (started t) (released t), inl (ExecuteRows (OfQuery req)))
    end
  | ExecuteRows rows =>
    (* lines 73-76 *)
    match rowsPromise replies rows with
    | None => None
    | Some (Rejected e) => Some (t, inr (Rejected (mapHranaError e)))
    | Some (Fulfilled None) => Some (t, inr (Rejected (mapHranaError typeError)))
    | Some (Fulfilled (Some hranaRows)) =>
      Some (t, inr (Fulfilled (RetResultSet (resultSetFromHrana hranaRows))))
    end
  | CommitStarted p =>
    (* lines 124-133 *)
    match startedPromise replies p with
    | None => None
    | Some (Rejected e) => Some (close t, inr (Rejected (mapHranaError e)))
    | Some (Fulfilled _) =>
      let '(promise, stream) := streamRun "COMMIT" (stream t) in
      let stream := streamClose stream in
      Some (mkTx stream (started t) (released t), inl (CommitRun promise))
    end
  | CommitRun promise | RollbackRun promise =>
    (* lines 99-108 and 133-138 *)
    match runPromise replies promise with
    | None => None
    | Some (Rejected e) =>
      Some (close t, inr (Rejected (mapHranaError (mapHranaError e))))
    | Some (Fulfilled _) => Some (close t, inr (Fulfilled RetVoid))
    end
  end.

(** *** Concurrent callers

    The callers and the server are the environment: calls are made,
    requests are answered and suspended calls are resumed in any order. A
    request is answered at most once, with an answer of its kind; a
    stream may also close by itself. *)

Inductive Call :=
| Execute (stmt : InStatement)
| Commit
| Rollback
| Close.

Inductive Event :=
| Invoke (c : Call)
| BatchAnswered (req : nat) (reply : BatchReply)
| StmtAnswered (req : nat) (reply : Settled RowsResult)
| Resume (call : nat)
| StreamClosed.

Record Sys := mkSys {
  tx : Tx;
  replies : Replies;
  tasks : gmap nat Task;
  results : gmap nat (Settled Ret);
  ncalls : nat
}.

Definition invoke (t : Tx) (c : Call) : Phase :=
  match c with
  | Execute stmt => execute t stmt
  | Commit => commit t
  | Rollback => rollback t
  | Close => (close t, inr (Fulfilled RetVoid))
  end.

(** Records where call [id] stands after a phase. *)
Definition proceed (s : Sys) (id : nat) (ph : Phase) (n : nat) : Sys :=
  match ph with
  | (t, inl task) => mkSys t (replies s) (<[id := task]> (tasks s)) (results s) n
  | (t, inr r) => mkSys t (replies s) (delete id (tasks s)) (<[id := r]> (results s)) n
  end.

Definition isBatch (r : Request) : bool :=
  match r with ReqBatch _ => true | _ => false end.

Definition answerBatch (s : Sys) (req : nat) (reply : BatchReply) : Sys :=
  match sent (stream (tx s)) !! req, batchReplies (replies s) !! req with
  | Some (ReqBatch _), None =>
    mkSys (tx s)
      (mkReplies (<[req := reply]> (batchReplies (replies s))) (stmtReplies (replies s)))
      (tasks s) (results s) (ncalls s)
  | _, _ => s
  end.

Definition answerStmt (s : Sys) (req : nat) (reply : Settled RowsResult) : Sys :=
  match sent (stream (tx s)) !! req, stmtReplies (replies s) !! req with
  | Some (ReqQuery _), None | Some (ReqRun _), None =>
    mkSys (tx s)
      (mkReplies (batchReplies (replies s)) (<[req := reply]> (stmtReplies (replies s))))
      (tasks s) (results s) (ncalls s)
  | _, _ => s
  end.

Definition step (s : Sys) (ev : Event) : Sys :=
  match ev with
  | Invoke c => proceed s (ncalls s) (invoke (tx s) c) (S (ncalls s))
  | BatchAnswered req reply => answerBatch s req reply
  | StmtAnswered req reply => answerStmt s req reply
  | Resume id =>
    match tasks s !! id with
    | Some task =>
      match resume (replies s) (tx s) task with
      | Some ph => proceed s id ph (ncalls s)
      | None => s
      end
    | None => s
    end
  | StreamClosed =>
    mkSys (mkTx (streamClose (stream (tx s))) (started (tx s)) (released (tx s)))
      (replies s) (tasks s) (results s) (ncalls s)
  end.

Definition run (s : Sys) (evs : list Event) : Sys := foldl step s evs.

(** A fresh transaction on a fresh stream. *)
Definition newTx : Tx := mkTx (mkStream false []) None false.
Definition init : Sys := mkSys newTx (mkReplies ∅ ∅) ∅ ∅ 0.

(** How many BEGIN statements a request carries. *)
Definition isBegin (o : StepOp) : bool :=
  match o with Run sql => bool_decide (sql = "BEGIN") | Query _ => false end.

Definition begins (r : Request) : nat :=
  match r with
  | ReqBatch steps => length (filter (λ st, isBegin (op st) = true) steps)
  | ReqRun sql => if bool_decide (sql = "BEGIN") then 1 else 0
  | ReqQuery _ => 0
  end.

Definition beginsSent (l : list Request) : nat := sum_list_with begins l.

(** The [#started] promise a task is suspended on, if any. *)
Definition awaitsStarted (task : Task) : option StartedPromise :=
  match task with
  | ExecuteBegin p _ | ExecuteStarted p _ | CommitStarted p => Some p
  | ExecuteRows _ | CommitRun _ | RollbackRun _ => None
  end.

(** The suspended [execute] calls that wait for BEGIN. *)
Definition executeAwaitsStarted (task : Task) : bool :=
  match task with
  | ExecuteBegin _ _ | ExecuteStarted _ _ => true
  | _ => false
  end.

(** The tasks of [commit()] and [rollback()]. *)
Definition finishing (task : Task) : bool :=
  match task with
  | CommitStarted _ | CommitRun _ | RollbackRun _ => true
  | _ => false
  end.

(** What holds of every state the coordinator can reach. *)
Record Inv (s : Sys) : Prop := mkInv {
  inv_begins :
    beginsSent (sent (stream (tx s))) = (if started (tx s) is Some _ then 1 else 0)
    ∧ length (filter (λ r, isBatch r = true) (sent (stream (tx s))))
      = (if started (tx s) is Some _ then 1 else 0);
  inv_tasks : ∀ id task p,
    tasks s !! id = Some task → awaitsStarted task = Some p → started (tx s) = Some p;
  inv_ids : ∀ id, is_Some (tasks s !! id) → id < ncalls s;
  inv_commit :
    ReqRun "COMMIT" ∈ sent (stream (tx s)) →
    ∃ p, started (tx s) = Some p ∧ startedPromise (replies s) p = Some (Fulfilled ());
  inv_failed : ∀ p,
    started (tx s) = Some p →
    (∃ id rows, tasks s !! id = Some (ExecuteBegin p rows))
    ∨ startedPromise (replies s) p = Some (Fulfilled ())
    ∨ (released (tx s) = true ∧ stream_closed (stream (tx s)) = true);
  inv_released : released (tx s) = true → stream_closed (stream (tx s)) = true
}.

(** The requests of the coordinator's own ROLLBACK and COMMIT, and those of
    the callers' statements. *)
Definition isRollback (r : Request) : bool :=
  match r with ReqRun sql => bool_decide (sql = "ROLLBACK") | _ => false end.

Definition isCommit (r : Request) : bool :=
  match r with ReqRun sql => bool_decide (sql = "COMMIT") | _ => false end.

Definition isQuery (r : Request) : bool :=
  match r with ReqQuery _ => true | _ => false end.

(** The batch that opens a transaction around the statement [q]. *)
Definition beginBatch (q : Stmt) : Request :=
  ReqBatch [mkStep None (Run "BEGIN"); mkStep (Some (CondOk 0)) (Query q)].

(** BEGIN has been sent and has succeeded. *)
Definition hasBegun (s : Sys) : Prop :=
  ∃ p, started (tx s) = Some p ∧ startedPromise (replies s) p = Some (Fulfilled ()).

(** What else holds of every state the coordinator can reach: the order
    of what is sent, and which requests have an answer. *)
Record Inv2 (s : Sys) : Prop := mkInv2 {
  inv_first :
    match started (tx s) with
    | None => sent (stream (tx s)) = []
    | Some p => p = mkStarted 0 0 ∧ ∃ q, sent (stream (tx s)) !! 0 = Some (beginBatch q)
    end;
  inv_after : ∀ i r,
    sent (stream (tx s)) !! i = Some r → 0 < i →
    isRollback r = true ∨ (hasBegun s ∧ (isQuery r = true ∨ isCommit r = true));
  inv_rollback :
    length (filter (λ r, isRollback r = true) (sent (stream (tx s)))) ≤ 1
    ∧ (0 < length (filter (λ r, isRollback r = true) (sent (stream (tx s)))) →
       stream_closed (stream (tx s)) = true ∧ is_Some (started (tx s)));
  inv_answered : ∀ req,
    is_Some (batchReplies (replies s) !! req) ∨ is_Some (stmtReplies (replies s) !! req) →
    req < length (sent (stream (tx s)))
}.

(** Where the call [id] of [commit()] or [rollback()] stands: it waits for
    BEGIN, or for the answer to the COMMIT or ROLLBACK it has sent, or it
    has settled and the transaction and its stream are closed. *)
Definition finishes (s : Sys) (id : nat) : Prop :=
  match tasks s !! id with
  | Some (CommitStarted _) => results s !! id = None
  | Some (CommitRun promise) | Some (RollbackRun promise) =>
    results s !! id = None
    ∧ ∃ sql, sent (stream (tx s)) !! promise = Some (ReqRun sql)
  | Some _ => False
  | None =>
    is_Some (results s !! id)
    ∧ closed (tx s) = true ∧ stream_closed (stream (tx s)) = true
  end.

(** The request whose answer the call [id] of [commit()] or [rollback()]
    waits for, or the next request of the stream while it has sent none. *)
Definition runRequest (s : Sys) (id : nat) : nat :=
  match tasks s !! id with
  | Some (CommitRun promise) | Some (RollbackRun promise) => promise
  | _ => length (sent (stream (tx s)))
  end.

(** The step outcome at a position is a success. *)
Definition okAt (outs : list StepOutcome) (j : nat) : Prop :=
  ∃ r, outs !! j = Some (StepOk r).

(** ** The batch as the specification words it

    [BEGIN, stmt1 if ok(BEGIN), stmt2 if ok(stmt1), ..., COMMIT if ok(stmtN),
    ROLLBACK if not(ok(COMMIT))], for a batch whose first free position is
    [base]. *)
Definition specSteps (base : nat) (hranaStmts : list Stmt) : list Step :=
  let n := length hranaStmts in
  [mkStep None (Run "BEGIN")]
  ++ imap (λ i stmt, mkStep (Some (CondOk (base + i))) (Query stmt)) hranaStmts
  ++ [mkStep (Some (CondOk (base + n))) (Run "COMMIT");
      mkStep (Some (CondNot (CondOk (base + n + 1)))) (Run "ROLLBACK")].

(** ** Properties of the batch runner *)

Lemma foldl_addStmt (hranaStmts : list Stmt) :
  ∀ (b : Batch) (last : nat) (ps : list nat),
    length (steps b) = S last →
    foldl addStmt (b, last, ps) hranaStmts =
      (mkBatch
         (steps b ++ imap (λ i stmt, mkStep (Some (CondOk (last + i))) (Query stmt)) hranaStmts)
         (executions b),
       last + length hranaStmts,
       ps ++ seq (S last) (length hranaStmts)).
Proof.
  induction hranaStmts as [|stmt rest IH]; intros b last ps Hlen; simpl.
  - rewrite !app_nil_r, Nat.add_0_r. by destruct b.
  - unfold addStep. rewrite Hlen. rewrite IH by (simpl; rewrite length_app; simpl; lia).
    simpl. rewrite <- !app_assoc. simpl. rewrite Nat.add_0_r.
    replace (last + S (length rest)) with (S (last + length rest)) by lia.
    do 5 f_equal. apply imap_ext. intros i x _. simpl.
    do 3 f_equal. lia.
Qed.

Lemma executeHranaBatch_build_eq (b : Batch) (hranaStmts : list Stmt) :
  executeHranaBatch_build b hranaStmts =
    (mkBatch (steps b ++ specSteps (length (steps b)) hranaStmts) (S (executions b)),
     (length (steps b),
      seq (S (length (steps b))) (length hranaStmts),
      S (length (steps b)) + length hranaStmts)).
Proof.
  unfold executeHranaBatch_build, addStep.
  rewrite foldl_addStmt by (simpl; rewrite length_app; simpl; lia).
  simpl. unfold submit, specSteps. simpl.
  rewrite !length_app, length_imap. simpl.
  set (n := length (steps b)). set (k := length hranaStmts).
  replace (n + 1 + k) with (n + k + 1) by lia.
  replace (S (n + k)) with (n + k + 1) by lia.
  rewrite <- !app_assoc. reflexivity.
Qed.

Lemma stepPromise_insert_ne (outs : list StepOutcome) (i j : nat) (o : StepOutcome) :
  i ≠ j → stepPromise (<[i := o]> outs) j = stepPromise outs j.
Proof. intros Hne. unfold stepPromise. by rewrite list_lookup_insert_ne. Qed.

Lemma collect_insert (outs : list StepOutcome) (i : nat) (o : StepOutcome) (ps : list nat) :
  ∀ acc, i ∉ ps → collect (<[i := o]> outs) ps acc = collect outs ps acc.
Proof.
  induction ps as [|p ps IH]; intros acc Hni; simpl; [done|].
  rewrite stepPromise_insert_ne by set_solver.
  destruct (stepPromise outs p) as [[r|]|e]; try done.
  apply IH. set_solver.
Qed.

Lemma collect_app (outs : list StepOutcome) (ps : list nat) :
  ∀ acc rs, collect outs ps acc = Fulfilled rs →
    ∃ rs', rs = acc ++ rs' ∧ length rs' = length ps.
Proof.
  induction ps as [|p ps IH]; intros acc rs H; simpl in H.
  - injection H as <-. exists []. by rewrite app_nil_r.
  - destruct (stepPromise outs p) as [[r|]|e]; try done.
    apply IH in H as (rs' & -> & Hlen).
    exists (resultSetFromHrana r :: rs'). split; [by rewrite <- app_assoc|simpl; lia].
Qed.

Lemma collect_ok (outs : list StepOutcome) (ps : list nat) :
  ∀ (rws : list RowsResult) (acc : list ResultSet),
    length rws = length ps →
    (∀ i p r, ps !! i = Some p → rws !! i = Some r → outs !! p = Some (StepOk r)) →
    collect outs ps acc = Fulfilled (acc ++ (resultSetFromHrana <$> rws)).
Proof.
  induction ps as [|p ps IH]; intros [|r rws] acc Hlen Hok; simpl in *; try done.
  - by rewrite app_nil_r.
  - unfold stepPromise. rewrite (Hok 0 p r) by done.
    rewrite (IH rws).
    + by rewrite <- app_assoc.
    + lia.
    + intros i q r' Hq Hr. by apply (Hok (S i)).
Qed.

Lemma collect_missing (outs : list StepOutcome) (p : nat) (post : list nat) :
  ∀ (pre : list nat) (acc : list ResultSet),
    stepPromise outs p = Fulfilled None →
    (∃ e, collect outs (pre ++ p :: post) acc = Rejected e) ∧
    ((∀ q e, q ∈ pre → outs !! q ≠ Some (StepError e)) →
     collect outs (pre ++ p :: post) acc = Rejected missingResult).
Proof.
  induction pre as [|q pre IH]; intros acc Hp; simpl.
  - rewrite Hp. eauto.
  - destruct (stepPromise outs q) as [[r|]|e] eqn:Hq.
    + destruct (IH (acc ++ [resultSetFromHrana r]) Hp) as [Hrej Hfirst].
      split; [exact Hrej|]. intros Hne. apply Hfirst. intros q' e' Hin. apply Hne.
      apply elem_of_cons. by right.
    + split; [by exists missingResult|]. by intros _.
    + split; [by exists e|]. intros Hne. exfalso.
      unfold stepPromise in Hq. destruct (outs !! q) as [[r'|e'|]|] eqn:Hl; try done.
      injection Hq as ->. apply (Hne q e); [apply elem_of_cons; by left|done].
Qed.

Lemma collect_failed (outs : list StepOutcome) (p : nat) (e : Thrown) (post : list nat) :
  ∀ (pre : list nat) (acc : list ResultSet),
    outs !! p = Some (StepError e) →
    (∀ q, q ∈ pre → ∃ r, outs !! q = Some (StepOk r)) →
    collect outs (pre ++ p :: post) acc = Rejected e.
Proof.
  induction pre as [|q pre IH]; intros acc Hp Hok; simpl.
  - unfold stepPromise. by rewrite Hp.
  - destruct (Hok q) as [r Hq]; [apply elem_of_cons; by left|].
    unfold stepPromise at 1. rewrite Hq. apply IH; [done|].
    intros q' Hin. apply Hok. apply elem_of_cons. by right.
Qed.

(** C5. [mapHranaError] turns every [hrana.ClientError] into a
    [LibsqlError] that carries the original message, the code the taxonomy
    gives it (the explicit code of a [ResponseError] first, then
    [ProtoError], [ClosedError], [WebSocketError], [HttpServerError],
    [ProtocolVersionError] in this order, [UNKNOWN] otherwise) and the
    original error as cause; any other value is returned unchanged. *)
Theorem mapHranaError_taxonomy (e : Thrown) :
  mapHranaError e =
    if instanceof e ClientError
    then LibsqlError (message_of e) (classify e) (Some e)
    else e.
Proof.
  unfold mapHranaError, classify, explicitCode.
  destruct (instanceof e ClientError); [|done].
  f_equal.
  destruct (if instanceof e ResponseError then code_of e else None); [done|].
  unfold taxonomy. simpl.
  destruct (instanceof e ProtoError); [done|].
  destruct (instanceof e ClosedError); [done|].
  destruct (instanceof e WebSocketError); [done|].
  destruct (instanceof e HttpServerError); [done|].
  by destruct (instanceof e ProtocolVersionError).
Qed.

(** C6. [resultSetFromHrana] keeps every column name, with the empty string
    in place of an absent one, copies the rows and the affected-row count,
    and gives [BigInt] of the row id when there is one and no row id (never
    a zero) when there is none. *)
Theorem resultSetFromHrana_fields (hranaRows : RowsResult) :
  let rs := resultSetFromHrana hranaRows in
  length (columns rs) = length (columnNames hranaRows)
  ∧ (∀ i, columns rs !! i =
          match columnNames hranaRows !! i with
          | Some (Some name) => Some name
          | Some None => Some ""
          | None => None
          end)
  ∧ rows rs = hranaRows_rows hranaRows
  ∧ rowsAffected rs = affectedRowCount hranaRows
  ∧ lastInsertRowid rs = BigInt <$> hranaRows_lastInsertRowid hranaRows
  ∧ (∀ names rws count,
       lastInsertRowid (resultSetFromHrana (mkRowsResult names rws count None)) = None
       ∧ resultSetFromHrana (mkRowsResult names rws count None) =
         mkResultSet ((λ c, default "" c) <$> names) rws count None).
Proof.
  simpl. repeat split.
  - by rewrite length_fmap.
  - intros i. rewrite list_lookup_fmap. by destruct (columnNames hranaRows !! i) as [[?|]|].
Qed.

(** C4. On a batch with no step yet, [executeHranaBatch] declares exactly
    BEGIN, each statement conditioned on the success of the step before it,
    COMMIT conditioned on the last statement and ROLLBACK conditioned on
    COMMIT not succeeding (after the steps the batch already had, if any),
    and submits the batch once; whatever the ROLLBACK step reports, error
    included, the result is the same. *)
Theorem executeHranaBatch_steps (b : Batch) (hranaStmts : list Stmt)
    (outs : list StepOutcome) (o : StepOutcome) :
  let base := length (steps b) in
  let n := length hranaStmts in
  (executeHranaBatch_build emptyBatch hranaStmts).1 = mkBatch (specSteps 0 hranaStmts) 1
  ∧ (executeHranaBatch_build b hranaStmts).1 =
      mkBatch (steps b ++ specSteps base hranaStmts) (S (executions b))
  ∧ (steps b ++ specSteps base hranaStmts) !! (base + n + 2) =
      Some (mkStep (Some (CondNot (CondOk (base + n + 1)))) (Run "ROLLBACK"))
  ∧ executeHranaBatch b hranaStmts (Fulfilled (<[base + n + 2 := o]> outs)) =
      executeHranaBatch b hranaStmts (Fulfilled outs).
Proof.
  intros base n. repeat split.
  - by rewrite executeHranaBatch_build_eq.
  - by rewrite executeHranaBatch_build_eq.
  - rewrite lookup_app_r by (subst base; lia).
    replace (base + n + 2 - length (steps b)) with (S (n + 1)) by (subst base; lia).
    unfold specSteps. simpl. rewrite lookup_app_r by (rewrite length_imap; subst n; lia).
    rewrite length_imap. replace (n + 1 - length hranaStmts) with 1 by (subst n; lia).
    reflexivity.
  - unfold executeHranaBatch. rewrite executeHranaBatch_build_eq. simpl.
    fold base n.
    rewrite !stepPromise_insert_ne by lia.
    rewrite collect_insert; [done|].
    rewrite elem_of_seq. lia.
Qed.

(** C3, amended. A batch over N statements never yields fewer than N
    result sets: it yields exactly N, in submission order, when BEGIN, the
    N statements and COMMIT succeed, and it fails when the outcome of a
    statement step is missing. That failure is the [SERVER_ERROR]
    [LibsqlError] when neither BEGIN nor an earlier statement reported an
    error, and it is the error of a statement that failed after BEGIN and
    the statements before it succeeded; a failed submission fails with its
    own error. *)
Theorem executeHranaBatch_results (b : Batch) (hranaStmts : list Stmt)
    (outs : list StepOutcome) :
  let base := length (steps b) in
  let n := length hranaStmts in
  let result := (executeHranaBatch b hranaStmts (Fulfilled outs)).2 in
  (∀ rs, result = Fulfilled rs → length rs = n)
  ∧ (∀ i, i < n → stepPromise outs (base + 1 + i) = Fulfilled None →
       (∃ e, result = Rejected e)
       ∧ ((∀ j e, base ≤ j ≤ base + i → outs !! j ≠ Some (StepError e)) →
          result = Rejected missingResult))
  ∧ (∀ rws, length rws = n →
       (∃ r, outs !! base = Some (StepOk r)) →
       (∀ i r, rws !! i = Some r → outs !! (base + 1 + i) = Some (StepOk r)) →
       (∃ r, outs !! (base + 1 + n) = Some (StepOk r)) →
       result = Fulfilled (resultSetFromHrana <$> rws))
  ∧ (∀ i e, i < n →
       outs !! (base + 1 + i) = Some (StepError e) →
       (∀ j, base ≤ j ≤ base + i → ∃ r, outs !! j = Some (StepOk r)) →
       result = Rejected e)
  ∧ (∀ e, (executeHranaBatch b hranaStmts (Rejected e)).2 = Rejected e).
Proof.
  intros base n result. subst result. unfold executeHranaBatch.
  rewrite executeHranaBatch_build_eq. simpl. fold base n.
  split; [|split; [|split; [|split]]].
  - intros rs H.
    destruct (stepPromise outs base); [|done].
    destruct (collect outs (seq (S base) n) []) as [rs0|] eqn:Hc; [|done].
    destruct (stepPromise outs (S (base + n))); [|done].
    injection H as <-. apply collect_app in Hc as (rs' & -> & Hlen).
    by rewrite length_seq in Hlen.
  - intros i Hi Hmiss.
    replace (seq (S base) n)
      with (seq (S base) i ++ (base + 1 + i) :: seq (base + 1 + i + 1) (n - i - 1)).
    2:{ replace n with (i + S (n - i - 1)) at 2 by lia.
        rewrite seq_app. simpl. do 2 f_equal; [lia|f_equal; lia]. }
    destruct (collect_missing outs (base + 1 + i) (seq (base + 1 + i + 1) (n - i - 1))
                (seq (S base) i) [] Hmiss) as [[e He] Hfirst].
    split.
    + destruct (stepPromise outs base); [|eauto]. rewrite He. eauto.
    + intros Hne.
      destruct (stepPromise outs base) as [|e'] eqn:Hb.
      * rewrite Hfirst; [done|]. intros q e' Hq. apply Hne.
        apply elem_of_seq in Hq. lia.
      * exfalso. unfold stepPromise in Hb.
        destruct (outs !! base) as [[?|e''|]|] eqn:Hl; try done.
        injection Hb as ->. apply (Hne base e'); [lia|done].
  - intros rws Hlen [rb Hb] Hok [rc Hcm].
    unfold stepPromise at 1. rewrite Hb.
    rewrite (collect_ok outs (seq (S base) n) rws []).
    + unfold stepPromise. replace (S (base + n)) with (base + 1 + n) by lia.
      by rewrite Hcm.
    + by rewrite length_seq.
    + intros i p r Hp Hr. apply lookup_seq in Hp as [-> _].
      replace (S base + i) with (base + 1 + i) by lia. by apply Hok.
  - intros i e Hi Herr Hok.
    replace (seq (S base) n)
      with (seq (S base) i ++ (base + 1 + i) :: seq (base + 1 + i + 1) (n - i - 1)).
    2:{ replace n with (i + S (n - i - 1)) at 2 by lia.
        rewrite seq_app. simpl. do 2 f_equal; [lia|f_equal; lia]. }
    destruct (Hok base) as [rb Hb]; [lia|].
    unfold stepPromise at 1. rewrite Hb.
    rewrite (collect_failed outs (base + 1 + i) e); [done|done|].
    intros q Hq. apply Hok. apply elem_of_seq in Hq. lia.
  - done.
Qed.

(** ** Properties of the error mapping *)

Lemma mapHranaError_LibsqlError (m c : string) (cause : option Thrown) :
  mapHranaError (LibsqlError m c cause) = LibsqlError m c cause.
Proof. reflexivity. Qed.

Lemma mapHranaError_idem (e : Thrown) :
  mapHranaError (mapHranaError e) = mapHranaError e.
Proof.
  destruct (instanceof e ClientError) eqn:H; unfold mapHranaError; rewrite H.
  - reflexivity.
  - by rewrite H.
Qed.

Lemma mapHranaError_carries (e : Thrown) : carries (mapHranaError e) e.
Proof.
  unfold carries, mapHranaError. destruct (instanceof e ClientError); eauto.
Qed.

(** ** Properties of the transaction *)

Ltac phases :=
  unfold step, invoke, execute, commit, rollback, resume, proceed,
    answerBatch, answerStmt, close, streamBatch, streamRun, streamQuery,
    streamClose, issue, addStep in *;
  simpl in *;
  repeat case_match; simplify_eq; simpl in *.

Lemma step_started (s : Sys) (ev : Event) (p : StartedPromise) :
  started (tx s) = Some p → started (tx (step s ev)) = Some p.
Proof. intros H. destruct ev as [[]| | | |]; phases; congruence. Qed.

Lemma step_released (s : Sys) (ev : Event) :
  released (tx s) = true → released (tx (step s ev)) = true.
Proof. intros H. destruct ev as [[]| | | |]; phases; congruence. Qed.

Lemma step_stream_closed (s : Sys) (ev : Event) :
  stream_closed (stream (tx s)) = true → stream_closed (stream (tx (step s ev))) = true.
Proof. intros H. destruct ev as [[]| | | |]; phases; congruence. Qed.

Lemma step_batchReplies (s : Sys) (ev : Event) (req : nat) (reply : BatchReply) :
  batchReplies (replies s) !! req = Some reply →
  batchReplies (replies (step s ev)) !! req = Some reply.
Proof.
  intros H. destruct ev as [[]|r ?| | |]; phases; try congruence.
  destruct (decide (r = req)) as [->|Hne]; [congruence|].
  by rewrite lookup_insert_ne.
Qed.

Lemma step_startedPromise (s : Sys) (ev : Event) (p : StartedPromise) (o : Settled ()) :
  startedPromise (replies s) p = Some o →
  startedPromise (replies (step s ev)) p = Some o.
Proof.
  unfold startedPromise. intros H.
  destruct (batchReplies (replies s) !! batchReq p) as [reply|] eqn:Hr; [|done].
  by rewrite (step_batchReplies s ev _ reply).
Qed.

Lemma step_sent (s : Sys) (ev : Event) :
  ∃ l, sent (stream (tx (step s ev))) = sent (stream (tx s)) ++ l.
Proof.
  destruct ev as [[]| | | |]; phases; eauto using app_nil_r.
Qed.

Lemma beginsSent_snoc (l : list Request) (r : Request) :
  beginsSent (l ++ [r]) = beginsSent l + begins r.
Proof.
  unfold beginsSent. rewrite sum_list_with_app. simpl. lia.
Qed.

Lemma batches_snoc (l : list Request) (r : Request) :
  length (filter (λ r, isBatch r = true) (l ++ [r])) =
  length (filter (λ r, isBatch r = true) l) + (if isBatch r then 1 else 0).
Proof.
  rewrite filter_app, length_app. f_equal.
  rewrite filter_cons, filter_nil. by destruct r.
Qed.

Lemma init_inv : Inv init.
Proof.
  split; simpl.
  - done.
  - intros id task p H. by rewrite lookup_empty in H.
  - intros id [x Hx]. by rewrite lookup_empty in Hx.
  - intros H. by apply elem_of_nil in H.
  - done.
  - done.
Qed.

Lemma step_inv_begins (s : Sys) (ev : Event) :
  Inv s →
  beginsSent (sent (stream (tx (step s ev)))) =
    (if started (tx (step s ev)) is Some _ then 1 else 0)
  ∧ length (filter (λ r, isBatch r = true) (sent (stream (tx (step s ev)))))
    = (if started (tx (step s ev)) is Some _ then 1 else 0).
Proof.
  intros [[Hb Hn] _ Ht _ _ _].
  destruct ev as [[]| | |id|]; phases;
    rewrite ?beginsSent_snoc, ?batches_snoc, ?Hb, ?Hn; simpl;
    try (split; (congruence || lia || done)).
Qed.

Lemma step_inv_released (s : Sys) (ev : Event) :
  Inv s → released (tx (step s ev)) = true → stream_closed (stream (tx (step s ev))) = true.
Proof.
  intros [_ _ _ _ _ Hr].
  destruct ev as [[]| | |id|]; phases; auto;
    intros H; apply Hr in H; congruence.
Qed.

Lemma step_inv_ids (s : Sys) (ev : Event) :
  Inv s → ∀ id, is_Some (tasks (step s ev) !! id) → id < ncalls (step s ev).
Proof.
  intros [_ _ Hi _ _ _] id.
  destruct ev as [[]| | |id'|]; phases; auto;
    intros [x Hx];
    try (apply lookup_delete_Some in Hx as [_ Hx]);
    try (apply lookup_insert_Some in Hx as [[<- _]|[_ Hx]]);
    try lia;
    try (assert (id < ncalls s) by eauto; lia);
    eauto.
Qed.

Lemma step_inv_tasks (s : Sys) (ev : Event) :
  Inv s →
  ∀ id task p, tasks (step s ev) !! id = Some task → awaitsStarted task = Some p →
    started (tx (step s ev)) = Some p.
Proof.
  intros [_ Ht _ _ _ _] id task p Hl Ha.
  destruct ev as [[]| | |id'|]; phases;
    try (apply lookup_delete_Some in Hl as [_ Hl]);
    try (apply lookup_insert_Some in Hl as [[<- <-]|[_ Hl]]);
    simpl in *; simplify_eq; eauto;
    try (specialize (Ht _ _ _ Hl Ha); congruence);
    try (eapply (Ht id'); [eassumption|reflexivity]).
Qed.

Lemma step_sent_commit (s : Sys) (ev : Event) :
  ReqRun "COMMIT" ∈ sent (stream (tx (step s ev))) →
  ReqRun "COMMIT" ∈ sent (stream (tx s))
  ∨ ∃ id p, tasks s !! id = Some (CommitStarted p)
            ∧ startedPromise (replies s) p = Some (Fulfilled ()).
Proof.
  intros H.
  destruct ev as [[]| | |id'|]; phases; auto;
    apply elem_of_app in H as [H|H]; auto;
    apply list_elem_of_singleton in H; simplify_eq.
  right. destruct a. eauto.
Qed.

Lemma step_inv_commit (s : Sys) (ev : Event) :
  Inv s →
  ReqRun "COMMIT" ∈ sent (stream (tx (step s ev))) →
  ∃ p, started (tx (step s ev)) = Some p
       ∧ startedPromise (replies (step s ev)) p = Some (Fulfilled ()).
Proof.
  intros [_ Ht _ Hc _ _] H.
  apply step_sent_commit in H as [H|(id & p & Hid & Hp)].
  - destruct (Hc H) as (p & Hs & Hp). exists p.
    split; [by apply step_started|by apply step_startedPromise].
  - exists p. split; [|by apply step_startedPromise].
    apply step_started. by apply (Ht id (CommitStarted p)).
Qed.

Lemma step_inv_failed (s : Sys) (ev : Event) :
  Inv s →
  ∀ p, started (tx (step s ev)) = Some p →
    (∃ id rows, tasks (step s ev) !! id = Some (ExecuteBegin p rows))
    ∨ startedPromise (replies (step s ev)) p = Some (Fulfilled ())
    ∨ (released (tx (step s ev)) = true ∧ stream_closed (stream (tx (step s ev))) = true).
Proof.
  intros Hinv p Hp.
  destruct (started (tx s)) as [p0|] eqn:Hs.
  - assert (p0 = p) as -> by (pose proof (step_started s ev p0 Hs); congruence).
    destruct (inv_failed s Hinv p Hs) as [(id & rows & Hid)|[Hful|[Hrel Hcl]]].
    + assert (id < ncalls s) by (apply Hinv; eauto).
      assert (∀ id', id' ≠ id → ev = Resume id' →
              ∃ id rows, tasks (step s ev) !! id = Some (ExecuteBegin p rows)) as Hother.
      { intros id' Hne ->. exists id, rows. phases;
          rewrite ?lookup_insert_ne, ?lookup_delete_ne by congruence; done. }
      destruct ev as [[]| | |id'|].
      7:{ destruct (decide (id' = id)) as [->|Hne]; [|left; by eapply Hother].
          simpl. rewrite Hid. simpl.
          destruct (startedPromise (replies s) p) as [[[]|e]|] eqn:Hsp; simpl.
          - right; left. exact Hsp.
          - right; right. done.
          - left. eauto. }
      all: left; exists id, rows; phases;
        rewrite ?lookup_insert_ne, ?lookup_delete_ne by lia; done.
    + right; left. by apply step_startedPromise.
    + right; right. split; [by apply step_released|by apply step_stream_closed].
  - destruct ev as [[]| | |id'|]; phases; try congruence.
    simplify_eq. left. eexists (ncalls s), _. apply lookup_insert_eq.
Qed.

Lemma step_inv (s : Sys) (ev : Event) : Inv s → Inv (step s ev).
Proof.
  intros H. split.
  - by apply step_inv_begins.
  - by apply step_inv_tasks.
  - by apply step_inv_ids.
  - by apply step_inv_commit.
  - by apply step_inv_failed.
  - by apply step_inv_released.
Qed.

Lemma run_app (s : Sys) (evs evs' : list Event) :
  run s (evs ++ evs') = run (run s evs) evs'.
Proof. apply foldl_app. Qed.

Lemma run_preserves (P : Sys → Prop) :
  (∀ s ev, P s → P (step s ev)) → ∀ evs s, P s → P (run s evs).
Proof.
  intros Hstep evs. induction evs as [|ev evs IH]; intros s Hs; simpl; [done|].
  apply IH. by apply Hstep.
Qed.

Lemma run_inv (evs : list Event) : Inv (run init evs).
Proof. apply run_preserves; [apply step_inv|apply init_inv]. Qed.

Lemma run_started (evs : list Event) (s : Sys) (p : StartedPromise) :
  started (tx s) = Some p → started (tx (run s evs)) = Some p.
Proof.
  apply (run_preserves (λ s, started (tx s) = Some p)).
  intros s' ev. apply step_started.
Qed.

Lemma run_startedPromise (evs : list Event) (s : Sys) (p : StartedPromise) (o : Settled ()) :
  startedPromise (replies s) p = Some o → startedPromise (replies (run s evs)) p = Some o.
Proof.
  apply (run_preserves (λ s, startedPromise (replies s) p = Some o)).
  intros s' ev. apply step_startedPromise.
Qed.

(** C9. On a closed stream [execute()] and [commit()] fail with a
    [LibsqlError] of code [TRANSACTION_CLOSED], at once and without
    issuing anything on the stream. *)
Theorem closed_stream_rejects (t : Tx) (stmt : InStatement) :
  stream_closed (stream t) = true →
  (∃ m, execute t stmt = (t, inr (Rejected (LibsqlError m "TRANSACTION_CLOSED" None))))
  ∧ (∃ m, commit t = (close t, inr (Rejected (LibsqlError m "TRANSACTION_CLOSED" None))))
  ∧ sent (stream (execute t stmt).1) = sent (stream t)
  ∧ sent (stream (commit t).1) = sent (stream t).
Proof.
  intros H. unfold execute, commit. rewrite H. simpl.
  repeat split; eauto.
Qed.

(** C10. [rollback()] on a transaction whose [#started] is still unset
    returns without failing and without issuing ROLLBACK (or anything else)
    on the stream, whether the stream is open or not. *)
Theorem rollback_not_started (t : Tx) :
  started t = None →
  rollback t = (close t, inr (Fulfilled RetVoid))
  ∧ sent (stream (rollback t).1) = sent (stream t)
  ∧ ReqRun "ROLLBACK" ∉ drop (length (sent (stream t))) (sent (stream (rollback t).1)).
Proof.
  intros H. unfold rollback. rewrite H.
  destruct (stream_closed (stream t)); simpl;
    (split; [done|split; [done|]]); rewrite drop_all; apply not_elem_of_nil.
Qed.

(** C1. [execute(stmt)] on an open transaction that has not started
    submits one batch, BEGIN followed by the caller's statement conditioned
    on the success of BEGIN, and records [#started]. If the submission or
    the BEGIN step fails with [e], the call closes the transaction and
    fails with [e] as mapped by [mapHranaError], and so does every call
    that waits on [#started] (without closing). If BEGIN succeeds and the
    statement fails, the transaction is left as it is and the call fails
    with the statement's error, mapped; if both succeed the call returns
    the statement's result set. *)
Theorem execute_not_started (t : Tx) (stmt : InStatement) :
  stream_closed (stream t) = false →
  started t = None →
  let hranaStmt := _applySqlCache (stmtToHrana stmt) in
  let req := length (sent (stream t)) in
  let p := mkStarted req 0 in
  let rows := OfStep req 1 in
  let t1 := (execute t stmt).1 in
  execute t stmt = (t1, inl (ExecuteBegin p rows))
  ∧ sent (stream t1) =
      sent (stream t)
      ++ [ReqBatch [mkStep None (Run "BEGIN"); mkStep (Some (CondOk 0)) (Query hranaStmt)]]
  ∧ started t1 = Some p
  ∧ closed t1 = closed t
  ∧ stream_closed (stream t1) = false
  ∧ (∀ reps t2 e,
       (batchReplies reps !! req = Some (Rejected e)
        ∨ ∃ outs, batchReplies reps !! req = Some (Fulfilled outs)
                  ∧ outs !! 0 = Some (StepError e)) →
       resume reps t2 (ExecuteBegin p rows) = Some (close t2, inr (Rejected (mapHranaError e)))
       ∧ closed (close t2) = true
       ∧ carries (mapHranaError e) e
       ∧ ∀ hranaStmt',
           resume reps t2 (ExecuteStarted p hranaStmt') =
             Some (t2, inr (Rejected (mapHranaError e))))
  ∧ (∀ reps t2 outs r,
       batchReplies reps !! req = Some (Fulfilled outs) →
       outs !! 0 = Some (StepOk r) →
       resume reps t2 (ExecuteBegin p rows) = Some (t2, inl (ExecuteRows rows))
       ∧ (∀ e, outs !! 1 = Some (StepError e) →
            resume reps t2 (ExecuteRows rows) = Some (t2, inr (Rejected (mapHranaError e)))
            ∧ carries (mapHranaError e) e)
       ∧ (∀ hranaRows, outs !! 1 = Some (StepOk hranaRows) →
            resume reps t2 (ExecuteRows rows) =
              Some (t2, inr (Fulfilled (RetResultSet (resultSetFromHrana hranaRows)))))).
Proof.
  intros Hopen Hnot hranaStmt req p rows t1. subst t1.
  unfold execute. rewrite Hopen, Hnot. simpl.
  split; [done|]. split; [done|]. split; [done|]. split; [done|]. split; [done|].
  split.
  - intros reps t2 e Hfail.
    assert (startedPromise reps p = Some (Rejected e)) as Hp.
    { unfold startedPromise, stepPromise. simpl.
      destruct Hfail as [->|(outs & -> & ->)]; done. }
    rewrite Hp. repeat split; auto using mapHranaError_carries.
  - intros reps t2 outs r Hreply Hbegin.
    unfold startedPromise, stepPromise. simpl. rewrite Hreply, Hbegin.
    split; [done|]. split.
    + intros e ->. split; [done|apply mapHranaError_carries].
    + by intros hranaRows ->.
Qed.

(** C2. However many calls are made, in whatever order they are resumed
    and answered, the stream is sent at most one BEGIN (and one batch): none
    while [#started] is unset, and the first [execute()] on the open
    transaction sets it and sends the one BEGIN. Once [#started] is set it
    never changes, and neither does its outcome once settled. An
    [execute()] on a transaction whose [#started] is set sends nothing,
    waits for that same promise, and when it is fulfilled issues its
    statement directly on the stream. *)
Theorem begin_sent_once (evs : list Event) :
  let s := run init evs in
  beginsSent (sent (stream (tx s))) ≤ 1
  ∧ length (filter (λ r, isBatch r = true) (sent (stream (tx s)))) ≤ 1
  ∧ (started (tx s) = None →
       beginsSent (sent (stream (tx s))) = 0
       ∧ ∀ stmt, stream_closed (stream (tx s)) = false →
           let s' := step s (Invoke (Execute stmt)) in
           started (tx s') = Some (mkStarted (length (sent (stream (tx s)))) 0)
           ∧ beginsSent (sent (stream (tx s'))) = 1)
  ∧ (∀ p, started (tx s) = Some p →
       (∀ evs', started (tx (run s evs')) = Some p)
       ∧ (∀ o evs', startedPromise (replies s) p = Some o →
            startedPromise (replies (run s evs')) p = Some o)
       ∧ (∀ stmt, stream_closed (stream (tx s)) = false →
            let s' := step s (Invoke (Execute stmt)) in
            tx s' = tx s
            ∧ tasks s' !! ncalls s =
                Some (ExecuteStarted p (_applySqlCache (stmtToHrana stmt)))))
  ∧ (∀ id p hranaStmt, tasks s !! id = Some (ExecuteStarted p hranaStmt) →
       started (tx s) = Some p
       ∧ (startedPromise (replies s) p = None → step s (Resume id) = s)
       ∧ (startedPromise (replies s) p = Some (Fulfilled ()) →
            sent (stream (tx (step s (Resume id)))) =
              sent (stream (tx s)) ++ [ReqQuery hranaStmt])).
Proof.
  intros s. pose proof (run_inv evs) as Hinv. fold s in Hinv.
  destruct (inv_begins s Hinv) as [Hb Hn].
  split; [|split; [|split; [|split]]].
  - rewrite Hb. destruct (started (tx s)); lia.
  - rewrite Hn. destruct (started (tx s)); lia.
  - intros H. split; [by rewrite Hb, H|].
    intros stmt Hopen. simpl. unfold execute. rewrite Hopen, H. simpl.
    split; [done|]. rewrite beginsSent_snoc, Hb, H. reflexivity.
  - intros p Hp. split; [|split].
    + intros evs'. by apply run_started.
    + intros o evs'. apply run_startedPromise.
    + intros stmt Hopen. simpl. unfold execute. rewrite Hopen, Hp. simpl.
      split; [done|]. apply lookup_insert_eq.
  - intros id p hranaStmt Htask. split; [|split].
    + by apply (inv_tasks s Hinv id (ExecuteStarted p hranaStmt)).
    + intros Hpend. simpl. by rewrite Htask; simpl; rewrite Hpend.
    + intros Hful. simpl. rewrite Htask. simpl. by rewrite Hful.
Qed.

(** C8, amended. When the BEGIN of a transaction has failed with [e],
    every [execute()] still waiting for it fails with [e] as mapped by
    [mapHranaError]; once the call that sent BEGIN has been resumed the
    transaction is closed, and stays so; no COMMIT is ever sent; a
    [commit()] made on the closed transaction fails with
    [TRANSACTION_CLOSED] and sends nothing, and one that was already
    waiting for BEGIN fails with [e], mapped, and sends nothing. *)
Theorem begin_failure (evs : list Event) (p : StartedPromise) (e : Thrown) :
  let s := run init evs in
  started (tx s) = Some p →
  startedPromise (replies s) p = Some (Rejected e) →
  (∀ id task, tasks s !! id = Some task → executeAwaitsStarted task = true →
     results (step s (Resume id)) !! id = Some (Rejected (mapHranaError e))
     ∧ carries (mapHranaError e) e)
  ∧ ((∀ id rows, tasks s !! id ≠ Some (ExecuteBegin p rows)) →
       closed (tx s) = true ∧ stream_closed (stream (tx s)) = true)
  ∧ (∀ evs', closed (tx s) = true → closed (tx (run s evs')) = true)
  ∧ (∀ evs', ReqRun "COMMIT" ∉ sent (stream (tx (run s evs'))))
  ∧ (closed (tx s) = true →
       let s' := step s (Invoke Commit) in
       results s' !! ncalls s = Some (Rejected commitClosed)
       ∧ sent (stream (tx s')) = sent (stream (tx s)))
  ∧ (∀ id p', tasks s !! id = Some (CommitStarted p') →
       let s' := step s (Resume id) in
       results s' !! id = Some (Rejected (mapHranaError e))
       ∧ sent (stream (tx s')) = sent (stream (tx s))).
Proof.
  intros s Hp Hrej. pose proof (run_inv evs) as Hinv. fold s in Hinv.
  split; [|split; [|split; [|split; [|split]]]].
  - intros id task Htask Hex. split; [|apply mapHranaError_carries].
    assert (awaitsStarted task = Some p) as Hsame.
    { destruct task as [p' ?|p' ?| | | |]; try done;
        (assert (started (tx s) = Some p') as Hp'
           by (eapply (inv_tasks s Hinv id); [exact Htask|done]));
        simpl; congruence. }
    simpl. rewrite Htask.
    destruct task; simpl in *; simplify_eq; rewrite Hrej; simpl; apply lookup_insert_eq.
  - intros Hnone.
    destruct (inv_failed s Hinv p Hp) as [(id & rows & Hid)|[Hful|Hcl]].
    + by destruct (Hnone id rows).
    + congruence.
    + exact Hcl.
  - intros evs'. apply (run_preserves (λ s, closed (tx s) = true)).
    intros s' ev. apply step_released.
  - intros evs' Hin.
    assert (Inv (run s evs')) as Hinv'.
    { subst s. rewrite <- run_app. apply run_inv. }
    destruct (inv_commit _ Hinv' Hin) as (p' & Hp' & Hful).
    rewrite (run_started evs' s p Hp) in Hp'. injection Hp' as <-.
    rewrite (run_startedPromise evs' s p _ Hrej) in Hful. done.
  - intros Hcl. simpl. unfold commit.
    rewrite (inv_released s Hinv Hcl). simpl.
    split; [apply lookup_insert_eq|done].
  - intros id p' Htask.
    assert (started (tx s) = Some p') as Hp'
      by (by apply (inv_tasks s Hinv id (CommitStarted p'))).
    assert (p' = p) as -> by congruence.
    simpl. rewrite Htask. simpl. rewrite Hrej. simpl.
    split; [apply lookup_insert_eq|done].
Qed.

(** ** More on the reachable states *)

Lemma hasBegun_step (s : Sys) (ev : Event) : hasBegun s → hasBegun (step s ev).
Proof.
  intros (p & Hp & Hf). exists p.
  split; [by apply step_started|by apply step_startedPromise].
Qed.

(** What one event adds to the requests sent, and when. *)
Lemma step_sent_cases (s : Sys) (ev : Event) :
  Inv s →
  sent (stream (tx (step s ev))) = sent (stream (tx s))
  ∨ ∃ r, sent (stream (tx (step s ev))) = sent (stream (tx s)) ++ [r]
         ∧ ((∃ q, r = beginBatch q ∧ started (tx s) = None
                  ∧ started (tx (step s ev))
                    = Some (mkStarted (length (sent (stream (tx s)))) 0))
            ∨ (isRollback r = true ∧ stream_closed (stream (tx s)) = false
               ∧ is_Some (started (tx s))
               ∧ stream_closed (stream (tx (step s ev))) = true)
            ∨ (hasBegun s ∧ (isQuery r = true ∨ isCommit r = true))).
Proof.
  intros Hinv.
  destruct ev as [[]| | |id|]; phases; auto; right; eexists; (split; [reflexivity|]).
  - left. eauto.
  - right; left. eauto.
  - right; right. split; [|by left].
    match goal with
    | Ht : tasks s !! id = Some (ExecuteStarted ?p ?h),
      Hf : startedPromise (replies s) ?p = Some (Fulfilled ?a) |- _ =>
      exists p; destruct a; split; [|exact Hf];
      by apply (inv_tasks s Hinv id (ExecuteStarted p h))
    end.
  - right; right. split; [|by right].
    match goal with
    | Ht : tasks s !! id = Some (CommitStarted ?p),
      Hf : startedPromise (replies s) ?p = Some (Fulfilled ?a) |- _ =>
      exists p; destruct a; split; [|exact Hf];
      by apply (inv_tasks s Hinv id (CommitStarted p))
    end.
Qed.

Lemma step_answered (s : Sys) (ev : Event) (req : nat) :
  is_Some (batchReplies (replies (step s ev)) !! req)
  ∨ is_Some (stmtReplies (replies (step s ev)) !! req) →
  (is_Some (batchReplies (replies s) !! req) ∨ is_Some (stmtReplies (replies s) !! req))
  ∨ req < length (sent (stream (tx s))).
Proof.
  intros H.
  destruct ev as [[]|r ?|r ?| |]; phases; auto;
    (destruct (decide (r = req)) as [->|Hne];
     [right; by eapply lookup_lt_Some
     |left; by rewrite lookup_insert_ne in H]).
Qed.

Lemma rollbacks_snoc (l : list Request) (r : Request) :
  length (filter (λ r, isRollback r = true) (l ++ [r])) =
  length (filter (λ r, isRollback r = true) l) + (if isRollback r then 1 else 0).
Proof.
  rewrite filter_app, length_app. f_equal.
  rewrite filter_cons, filter_nil. destruct (isRollback r) eqn:H; by case_decide.
Qed.

Lemma init_inv2 : Inv2 init.
Proof.
  split; simpl.
  - done.
  - intros i r H. by rewrite lookup_nil in H.
  - split; [lia|]. intros H. lia.
  - intros req [[x H]|[x H]]; by rewrite lookup_empty in H.
Qed.

Lemma step_inv2 (s : Sys) (ev : Event) : Inv s → Inv2 s → Inv2 (step s ev).
Proof.
  intros Hinv [Hfirst Hafter [Hrb Hrc] Hans].
  pose proof (step_sent_cases s ev Hinv) as Hsent.
  split.
  - destruct (started (tx s)) as [p|] eqn:Hs.
    + rewrite (step_started s ev p Hs). destruct Hfirst as [-> [q Hq]].
      split; [done|]. exists q.
      destruct Hsent as [->|(r & -> & _)]; [done|].
      rewrite lookup_app_l; [done|]. by eapply lookup_lt_Some.
    + destruct Hsent as [Heq|(r & Heq & [(q & -> & _ & Hst)|[(_ & _ & [x Hx] & _)|[(p & Hp & _) _]]])];
        try congruence.
      * rewrite Heq, Hfirst.
        destruct (started (tx (step s ev))) as [p|] eqn:Hs'; [|done].
        exfalso. clear Hafter Hrb Hrc Hans Hinv.
        destruct ev as [[]| | | |]; phases; try congruence.
        apply (f_equal length) in Heq. rewrite length_app in Heq. simpl in Heq. lia.
      * rewrite Hst, Heq, Hfirst. simpl. eauto.
  - intros i r Hi Hpos.
    destruct Hsent as [Heq|(r' & Heq & Hcase)]; rewrite Heq in Hi.
    + destruct (Hafter i r Hi Hpos) as [?|[Hb ?]]; [by left|].
      right. split; [by apply hasBegun_step|done].
    + apply lookup_app_Some in Hi as [Hi|[Hge Hi]].
      * destruct (Hafter i r Hi Hpos) as [?|[Hb ?]]; [by left|].
        right. split; [by apply hasBegun_step|done].
      * apply list_lookup_singleton_Some in Hi as [Hz <-].
        destruct Hcase as [(q & -> & Hnone & _)|[(Hr & _)|[Hb Hk]]].
        -- rewrite Hnone in Hfirst. rewrite Hfirst in Hge, Hz. simpl in Hge, Hz. lia.
        -- by left.
        -- right. split; [by apply hasBegun_step|done].
  - destruct Hsent as [Heq|(r & Heq & Hcase)]; rewrite Heq.
    + split; [done|]. intros Hpos. destruct (Hrc Hpos) as [Hcl [p Hp]].
      split; [by apply step_stream_closed|]. exists p. by apply step_started.
    + rewrite rollbacks_snoc.
      destruct Hcase as [(q & -> & Hnone & Hst)|[(Hr & Hopen & [p Hp] & Hcl)|[[p [Hp Hf]] Hk]]].
      * simpl. rewrite Nat.add_0_r. split; [done|]. intros Hpos.
        destruct (Hrc Hpos) as [_ [p Hp]]. congruence.
      * rewrite Hr.
        assert (length (filter (λ r, isRollback r = true) (sent (stream (tx s)))) = 0) as ->.
        { destruct (length (filter (λ r, isRollback r = true) (sent (stream (tx s)))))
            eqn:Hl; [done|].
          destruct Hrc as [Hcl' _]; [lia|congruence]. }
        split; [simpl; lia|]. intros _. split; [done|].
        exists p. by apply step_started.
      * assert (isRollback r = false) as ->.
        { destruct r as [| |sql]; simpl in *; try done.
          destruct Hk as [Hk|Hk]; [done|].
          apply bool_decide_eq_true in Hk as ->. done. }
        rewrite Nat.add_0_r. split; [done|]. intros Hpos.
        destruct (Hrc Hpos) as [Hcl _].
        split; [by apply step_stream_closed|]. exists p. by apply step_started.
  - intros req H.
    assert (req < length (sent (stream (tx s)))) as Hlt.
    { destruct (step_answered s ev req H) as [H'|H']; [by apply Hans|done]. }
    destruct Hsent as [->|(r & -> & _)]; [done|].
    rewrite length_app. lia.
Qed.

Lemma run_inv2 (evs : list Event) : Inv (run init evs) ∧ Inv2 (run init evs).
Proof.
  apply (run_preserves (λ s, Inv s ∧ Inv2 s)).
  - intros s ev [H1 H2]. split; [by apply step_inv|by apply step_inv2].
  - split; [apply init_inv|apply init_inv2].
Qed.

Lemma answerStmt_fresh (s : Sys) (req : nat) (r : Request) (reply : Settled RowsResult) :
  sent (stream (tx s)) !! req = Some r →
  isBatch r = false →
  stmtReplies (replies s) !! req = None →
  answerStmt s req reply =
    mkSys (tx s)
      (mkReplies (batchReplies (replies s)) (<[req := reply]> (stmtReplies (replies s))))
      (tasks s) (results s) (ncalls s).
Proof.
  intros Hr Hb Hn. unfold answerStmt. rewrite Hr, Hn. by destruct r.
Qed.

Lemma unanswered (s : Sys) :
  Inv2 s → stmtReplies (replies s) !! length (sent (stream (tx s))) = None.
Proof.
  intros H2. destruct (stmtReplies (replies s) !! length (sent (stream (tx s)))) eqn:H; [|done].
  assert (length (sent (stream (tx s))) < length (sent (stream (tx s)))); [|lia].
  apply (inv_answered s H2). right. eauto.
Qed.

Lemma step_results_ids (s : Sys) (ev : Event) :
  Inv s →
  (∀ id, is_Some (results s !! id) → id < ncalls s) →
  ∀ id, is_Some (results (step s ev) !! id) → id < ncalls (step s ev).
Proof.
  intros Hinv H id. pose proof (inv_ids s Hinv) as Hids.
  destruct ev as [c| | |id'|]; simpl.
  - unfold proceed. destruct (invoke (tx s) c) as [t [task|r]]; simpl.
    + intros Hi. apply H in Hi. lia.
    + destruct (decide (id = ncalls s)) as [->|Hne]; [lia|].
      rewrite lookup_insert_ne by done. intros Hi. apply H in Hi. lia.
  - unfold answerBatch. repeat case_match; simpl; apply H.
  - unfold answerStmt. repeat case_match; simpl; apply H.
  - destruct (tasks s !! id') as [task|] eqn:Ht; [|apply H].
    destruct (resume (replies s) (tx s) task) as [[t [task'|r]]|]; simpl; [apply H| |apply H].
    destruct (decide (id = id')) as [->|Hne].
    + intros _. apply Hids. by rewrite Ht.
    + rewrite lookup_insert_ne by done. apply H.
  - apply H.
Qed.

Lemma run_results_ids (evs : list Event) (id : nat) :
  is_Some (results (run init evs) !! id) → id < ncalls (run init evs).
Proof.
  assert (Inv (run init evs) ∧ ∀ id, is_Some (results (run init evs) !! id)
                                      → id < ncalls (run init evs)) as [_ H]; [|apply H].
  apply (run_preserves (λ s, Inv s ∧ ∀ id, is_Some (results s !! id) → id < ncalls s)).
  - intros s ev [Hinv H]. split; [by apply step_inv|by apply step_results_ids].
  - split; [apply init_inv|]. intros i [x Hx]. simpl in Hx. by rewrite lookup_empty in Hx.
Qed.

Lemma step_ncalls (s : Sys) (ev : Event) : ncalls s ≤ ncalls (step s ev).
Proof.
  destruct ev as [c| | |id'|]; simpl.
  - unfold proceed. destruct (invoke (tx s) c) as [t [task|r]]; simpl; lia.
  - unfold answerBatch. repeat case_match; simpl; lia.
  - unfold answerStmt. repeat case_match; simpl; lia.
  - destruct (tasks s !! id') as [task|]; [|lia].
    destruct (resume (replies s) (tx s) task) as [[t [task'|r]]|]; simpl; lia.
  - lia.
Qed.

Lemma answerBatch_same (s : Sys) (req : nat) (reply : BatchReply) :
  tx (answerBatch s req reply) = tx s
  ∧ tasks (answerBatch s req reply) = tasks s
  ∧ results (answerBatch s req reply) = results s
  ∧ ncalls (answerBatch s req reply) = ncalls s.
Proof. unfold answerBatch. by repeat case_match. Qed.

Lemma answerStmt_same (s : Sys) (req : nat) (reply : Settled RowsResult) :
  tx (answerStmt s req reply) = tx s
  ∧ tasks (answerStmt s req reply) = tasks s
  ∧ results (answerStmt s req reply) = results s
  ∧ ncalls (answerStmt s req reply) = ncalls s.
Proof. unfold answerStmt. by repeat case_match. Qed.

Lemma step_StmtAnswered_tasks (s : Sys) (req : nat) (reply : Settled RowsResult) :
  tasks (step s (StmtAnswered req reply)) = tasks s.
Proof. apply answerStmt_same. Qed.

(** The call keeps its place whatever else happens. *)
Lemma step_finishes (s : Sys) (ev : Event) (id : nat) :
  id < ncalls s → finishes s id → finishes (step s ev) id.
Proof.
  intros Hid H. unfold finishes in *.
  destruct (step_sent s ev) as [l Hl].
  assert (∀ pr sql, sent (stream (tx s)) !! pr = Some (ReqRun sql) →
                    sent (stream (tx (step s ev))) !! pr = Some (ReqRun sql)) as Hsent.
  { intros pr sql Hpr. rewrite Hl. by apply lookup_app_l_Some. }
  assert (closed (tx s) = true → closed (tx (step s ev)) = true) as Hc
    by apply step_released.
  assert (stream_closed (stream (tx s)) = true
          → stream_closed (stream (tx (step s ev))) = true) as Hsc
    by apply step_stream_closed.
  destruct ev as [c| | |id'|].
  - simpl in *. unfold proceed in *.
    destruct (invoke (tx s) c) as [t [task|r]]; simpl in *;
      rewrite ?lookup_insert_ne, ?lookup_delete_ne by lia.
    + destruct (tasks s !! id) as [[]|]; try done;
        [destruct H as [? [sql ?]]; eauto..|destruct H as (? & ? & ?); eauto].
    + destruct (tasks s !! id) as [[]|]; try done;
        [destruct H as [? [sql ?]]; eauto..|destruct H as (? & ? & ?); eauto].
  - simpl. by destruct (answerBatch_same s req reply) as (-> & -> & -> & _).
  - simpl. by destruct (answerStmt_same s req reply) as (-> & -> & -> & _).
  - destruct (decide (id' = id)) as [->|Hne].
    + clear Hsent Hc Hsc Hl. simpl.
      destruct (tasks s !! id) as [task|] eqn:Ht; [|by rewrite Ht].
      destruct task; try done; simpl.
      * destruct (startedPromise (replies s) p) as [[]|]; simpl.
        -- rewrite lookup_insert_eq. split; [done|]. exists "COMMIT".
           apply list_lookup_middle. done.
        -- rewrite lookup_delete_eq, lookup_insert_eq. eauto.
        -- by rewrite Ht.
      * destruct H as [Hr Hs].
        destruct (runPromise (replies s) promise) as [[]|]; simpl.
        -- rewrite lookup_delete_eq, lookup_insert_eq. eauto.
        -- rewrite lookup_delete_eq, lookup_insert_eq. eauto.
        -- by rewrite Ht.
      * destruct H as [Hr Hs].
        destruct (runPromise (replies s) promise) as [[]|]; simpl.
        -- rewrite lookup_delete_eq, lookup_insert_eq. eauto.
        -- rewrite lookup_delete_eq, lookup_insert_eq. eauto.
        -- by rewrite Ht.
    + simpl in *. destruct (tasks s !! id') as [task'|]; [|done].
      destruct (resume (replies s) (tx s) task') as [[t [task''|r]]|]; [| |done];
        simpl in *; rewrite ?lookup_insert_ne, ?lookup_delete_ne by done.
      * destruct (tasks s !! id) as [[]|]; try done;
          [destruct H as [? [sql ?]]; eauto..|destruct H as (? & ? & ?); eauto].
      * destruct (tasks s !! id) as [[]|]; try done;
          [destruct H as [? [sql ?]]; eauto..|destruct H as (? & ? & ?); eauto].
  - simpl in *. destruct (tasks s !! id) as [[]|]; try done;
      [destruct H as [? [sql ?]]; eauto..|destruct H as (? & ? & ?); eauto].
Qed.

Lemma run_finishes (evs : list Event) (s : Sys) (id : nat) :
  id < ncalls s → finishes s id → id < ncalls (run s evs) ∧ finishes (run s evs) id.
Proof.
  intros Hid H.
  apply (run_preserves (λ s, id < ncalls s ∧ finishes s id)); [|done].
  intros s' ev [Hid' H']. split; [|by apply step_finishes].
  pose proof (step_ncalls s' ev). lia.
Qed.

(** Answers settle the promises of the requests that were sent. *)
Lemma answerBatch_replies (s : Sys) (reply : BatchReply) (p : StartedPromise) :
  isBatch <$> sent (stream (tx s)) !! batchReq p = Some true →
  is_Some (startedPromise (replies (answerBatch s (batchReq p) reply)) p).
Proof.
  intros Hb.
  assert (is_Some (batchReplies (replies (answerBatch s (batchReq p) reply)) !! batchReq p))
    as [rep Hrep].
  { unfold answerBatch.
    destruct (sent (stream (tx s)) !! batchReq p) as [[steps|stmt|sql]|]; try done.
    destruct (batchReplies (replies s) !! batchReq p) as [rep|] eqn:Hr; simpl.
    - rewrite Hr. eauto.
    - rewrite lookup_insert_eq. eauto. }
  unfold startedPromise, BatchReply in *. rewrite Hrep.
  destruct rep as [outs|e]; [|by eauto].
  destruct (stepPromise outs (beginPromise p)); eauto.
Qed.

Lemma answerStmt_replies (s : Sys) (req : nat) (reply : Settled RowsResult) (sql : string) :
  sent (stream (tx s)) !! req = Some (ReqRun sql) →
  is_Some (runPromise (replies (answerStmt s req reply)) req).
Proof.
  intros Hs.
  assert (is_Some (stmtReplies (replies (answerStmt s req reply)) !! req)) as [rep Hrep].
  { unfold answerStmt. rewrite Hs.
    destruct (stmtReplies (replies s) !! req) as [rep|] eqn:Hr; simpl.
    - rewrite Hr. eauto.
    - rewrite lookup_insert_eq. eauto. }
  unfold runPromise. rewrite Hrep. destruct rep; eauto.
Qed.

(** A settled call has no task left, and none comes back. *)
Lemma step_task_none (s : Sys) (ev : Event) (id : nat) :
  (∀ c, ev ≠ Invoke c) → tasks s !! id = None → tasks (step s ev) !! id = None.
Proof.
  intros Hev Hn. destruct ev as [c| | |id'|]; simpl.
  - by destruct (Hev c).
  - by destruct (answerBatch_same s req reply) as (_ & -> & _).
  - by destruct (answerStmt_same s req reply) as (_ & -> & _).
  - destruct (tasks s !! id') as [task|] eqn:Ht; [|done].
    assert (id ≠ id') by congruence.
    destruct (resume (replies s) (tx s) task) as [[t [task'|r]]|]; simpl; [| |done].
    + by rewrite lookup_insert_ne.
    + by rewrite lookup_delete_ne.
  - done.
Qed.

(** The last phase: once COMMIT or ROLLBACK is answered the call settles. *)
Lemma resume_run (s : Sys) (id promise : nat) :
  tasks s !! id = Some (CommitRun promise) ∨ tasks s !! id = Some (RollbackRun promise) →
  is_Some (runPromise (replies s) promise) →
  tasks (step s (Resume id)) !! id = None.
Proof.
  intros Ht [o Ho]. simpl.
  destruct Ht as [-> | ->]; simpl; rewrite Ho; destruct o; simpl; apply lookup_delete_eq.
Qed.

(** The phase of [commit()] after BEGIN: it settles, or sends COMMIT and
    waits for its answer. *)
Lemma resume_started (s : Sys) (id : nat) (p : StartedPromise) :
  tasks s !! id = Some (CommitStarted p) →
  is_Some (startedPromise (replies s) p) →
  tasks (step s (Resume id)) !! id = None
  ∨ (tasks (step s (Resume id)) !! id = Some (CommitRun (length (sent (stream (tx s)))))
     ∧ sent (stream (tx (step s (Resume id)))) = sent (stream (tx s)) ++ [ReqRun "COMMIT"]).
Proof.
  intros Ht [o Ho]. simpl. rewrite Ht. simpl. rewrite Ho. destruct o; simpl.
  - right. split; [apply lookup_insert_eq|done].
  - left. apply lookup_delete_eq.
Qed.

Lemma finishes_settles (s : Sys) (id : nat) (b : BatchReply) (r : Settled RowsResult) :
  Inv s → Inv2 s → finishes s id →
  tasks (run s [BatchAnswered 0 b; Resume id; StmtAnswered (runRequest s id) r; Resume id])
    !! id = None.
Proof.
  intros Hinv H2 Hf.
  change (run s [BatchAnswered 0 b; Resume id; StmtAnswered (runRequest s id) r; Resume id])
    with (step (step (step (step s (BatchAnswered 0 b)) (Resume id))
                 (StmtAnswered (runRequest s id) r)) (Resume id)).
  set (s1 := step s (BatchAnswered 0 b)).
  destruct (answerBatch_same s 0 b) as (Htx1 & Htk1 & _ & _).
  fold (step s (BatchAnswered 0 b)) in Htx1, Htk1. fold s1 in Htx1, Htk1.
  unfold finishes, runRequest in *.
  destruct (tasks s !! id) as [task|] eqn:Ht.
  2:{ do 4 (apply step_task_none; [done|]). exact Ht. }
  destruct task as [| | |p|promise|promise]; try done.
  - (* waiting for BEGIN *)
    pose proof (inv_tasks s Hinv id _ p Ht eq_refl) as Hp.
    pose proof (inv_first s H2) as Hfirst. rewrite Hp in Hfirst.
    destruct Hfirst as [-> [q Hq]].
    assert (is_Some (startedPromise (replies s1) (mkStarted 0 0))) as Hsp.
    { apply (answerBatch_replies s b (mkStarted 0 0)). simpl. by rewrite Hq. }
    destruct (resume_started s1 id (mkStarted 0 0)) as [Hn|[Hrun Hsent]];
      [by rewrite Htk1|done| |].
    + do 2 (apply step_task_none; [done|]). exact Hn.
    + rewrite Htx1 in Hrun, Hsent.
      apply (resume_run _ id (length (sent (stream (tx s))))).
      * left. by rewrite step_StmtAnswered_tasks.
      * apply (answerStmt_replies _ _ _ "COMMIT"). rewrite Hsent.
        by apply list_lookup_middle.
  - (* waiting for the answer to COMMIT *)
    destruct Hf as [_ [sql Hsql]].
    destruct (runPromise (replies s1) promise) as [o|] eqn:Ho.
    + assert (tasks (step s1 (Resume id)) !! id = None) as Hn.
      { apply (resume_run _ id promise); [left; by rewrite Htk1|by rewrite Ho]. }
      do 2 (apply step_task_none; [done|]). exact Hn.
    + assert (step s1 (Resume id) = s1) as ->.
      { simpl. rewrite Htk1, Ht. simpl. by rewrite Ho. }
      apply (resume_run _ id promise).
      * left. by rewrite step_StmtAnswered_tasks, Htk1.
      * apply (answerStmt_replies _ _ _ sql). by rewrite Htx1.
  - (* waiting for the answer to ROLLBACK *)
    destruct Hf as [_ [sql Hsql]].
    destruct (runPromise (replies s1) promise) as [o|] eqn:Ho.
    + assert (tasks (step s1 (Resume id)) !! id = None) as Hn.
      { apply (resume_run _ id promise); [right; by rewrite Htk1|by rewrite Ho]. }
      do 2 (apply step_task_none; [done|]). exact Hn.
    + assert (step s1 (Resume id) = s1) as ->.
      { simpl. rewrite Htk1, Ht. simpl. by rewrite Ho. }
      apply (resume_run _ id promise).
      * right. by rewrite step_StmtAnswered_tasks, Htk1.
      * apply (answerStmt_replies _ _ _ sql). by rewrite Htx1.
Qed.

(** C7. Every [commit()] and [rollback()] call terminates with the
    transaction closed. Made in any state the coordinator can reach, and
    whatever else happens afterwards, the call is at every moment either
    settled, with the transaction and its stream closed, or suspended on
    BEGIN or on the answer to the COMMIT or ROLLBACK it has sent; whenever
    it has settled, by success, by failure or by an early return, the
    transaction is closed. It terminates: once BEGIN and its COMMIT or
    ROLLBACK are answered, in whatever way, and the call is resumed, at most
    twice, it has settled and the transaction is closed. On a closed stream
    and on a transaction that never started both calls end at once, having
    closed it, and a closed transaction stays closed. *)
Theorem commit_rollback_close (evs evs' : list Event) (c : Call)
    (b : BatchReply) (r : Settled RowsResult) :
  c = Commit ∨ c = Rollback →
  let s := run init evs in
  let id := ncalls s in
  let s' := run (step s (Invoke c)) evs' in
  let s'' :=
    run s' [BatchAnswered 0 b; Resume id; StmtAnswered (runRequest s' id) r; Resume id] in
  finishes s' id
  ∧ (is_Some (results s' !! id) →
       closed (tx s') = true ∧ stream_closed (stream (tx s')) = true)
  ∧ (results s' !! id = None →
       ∃ task, tasks s' !! id = Some task ∧ finishing task = true)
  ∧ is_Some (results s'' !! id)
  ∧ closed (tx s'') = true
  ∧ stream_closed (stream (tx s'')) = true
  ∧ (∀ t, stream_closed (stream t) = true ∨ started t = None →
       (∃ res, commit t = (close t, inr res))
       ∧ rollback t = (close t, inr (Fulfilled RetVoid)))
  ∧ (∀ more, closed (tx s') = true → closed (tx (run s' more)) = true).
Proof.
  intros Hc s id s' s''.
  destruct (run_inv2 evs) as [Hinv H2]. fold s in Hinv, H2.
  assert (results s !! id = None) as Hfresh.
  { destruct (results s !! id) as [res|] eqn:Hr; [|done]. exfalso.
    assert (id < ncalls s) as Hlt by (apply run_results_ids; eauto).
    unfold id in Hlt. lia. }
  assert (id < ncalls (step s (Invoke c)) ∧ finishes (step s (Invoke c)) id) as [Hid0 Hf0].
  { split; [simpl; unfold proceed; destruct (invoke (tx s) c) as [t [task|res]]; simpl; lia|].
    unfold finishes. simpl. fold id.
    destruct Hc as [-> | ->]; simpl.
    - unfold commit. destruct (stream_closed (stream (tx s))); simpl.
      { rewrite lookup_delete_eq, lookup_insert_eq. eauto. }
      destruct (started (tx s)); simpl.
      + by rewrite lookup_insert_eq.
      + rewrite lookup_delete_eq, lookup_insert_eq. eauto.
    - unfold rollback. destruct (stream_closed (stream (tx s))); simpl.
      { rewrite lookup_delete_eq, lookup_insert_eq. eauto. }
      destruct (started (tx s)); simpl.
      + rewrite lookup_insert_eq. split; [done|]. exists "ROLLBACK".
        by apply list_lookup_middle.
      + rewrite lookup_delete_eq, lookup_insert_eq. eauto. }
  destruct (run_finishes evs' _ id Hid0 Hf0) as [Hid' Hf']. fold s' in Hid', Hf'.
  destruct (run_inv2 (evs ++ Invoke c :: evs')) as [Hinv' H2'].
  rewrite run_app in Hinv', H2'. fold s in Hinv', H2'.
  change (run s (Invoke c :: evs')) with s' in Hinv', H2'.
  pose proof (finishes_settles s' id b r Hinv' H2' Hf') as Hnone. fold s'' in Hnone.
  destruct (run_finishes
              [BatchAnswered 0 b; Resume id; StmtAnswered (runRequest s' id) r; Resume id]
              s' id Hid' Hf') as [_ Hf'']. fold s'' in Hf''.
  unfold finishes in Hf''. rewrite Hnone in Hf''. destruct Hf'' as (Hres & Hcl & Hscl).
  split; [done|]. split; [|split; [|split; [done|split; [done|split; [done|split]]]]].
  - intros [res Hres']. unfold finishes in Hf'. rewrite Hres' in Hf'.
    destruct (tasks s' !! id) as [[]|]; try done; [by destruct Hf'..|].
    by destruct Hf' as (_ & ? & ?).
  - intros Hres'. unfold finishes in Hf'. rewrite Hres' in Hf'.
    destruct (tasks s' !! id) as [[]|]; try done; eauto.
    by destruct Hf' as [[? ?] _].
  - intros t Ht. unfold commit, rollback.
    destruct (stream_closed (stream t)); [eauto|].
    destruct Ht as [? | ->]; [done|eauto].
  - intros more. apply (run_preserves (λ s, closed (tx s) = true)).
    intros ? ?. apply step_released.
Qed.

(** X1. Once BEGIN has succeeded, [execute(stmt)] on the open transaction
    issues its statement with [stream.query] and nothing else; when the
    answer comes the call returns the result set of the rows, or fails
    with the statement's error as mapped by [mapHranaError]. Either way
    the transaction is left open and started: a failed statement does not
    close it. *)
Theorem execute_on_started (evs : list Event) (stmt : InStatement)
    (reply : Settled RowsResult) :
  let s := run init evs in
  hasBegun s →
  stream_closed (stream (tx s)) = false →
  let id := ncalls s in
  let req := length (sent (stream (tx s))) in
  let s' := run s [Invoke (Execute stmt); Resume id; StmtAnswered req reply; Resume id] in
  sent (stream (tx s')) =
    sent (stream (tx s)) ++ [ReqQuery (_applySqlCache (stmtToHrana stmt))]
  ∧ results s' !! id =
      Some (match reply with
            | Fulfilled hranaRows => Fulfilled (RetResultSet (resultSetFromHrana hranaRows))
            | Rejected e => Rejected (mapHranaError e)
            end)
  ∧ stream_closed (stream (tx s')) = false
  ∧ closed (tx s') = closed (tx s)
  ∧ started (tx s') = started (tx s).
Proof.
  intros s (p & Hp & Hf) Hopen id req s'.
  destruct (run_inv2 evs) as [Hinv H2]. fold s in Hinv, H2.
  pose proof (unanswered s H2) as Hfresh. fold req in Hfresh.
  subst s'. simpl. unfold execute. rewrite Hopen, Hp. simpl.
  rewrite lookup_insert_eq. simpl. rewrite Hf. simpl. fold req.
  erewrite answerStmt_fresh; simpl;
    [|apply list_lookup_middle; reflexivity|reflexivity|exact Hfresh].
  rewrite lookup_insert_eq. simpl. rewrite lookup_insert_eq.
  destruct reply; simpl; rewrite lookup_insert_eq; done.
Qed.

(** X2. Once BEGIN has succeeded, [commit()] on the open transaction sends
    COMMIT and closes the stream at once, before the answer; when the
    answer comes the call returns, or fails with the error of COMMIT
    mapped once by [mapHranaError], and in both cases the transaction is
    closed. *)
Theorem commit_on_started (evs : list Event) (reply : Settled RowsResult) :
  let s := run init evs in
  hasBegun s →
  stream_closed (stream (tx s)) = false →
  let id := ncalls s in
  let req := length (sent (stream (tx s))) in
  let s1 := run s [Invoke Commit; Resume id] in
  let s' := run s1 [StmtAnswered req reply; Resume id] in
  sent (stream (tx s1)) = sent (stream (tx s)) ++ [ReqRun "COMMIT"]
  ∧ stream_closed (stream (tx s1)) = true
  ∧ closed (tx s1) = closed (tx s)
  ∧ results s1 !! id = results s !! id
  ∧ sent (stream (tx s')) = sent (stream (tx s1))
  ∧ results s' !! id =
      Some (match reply with
            | Fulfilled _ => Fulfilled RetVoid
            | Rejected e => Rejected (mapHranaError e)
            end)
  ∧ closed (tx s') = true.
Proof.
  intros s (p & Hp & Hf) Hopen id req s1 s'.
  destruct (run_inv2 evs) as [Hinv H2]. fold s in Hinv, H2.
  pose proof (unanswered s H2) as Hfresh. fold req in Hfresh.
  subst s' s1. simpl. unfold commit. rewrite Hopen, Hp. simpl.
  rewrite lookup_insert_eq. simpl. rewrite Hf. simpl. fold req.
  erewrite answerStmt_fresh; simpl;
    [|apply list_lookup_middle; reflexivity|reflexivity|exact Hfresh].
  rewrite lookup_insert_eq. simpl. unfold runPromise. simpl. rewrite lookup_insert_eq.
  destruct reply; simpl; rewrite lookup_insert_eq, ?mapHranaError_idem; done.
Qed.

(** X3. [rollback()] on an open transaction whose BEGIN has been sent does
    not wait for BEGIN: whether BEGIN is pending, has succeeded or has
    failed, it sends ROLLBACK and closes the stream at once; when the
    answer comes the call returns, or fails with the error of ROLLBACK
    mapped once by [mapHranaError], and in both cases the transaction is
    closed. *)
Theorem rollback_on_started (evs : list Event) (reply : Settled RowsResult) :
  let s := run init evs in
  is_Some (started (tx s)) →
  stream_closed (stream (tx s)) = false →
  let id := ncalls s in
  let req := length (sent (stream (tx s))) in
  let s1 := step s (Invoke Rollback) in
  let s' := run s1 [StmtAnswered req reply; Resume id] in
  sent (stream (tx s1)) = sent (stream (tx s)) ++ [ReqRun "ROLLBACK"]
  ∧ stream_closed (stream (tx s1)) = true
  ∧ closed (tx s1) = closed (tx s)
  ∧ sent (stream (tx s')) = sent (stream (tx s1))
  ∧ results s' !! id =
      Some (match reply with
            | Fulfilled _ => Fulfilled RetVoid
            | Rejected e => Rejected (mapHranaError e)
            end)
  ∧ closed (tx s') = true.
Proof.
  intros s [p Hp] Hopen id req s1 s'.
  destruct (run_inv2 evs) as [Hinv H2]. fold s in Hinv, H2.
  pose proof (unanswered s H2) as Hfresh. fold req in Hfresh.
  subst s' s1. simpl. unfold rollback. rewrite Hopen, Hp. simpl. fold req.
  erewrite answerStmt_fresh; simpl;
    [|apply list_lookup_middle; reflexivity|reflexivity|exact Hfresh].
  rewrite lookup_insert_eq. simpl. unfold runPromise. simpl. rewrite lookup_insert_eq.
  destruct reply; simpl; rewrite lookup_insert_eq, ?mapHranaError_idem; done.
Qed.

(** X4. Everything is sent after BEGIN: nothing is sent while [#started]
    is unset, the first request is the batch that opens the transaction
    around the first statement, and every later request is a ROLLBACK, or
    a statement or a COMMIT sent once BEGIN has succeeded. *)
Theorem sent_after_begin (evs : list Event) :
  let s := run init evs in
  (started (tx s) = None → sent (stream (tx s)) = [])
  ∧ (∀ i r, sent (stream (tx s)) !! i = Some r →
       (i = 0 ∧ ∃ q, r = beginBatch q)
       ∨ (0 < i ∧ (isRollback r = true
                   ∨ (hasBegun s ∧ (isQuery r = true ∨ isCommit r = true))))).
Proof.
  intros s. destruct (run_inv2 evs) as [Hinv H2]. fold s in Hinv, H2.
  pose proof (inv_first s H2) as Hfirst.
  split.
  - intros Hn. by rewrite Hn in Hfirst.
  - intros [|i] r Hr.
    + left. split; [done|].
      destruct (started (tx s)); [|by rewrite Hfirst in Hr].
      destruct Hfirst as [_ [q Hq]]. exists q. congruence.
    + right. split; [lia|]. apply (inv_after s H2 (S i) r Hr). lia.
Qed.

(** X5. ROLLBACK is sent at most once. Once it has been sent the stream is
    closed: [execute()] and [commit()] then fail with [TRANSACTION_CLOSED],
    another [rollback()] returns, and none of them sends anything. *)
Theorem rollback_sent_once (evs : list Event) :
  let s := run init evs in
  length (filter (λ r, isRollback r = true) (sent (stream (tx s)))) ≤ 1
  ∧ (∀ r, r ∈ sent (stream (tx s)) → isRollback r = true →
       stream_closed (stream (tx s)) = true
       ∧ is_Some (started (tx s))
       ∧ (∀ stmt, results (step s (Invoke (Execute stmt))) !! ncalls s
                  = Some (Rejected executeClosed))
       ∧ results (step s (Invoke Commit)) !! ncalls s = Some (Rejected commitClosed)
       ∧ results (step s (Invoke Rollback)) !! ncalls s = Some (Fulfilled RetVoid)
       ∧ (∀ c, sent (stream (tx (step s (Invoke c)))) = sent (stream (tx s)))).
Proof.
  intros s. destruct (run_inv2 evs) as [Hinv H2]. fold s in Hinv, H2.
  destruct (inv_rollback s H2) as [Hle Hcl].
  split; [done|]. intros r Hin Hr.
  destruct Hcl as [Hcl Hst].
  { assert (r ∈ filter (λ r, isRollback r = true) (sent (stream (tx s)))) as Hf
      by (by apply list_elem_of_filter).
    destruct (filter (λ r, isRollback r = true) (sent (stream (tx s)))); simpl; [|lia].
    by apply elem_of_nil in Hf. }
  split; [done|]. split; [done|].
  simpl. unfold execute, commit, rollback. rewrite Hcl. simpl.
  split; [intros stmt; apply lookup_insert_eq|].
  split; [apply lookup_insert_eq|]. split; [apply lookup_insert_eq|].
  intros [stmt| | |]; simpl; unfold execute, commit, rollback; rewrite ?Hcl; done.
Qed.

(** ** More on the batch runner *)

Lemma conformsFrom_spec (todo : list Step) :
  ∀ (prior outs : list StepOutcome),
    conformsFrom prior todo outs = true →
    length outs = length todo
    ∧ ∀ j st o, todo !! j = Some st → outs !! j = Some o →
        isNotRun o = negb (from_option (evalCond (prior ++ take j outs)) true (condition st)).
Proof.
  induction todo as [|st0 todo IH]; intros prior [|o0 outs] H; simpl in H;
    try discriminate H.
  { split; [done|]. intros j st o Hst. by rewrite lookup_nil in Hst. }
  apply andb_prop in H as [H0 H]. apply bool_decide_eq_true in H0.
  destruct (IH _ _ H) as [Hlen Hpt].
  split; [simpl; lia|].
  intros [|j] st o Hst Ho; simpl in *.
  - injection Hst as <-. injection Ho as <-. by rewrite app_nil_r.
  - rewrite (Hpt j st o Hst Ho). by rewrite <- app_assoc.
Qed.

Lemma evalCond_ok (outs : list StepOutcome) (i : nat) :
  evalCond outs (CondOk i) = true ↔ okAt outs i.
Proof.
  unfold okAt. simpl. destruct (outs !! i) as [[r|e|]|]; split; try done; eauto;
    by intros [r Hr].
Qed.

Lemma okAt_dec (outs : list StepOutcome) (j : nat) : okAt outs j ∨ ¬ okAt outs j.
Proof.
  unfold okAt. destruct (outs !! j) as [[r|e|]|]; eauto; right; by intros [r Hr].
Qed.

Lemma first_not_ok (outs : list StepOutcome) (m : nat) :
  ¬ okAt outs m → ∃ j, j ≤ m ∧ (∀ i, i < j → okAt outs i) ∧ ¬ okAt outs j.
Proof.
  induction m as [m IH] using lt_wf_ind. intros Hm.
  assert ((∀ i, i < m → okAt outs i) ∨ ∃ i, i < m ∧ ¬ okAt outs i) as [Hall|(i & Hi & Hn)].
  { clear IH Hm. induction m as [|m IHm]; [left; intros; lia|].
    destruct IHm as [Hall|(i & Hi & Hn)]; [|right; exists i; split; [lia|done]].
    destruct (okAt_dec outs m) as [Hok|Hn]; [|right; exists m; split; [lia|done]].
    left. intros i Hi. destruct (decide (i = m)) as [->|]; [done|]. apply Hall. lia. }
  - exists m. eauto.
  - destruct (IH i Hi Hn) as (j & Hj & Hbefore & Hnot). exists j. split; [lia|done].
Qed.

Lemma rows_of_ok (outs : list StepOutcome) (b n : nat) :
  (∀ i, i < n → okAt outs (b + i)) →
  ∃ rws : list RowsResult,
    length rws = n ∧ ∀ i r, rws !! i = Some r → outs !! (b + i) = Some (StepOk r).
Proof.
  induction n as [|n IH]; intros Hok.
  - exists []. split; [done|]. intros i r H. by rewrite lookup_nil in H.
  - destruct IH as (rws & Hlen & Hrws); [intros i Hi; apply Hok; lia|].
    destruct (Hok n) as [r Hr]; [lia|].
    exists (rws ++ [r]). split; [rewrite length_app; simpl; lia|].
    intros i r' Hi. apply lookup_app_Some in Hi as [Hi|[Hge Hi]]; [by apply Hrws|].
    apply list_lookup_singleton_Some in Hi as [Hz <-].
    replace (b + i) with (b + n) by lia. done.
Qed.

(** The condition of each step of the batch built on an empty batch. *)
Lemma specSteps_condition (hranaStmts : list Stmt) (j : nat) :
  j ≤ length hranaStmts + 2 →
  ∃ o, specSteps 0 hranaStmts !! j =
         Some (mkStep
                 (if decide (j = 0) then None
                  else if decide (j ≤ length hranaStmts + 1) then Some (CondOk (j - 1))
                  else Some (CondNot (CondOk (length hranaStmts + 1))))
                 o).
Proof.
  intros Hj. unfold specSteps.
  destruct j as [|j]; [eexists; reflexivity|].
  simpl. destruct (decide (j < length hranaStmts)) as [Hlt|Hge].
  - destruct (lookup_lt_is_Some_2 hranaStmts j Hlt) as [stmt Hstmt].
    exists (Query stmt). rewrite lookup_app_l by (by rewrite length_imap).
    rewrite list_lookup_imap, Hstmt. simpl.
    rewrite decide_True by lia. by rewrite Nat.sub_0_r.
  - rewrite lookup_app_r by (rewrite length_imap; lia). rewrite length_imap.
    destruct (decide (j = length hranaStmts)) as [->|Hne].
    + rewrite Nat.sub_diag. simpl. rewrite decide_True by lia.
      rewrite Nat.sub_0_r. eauto.
    + replace (j - length hranaStmts) with 1 by lia. simpl.
      rewrite decide_False by lia. eauto.
Qed.

(** What a conforming answer to the batch built on an empty batch looks
    like: every step has an outcome, BEGIN was run, a later step up to
    COMMIT was run exactly when the step before it succeeded, and ROLLBACK
    was run exactly when COMMIT did not succeed. *)
Lemma conforms_chain (hranaStmts : list Stmt) (outs : list StepOutcome) :
  conforms (executeHranaBatch_build emptyBatch hranaStmts).1 outs = true →
  let n := length hranaStmts in
  (∀ j, j ≤ n + 2 → ∃ o, outs !! j = Some o)
  ∧ (∀ o, outs !! 0 = Some o → isNotRun o = false)
  ∧ (∀ j o, 1 ≤ j ≤ n + 1 → outs !! j = Some o →
       (isNotRun o = true ↔ ¬ okAt outs (j - 1)))
  ∧ (∀ o, outs !! (n + 2) = Some o → (isNotRun o = true ↔ okAt outs (n + 1))).
Proof.
  intros H n. rewrite executeHranaBatch_build_eq in H.
  change (conformsFrom [] (specSteps 0 hranaStmts) outs = true) in H.
  apply conformsFrom_spec in H as [Hlen Hpt].
  assert (length (specSteps 0 hranaStmts) = n + 3) as Hsteps.
  { unfold specSteps. simpl. rewrite length_app, length_imap. simpl. lia. }
  assert (∀ j o, j ≤ n + 2 → outs !! j = Some o →
            isNotRun o = negb (from_option (evalCond (take j outs)) true
              (if decide (j = 0) then None
               else if decide (j ≤ n + 1) then Some (CondOk (j - 1))
               else Some (CondNot (CondOk (n + 1)))))) as Hcond.
  { intros j o Hj Ho. destruct (specSteps_condition hranaStmts j Hj) as [x Hx].
    by rewrite (Hpt j _ o Hx Ho). }
  split; [|split; [|split]].
  - intros j Hj. apply lookup_lt_is_Some_2. lia.
  - intros o Ho. by rewrite (Hcond 0 o) by (lia || done).
  - intros j o Hj Ho. rewrite (Hcond j o) by (lia || done).
    rewrite decide_False by lia. rewrite decide_True by lia. simpl.
    rewrite lookup_take_lt by lia. fold (evalCond outs (CondOk (j - 1))).
    rewrite negb_true_iff, <- not_true_iff_false. by rewrite evalCond_ok.
  - intros o Ho. rewrite (Hcond (n + 2) o) by (lia || done).
    rewrite decide_False by lia. rewrite decide_False by lia. simpl.
    rewrite lookup_take_lt by lia. fold (evalCond outs (CondOk (n + 1))).
    rewrite negb_involutive. by rewrite evalCond_ok.
Qed.

(** X6. When the server answers the batch as the conditions require,
    [executeHranaBatch] returns the result sets of the N statements exactly
    when COMMIT succeeded, and ROLLBACK was then not run. Otherwise it fails
    with the error of the one step, BEGIN, a statement or COMMIT, that
    failed after all the steps before it had succeeded, and ROLLBACK was
    run; the error is never the missing-result [SERVER_ERROR] unless the
    server reported just that. *)
Theorem executeHranaBatch_conforming (hranaStmts : list Stmt) (outs : list StepOutcome) :
  let n := length hranaStmts in
  let result := (executeHranaBatch emptyBatch hranaStmts (Fulfilled outs)).2 in
  conforms (executeHranaBatch_build emptyBatch hranaStmts).1 outs = true →
  (okAt outs (n + 1) →
     outs !! (n + 2) = Some StepNotRun
     ∧ ∃ rws, length rws = n
              ∧ (∀ i r, rws !! i = Some r → outs !! (1 + i) = Some (StepOk r))
              ∧ result = Fulfilled (resultSetFromHrana <$> rws))
  ∧ (¬ okAt outs (n + 1) →
     (∃ o, outs !! (n + 2) = Some o ∧ isNotRun o = false)
     ∧ ∃ j e, j ≤ n + 1
              ∧ outs !! j = Some (StepError e)
              ∧ (∀ i, i < j → okAt outs i)
              ∧ result = Rejected e).
Proof.
  intros n result Hconf.
  destruct (conforms_chain hranaStmts outs Hconf) as (Hall & Hbegin & Hstep & Hrb).
  fold n in Hall, Hstep, Hrb.
  assert (∀ j, 1 ≤ j ≤ n + 1 → okAt outs j → okAt outs (j - 1)) as Hdown.
  { intros j Hj [r Hr]. destruct (okAt_dec outs (j - 1)) as [?|Hn]; [done|].
    apply (Hstep j _ Hj Hr) in Hn. done. }
  subst result. unfold executeHranaBatch.
  rewrite executeHranaBatch_build_eq. simpl. fold n.
  split.
  - intros Hcommit.
    assert (∀ j, j ≤ n + 1 → okAt outs j) as Hok.
    { intros j Hj. replace j with (n + 1 - (n + 1 - j)) by lia.
      generalize (n + 1 - j). intros k. induction k as [|k IH]; [by rewrite Nat.sub_0_r|].
      destruct (decide (k < n + 1)); [|by replace (n + 1 - S k) with (n + 1 - k) by lia].
      replace (n + 1 - S k) with (n + 1 - k - 1) by lia. apply Hdown; [lia|done]. }
    split.
    { destruct (Hall (n + 2)) as [o Ho]; [lia|].
      pose proof (proj2 (Hrb o Ho) Hcommit) as Hnr. by destruct o. }
    destruct (rows_of_ok outs 1 n) as (rws & Hlen & Hrws); [intros i Hi; apply Hok; lia|].
    exists rws. split; [done|]. split; [done|].
    destruct (Hok 0) as [rb Hb]; [lia|]. destruct Hcommit as [rc Hc].
    unfold stepPromise at 1. rewrite Hb.
    rewrite (collect_ok outs (seq 1 n) rws []).
    + unfold stepPromise. replace (S n) with (n + 1) by lia. by rewrite Hc.
    + by rewrite length_seq.
    + intros i p r Hp Hr. apply lookup_seq in Hp as [-> _]. by apply Hrws.
  - intros Hcommit. split.
    { destruct (Hall (n + 2)) as [o Ho]; [lia|]. exists o. split; [done|].
      destruct (isNotRun o) eqn:Hnr; [|done]. by apply (Hrb o Ho) in Hnr. }
    destruct (first_not_ok outs (n + 1) Hcommit) as (j & Hj & Hbefore & Hnot).
    destruct (Hall j) as [o Ho]; [lia|].
    assert (isNotRun o = false) as Hrun.
    { destruct (decide (j = 0)) as [->|Hne]; [by apply Hbegin|].
      destruct (isNotRun o) eqn:Hnr; [|done].
      apply (Hstep j o) in Hnr; [|lia|done]. destruct Hnr. apply Hbefore. lia. }
    destruct o as [r|e|]; [destruct Hnot; by exists r| |done].
    exists j, e. split; [done|]. split; [done|]. split; [done|].
    destruct (decide (j = 0)) as [->|Hne].
    { unfold stepPromise. by rewrite Ho. }
    destruct (Hbefore 0) as [rb Hb]; [lia|].
    unfold stepPromise at 1. rewrite Hb.
    destruct (decide (j = n + 1)) as [->|Hne'].
    + destruct (rows_of_ok outs 1 n) as (rws & Hlen & Hrws);
        [intros i Hi; apply Hbefore; lia|].
      rewrite (collect_ok outs (seq 1 n) rws []).
      * unfold stepPromise. replace (S n) with (n + 1) by lia. by rewrite Ho.
      * by rewrite length_seq.
      * intros i p r Hp Hr. apply lookup_seq in Hp as [-> _]. by apply Hrws.
    + replace (seq 1 n) with (seq 1 (j - 1) ++ j :: seq (S j) (n - j)).
      2:{ replace n with ((j - 1) + S (n - j)) at 2 by lia.
          rewrite seq_app. simpl. do 2 f_equal; [lia|f_equal; lia]. }
      rewrite (collect_failed outs j e); [done|done|].
      intros q Hq. apply Hbefore. apply elem_of_seq in Hq. lia.
Qed.

(** ** More on statements and errors *)

Lemma setName_fresh (key : string) (value : InValue) (l : list (string * InValue)) :
  key ∉ l.*1 → setName key value l = l ++ [(key, value)].
Proof.
  induction l as [|[k v] l IH]; intros Hk; simpl; [done|].
  rewrite fmap_cons in Hk. apply not_elem_of_cons in Hk as [Hne Hk].
  rewrite bool_decide_eq_false_2 by (simpl in Hne; congruence).
  by rewrite IH.
Qed.

Lemma setName_keys (key : string) (value : InValue) (l : list (string * InValue)) :
  NoDup l.*1 →
  NoDup (setName key value l).*1 ∧ ∀ k, k ∈ (setName key value l).*1 ↔ k = key ∨ k ∈ l.*1.
Proof.
  induction l as [|[k0 v0] l IH]; intros Hnd; simpl.
  - split; [apply NoDup_singleton|]. intros k. rewrite list_elem_of_singleton.
    split; [by left|]. intros [?|H]; [done|]. by apply elem_of_nil in H.
  - rewrite fmap_cons in Hnd. apply NoDup_cons in Hnd as [Hni Hnd]. simpl in Hni.
    destruct (bool_decide (k0 = key)) eqn:Hk.
    + apply bool_decide_eq_true in Hk as ->. simpl.
      split; [by apply NoDup_cons|]. intros k. rewrite elem_of_cons. tauto.
    + destruct (IH Hnd) as [Hnd' Hin]. simpl. split.
      * apply NoDup_cons. split; [|done]. rewrite Hin. intros [->|?]; [|done].
        by apply bool_decide_eq_false in Hk.
      * intros k. rewrite !elem_of_cons, Hin. tauto.
Qed.

Lemma bindNames (entries : list (string * InValue)) :
  ∀ (h : Stmt),
    let h' := foldl (λ hranaStmt kv, bindName kv.1 kv.2 hranaStmt) h entries in
    sql h' = sql h
    ∧ args h' = args h
    ∧ (NoDup (namedArgs h).*1 →
       NoDup (namedArgs h').*1
       ∧ ∀ k, k ∈ (namedArgs h').*1 ↔ k ∈ (namedArgs h).*1 ∨ k ∈ entries.*1)
    ∧ (NoDup ((namedArgs h).*1 ++ entries.*1) → namedArgs h' = namedArgs h ++ entries).
Proof.
  clear _applySqlCache.
  induction entries as [|[k v] entries IH]; intros h; simpl.
  - split; [done|]. split; [done|]. split.
    + intros H. split; [done|]. intros k. rewrite elem_of_nil. tauto.
    + intros _. by rewrite app_nil_r.
  - destruct (IH (bindName k v h)) as (Hsql & Hargs & Hkeys & Heq).
    simpl in Hsql, Hargs, Hkeys, Heq |- *.
    split; [done|]. split; [done|]. split.
    + intros Hnd. destruct (setName_keys k v (namedArgs h) Hnd) as [Hnd' Hin].
      destruct (Hkeys Hnd') as [Hnd'' Hin']. split; [done|].
      intros k'. rewrite Hin', Hin, elem_of_cons. tauto.
    + intros Hnd. rewrite Heq.
      * rewrite setName_fresh; [by rewrite <- app_assoc|].
        apply NoDup_app in Hnd as (_ & Hdisj & _). intros Hin.
        apply (Hdisj k Hin). apply elem_of_cons. by left.
      * rewrite setName_fresh.
        -- rewrite fmap_app. simpl. rewrite <- app_assoc. exact Hnd.
        -- apply NoDup_app in Hnd as (_ & Hdisj & _). intros Hin.
           apply (Hdisj k Hin). apply elem_of_cons. by left.
Qed.

(** X7. [stmtToHrana] keeps the text of the statement. A plain text binds
    nothing, an array of arguments is bound by position as it is, and the
    entries of an object are bound by name, each name once: with distinct
    names, as the entries of an object have, the named arguments are the
    entries in their order. *)
Theorem stmtToHrana_bindings (text : string) (values : list InValue)
    (entries : list (string * InValue)) :
  stmtToHrana (SqlText text) = mkStmt text [] []
  ∧ stmtToHrana (SqlArgs text (ArgsArray values)) = mkStmt text values []
  ∧ sql (stmtToHrana (SqlArgs text (ArgsObject entries))) = text
  ∧ args (stmtToHrana (SqlArgs text (ArgsObject entries))) = []
  ∧ NoDup (namedArgs (stmtToHrana (SqlArgs text (ArgsObject entries)))).*1
  ∧ (∀ k, k ∈ (namedArgs (stmtToHrana (SqlArgs text (ArgsObject entries)))).*1
          ↔ k ∈ entries.*1)
  ∧ (NoDup entries.*1 →
     stmtToHrana (SqlArgs text (ArgsObject entries)) = mkStmt text [] entries).
Proof.
  split; [done|]. split; [done|]. simpl.
  destruct (bindNames entries (newStmt text)) as (Hsql & Hargs & Hkeys & Heq).
  simpl in Hsql, Hargs, Hkeys, Heq. destruct (Hkeys (NoDup_nil_2)) as [Hnd Hin].
  split; [done|]. split; [done|]. split; [done|]. split.
  - intros k. rewrite Hin, elem_of_nil. tauto.
  - intros Hnd'. specialize (Heq Hnd').
    destruct (foldl _ _ _) as [s a n]. simpl in Hsql, Hargs, Heq |- *. congruence.
Qed.

(** X8. What [mapHranaError] returns is never a [hrana.ClientError]: it
    leaves exactly the values that are not one unchanged, and mapping a
    mapped error again, as [rollback()] and [commit()] do for the error of
    their statement, changes nothing. *)
Theorem mapHranaError_stable (e : Thrown) :
  instanceof (mapHranaError e) ClientError = false
  ∧ mapHranaError (mapHranaError e) = mapHranaError e
  ∧ (mapHranaError e = e ↔ instanceof e ClientError = false).
Proof.
  split; [|split].
  - unfold mapHranaError. by destruct (instanceof e ClientError) eqn:H.
  - apply mapHranaError_idem.
  - unfold mapHranaError. destruct (instanceof e ClientError) eqn:H; [|done].
    split; [|done]. intros Heq. destruct e; [discriminate Heq|discriminate H].
Qed.

End Coordinator.

Arguments SqlText {InValue} sql.
Arguments SqlArgs {InValue} sql args.
Arguments newStmt {InValue} sql.
Arguments mkStep {InValue} condition op.
Arguments Run {InValue} sql.
Arguments Query {InValue} stmt.
Arguments emptyBatch {InValue}.
Arguments mkRowsResult {Row RowId} columnNames hranaRows_rows affectedRowCount
  hranaRows_lastInsertRowid.
Arguments StepOk {Row RowId} r.
Arguments StepError {Row RowId} e.
Arguments StepNotRun {Row RowId}.
Arguments ReqBatch {InValue} steps.
Arguments ReqQuery {InValue} stmt.
Arguments ReqRun {InValue} sql.
Arguments mkStream {InValue} stream_closed sent.
Arguments mkTx {InValue} stream started released.
Arguments stream {InValue} t.
Arguments started {InValue} t.
Arguments released {InValue} t.
Arguments stream_closed {InValue} s.
Arguments sent {InValue} s.
Arguments close {InValue} t.
Arguments closed {InValue} t.
Arguments newTx {InValue}.
Arguments RetVoid {Row}.
Arguments RetResultSet {Row} rs.
Arguments Execute {InValue} stmt.
Arguments Commit {InValue}.
Arguments Rollback {InValue}.
Arguments Close {InValue}.
Arguments Invoke {Row InValue RowId} c.
Arguments BatchAnswered {Row InValue RowId} req reply.
Arguments StmtAnswered {Row InValue RowId} req reply.
Arguments Resume {Row InValue RowId} call.
Arguments StreamClosed {Row InValue RowId}.
Arguments tx {Row InValue RowId} s.
Arguments replies {Row InValue RowId} s.
Arguments tasks {Row InValue RowId} s.
Arguments results {Row InValue RowId} s.
Arguments ncalls {Row InValue RowId} s.
Arguments init {Row InValue RowId}.
Arguments mkReplies {Row RowId} batchReplies stmtReplies.
Arguments ExecuteBegin {InValue} p rows.
Arguments ExecuteStarted {InValue} p hranaStmt.
Arguments CommitStarted {InValue} p.
Arguments CommitRun {InValue} promise.

(** * Concrete runs

    In what follows rows are lists of integers, bound values are texts, row
    ids are integers converted as they are, and no statement is cached. *)

(** C3, counterexample. Two inserts of which the first violates a
    constraint: the server answers as it must, the outcome of the second
    insert is missing, and the batch fails with the error of the first
    insert, which is not a [SERVER_ERROR] [LibsqlError]. *)
Lemma executeHranaBatch_missing_counterexample :
  let constraint :=
    Foreign [ResponseError; ClientError] "UNIQUE constraint failed: t.a"
      (Some "SQLITE_CONSTRAINT") in
  let nothing : RowsResult (list Z) Z := mkRowsResult [] [] 0 None in
  let stmts : list (Stmt string) :=
    [newStmt "INSERT INTO t VALUES (1)"; newStmt "INSERT INTO t VALUES (1)"] in
  let outs := [StepOk nothing; StepError constraint; StepNotRun; StepNotRun; StepOk nothing] in
  let result := (executeHranaBatch _ _ _ (λ id, id) emptyBatch stmts (Fulfilled outs)).2 in
  conforms _ _ _ (executeHranaBatch_build _ emptyBatch stmts).1 outs = true
  ∧ stepPromise _ _ outs 2 = Fulfilled None
  ∧ result = Rejected constraint
  ∧ ¬ ∃ m cause, result = Rejected (LibsqlError m "SERVER_ERROR" cause).
Proof.
  simpl. repeat split.
  intros (m & cause & H). discriminate H.
Qed.

(** C8, counterexample. Two statements are queued and BEGIN fails: once
    both calls are resumed they have failed with the error of BEGIN and the
    transaction is closed; the [commit()] that follows does not return, it
    fails with [TRANSACTION_CLOSED] (and sends no COMMIT). *)
Lemma commit_after_begin_failure_counterexample :
  let busy :=
    Foreign [ResponseError; ClientError] "database is locked" (Some "SQLITE_BUSY") in
  let evs : list (Event (list Z) string Z) :=
    [ Invoke (Execute (SqlText "INSERT INTO t VALUES (1)"));
      Invoke (Execute (SqlText "SELECT 1"));
      BatchAnswered 0 (Fulfilled [StepError busy; StepNotRun]);
      Resume 0;
      Resume 1;
      Invoke Commit ] in
  let s := run _ _ _ (λ id, id) (λ stmt, stmt) init evs in
  results s !! 0 = Some (Rejected (mapHranaError busy))
  ∧ results s !! 1 = Some (Rejected (mapHranaError busy))
  ∧ closed (tx s) = true
  ∧ results s !! 2 = Some (Rejected commitClosed)
  ∧ results s !! 2 ≠ Some (Fulfilled RetVoid)
  ∧ ReqRun "COMMIT" ∉ sent (stream (tx s)).
Proof.
  vm_compute. repeat split; try discriminate.
  intros H. repeat (apply elem_of_cons in H as [H|H]; [discriminate H|]).
  by apply elem_of_nil in H.
Qed.

Lemma execute_not_started_witness :
  let t : Tx string := newTx in
  stream_closed (stream t) = false
  ∧ started t = None
  ∧ sent (stream (execute (list Z) _ (λ stmt, stmt) t (SqlText "SELECT 1")).1) =
      [ReqBatch [mkStep None (Run "BEGIN");
                 mkStep (Some (CondOk 0)) (Query (newStmt "SELECT 1"))]].
Proof.
  split; [reflexivity|]. split; [reflexivity|].
  exact (proj1 (proj2
    (execute_not_started (list Z) string Z (λ id, id) (λ stmt, stmt)
       newTx (SqlText "SELECT 1") eq_refl eq_refl))).
Defined.

Lemma begin_sent_once_witness :
  let evs : list (Event (list Z) string Z) :=
    [ Invoke (Execute (SqlText "INSERT INTO t VALUES (1)"));
      Invoke (Execute (SqlText "SELECT 1"));
      BatchAnswered 0
        (Fulfilled [StepOk (mkRowsResult [] [] 0 None);
                    StepOk (mkRowsResult [] [] 1 (Some 7%Z))]);
      Resume 0;
      Resume 1;
      StmtAnswered 1 (Fulfilled (mkRowsResult [Some "1"] [[1%Z]] 0 None)) ] in
  let s := run _ _ _ (λ id, id) (λ stmt, stmt) init evs in
  let more := [Invoke (Execute (SqlText "SELECT 2")); Resume 2] in
  started (tx s) = Some (mkStarted 0 0)
  ∧ beginsSent _ (sent (stream (tx s))) ≤ 1
  ∧ started (tx (run _ _ _ (λ id, id) (λ stmt, stmt) s more)) = Some (mkStarted 0 0).
Proof.
  intros evs s more.
  destruct (begin_sent_once (list Z) string Z (λ id, id) (λ stmt, stmt) evs)
    as (Hb & _ & _ & Hs & _).
  split; [reflexivity|]. split; [exact Hb|].
  exact (proj1 (Hs (mkStarted 0 0) eq_refl) more).
Defined.

Lemma executeHranaBatch_results_witness :
  let nothing : RowsResult (list Z) Z := mkRowsResult [] [] 0 None in
  let inserted : RowsResult (list Z) Z := mkRowsResult [] [] 1 (Some 7%Z) in
  let selected : RowsResult (list Z) Z := mkRowsResult [Some "1"] [[1%Z]] 0 None in
  let stmts : list (Stmt string) :=
    [newStmt "INSERT INTO t VALUES (1)"; newStmt "SELECT 1"] in
  let outs := [StepOk nothing; StepOk inserted; StepOk selected; StepOk nothing; StepNotRun] in
  (executeHranaBatch _ _ _ (λ id, id) emptyBatch stmts (Fulfilled outs)).2 =
    Fulfilled [resultSetFromHrana _ _ (λ id, id) inserted;
               resultSetFromHrana _ _ (λ id, id) selected].
Proof.
  intros nothing inserted selected stmts outs.
  destruct (executeHranaBatch_results (list Z) string Z (λ id, id) emptyBatch stmts outs)
    as (_ & _ & Hok & _).
  apply (Hok [inserted; selected]).
  - reflexivity.
  - eexists. reflexivity.
  - intros [|[|i]] r H; simpl in H; [by injection H as <-|by injection H as <-|discriminate H].
  - eexists. reflexivity.
Defined.

Lemma commit_rollback_close_witness :
  let busy :=
    Foreign [ResponseError; ClientError] "database is locked" (Some "SQLITE_BUSY") in
  let evs : list (Event (list Z) string Z) :=
    [ Invoke (Execute (SqlText "INSERT INTO t VALUES (1)"));
      Resume 0 ] in
  let evs' : list (Event (list Z) string Z) :=
    [ Invoke (Execute (SqlText "SELECT 1")) ] in
  let b : BatchReply (list Z) Z :=
    Fulfilled [StepOk (mkRowsResult [] [] 0 None);
               StepOk (mkRowsResult [] [] 1 (Some 7%Z))] in
  let s := run _ _ _ (λ id, id) (λ stmt, stmt) init evs in
  let id := ncalls s in
  let s' :=
    run _ _ _ (λ id, id) (λ stmt, stmt)
      (step _ _ _ (λ id, id) (λ stmt, stmt) s (Invoke Commit)) evs' in
  let s'' :=
    run _ _ _ (λ id, id) (λ stmt, stmt) s'
      [ BatchAnswered 0 b; Resume id;
        StmtAnswered (runRequest _ _ _ s' id) (Rejected busy); Resume id ] in
  (@Commit string = Commit ∨ @Commit string = Rollback)
  ∧ tasks s' !! id = Some (CommitStarted (mkStarted 0 0))
  ∧ is_Some (results s'' !! id)
  ∧ closed (tx s'') = true.
Proof.
  intros busy evs evs' b s id s' s''.
  assert (@Commit string = Commit ∨ @Commit string = Rollback) as Hc by (left; reflexivity).
  split; [exact Hc|]. split; [reflexivity|].
  destruct (commit_rollback_close (list Z) string Z (λ id, id) (λ stmt, stmt)
              evs evs' Commit b (Rejected busy) Hc) as (_ & _ & _ & Hres & Hcl & _).
  split; [exact Hres|exact Hcl].
Defined.

Lemma begin_failure_witness :
  let busy :=
    Foreign [ResponseError; ClientError] "database is locked" (Some "SQLITE_BUSY") in
  let evs : list (Event (list Z) string Z) :=
    [ Invoke (Execute (SqlText "INSERT INTO t VALUES (1)"));
      Invoke (Execute (SqlText "SELECT 1"));
      BatchAnswered 0 (Fulfilled [StepError busy; StepNotRun]);
      Resume 0;
      Resume 1 ] in
  let s := run _ _ _ (λ id, id) (λ stmt, stmt) init evs in
  started (tx s) = Some (mkStarted 0 0)
  ∧ startedPromise _ _ (replies s) (mkStarted 0 0) = Some (Rejected busy)
  ∧ closed (tx s) = true
  ∧ results (step _ _ _ (λ id, id) (λ stmt, stmt) s (Invoke Commit)) !! ncalls s
    = Some (Rejected commitClosed).
Proof.
  intros busy evs s.
  destruct (begin_failure (list Z) string Z (λ id, id) (λ stmt, stmt) evs (mkStarted 0 0)
              busy eq_refl eq_refl) as (_ & _ & _ & _ & Hc & _).
  split; [reflexivity|]. split; [reflexivity|]. split; [reflexivity|].
  exact (proj1 (Hc eq_refl)).
Defined.

Lemma closed_stream_rejects_witness :
  let t : Tx string := close newTx in
  stream_closed (stream t) = true
  ∧ sent (stream (commit (list Z) _ t).1) = sent (stream t).
Proof.
  split; [reflexivity|].
  exact (proj2 (proj2 (proj2
    (closed_stream_rejects (list Z) string (λ stmt, stmt)
       (close newTx) (SqlText "SELECT 1") eq_refl)))).
Defined.

Lemma rollback_not_started_witness :
  let t : Tx string := newTx in
  started t = None
  ∧ rollback (list Z) _ t = (close t, inr (Fulfilled RetVoid)).
Proof.
  split; [reflexivity|].
  exact (proj1 (rollback_not_started (list Z) string newTx eq_refl)).
Defined.

(** ** Runs of a started transaction *)

Lemma execute_on_started_witness :
  let evs : list (Event (list Z) string Z) :=
    [ Invoke (Execute (SqlText "INSERT INTO t VALUES (1)"));
      BatchAnswered 0
        (Fulfilled [StepOk (mkRowsResult [] [] 0 None);
                    StepOk (mkRowsResult [] [] 1 (Some 7%Z))]);
      Resume 0 ] in
  let s := run _ _ _ (λ id, id) (λ stmt, stmt) init evs in
  let selected : RowsResult (list Z) Z := mkRowsResult [Some "1"] [[1%Z]] 0 None in
  let s' :=
    run _ _ _ (λ id, id) (λ stmt, stmt) s
      [ Invoke (Execute (SqlText "SELECT 1")); Resume 1;
        StmtAnswered 1 (Fulfilled selected); Resume 1 ] in
  hasBegun _ _ _ s
  ∧ stream_closed (stream (tx s)) = false
  ∧ sent (stream (tx s')) = sent (stream (tx s)) ++ [ReqQuery (newStmt "SELECT 1")]
  ∧ results s' !! 1 =
      Some (Fulfilled (RetResultSet (resultSetFromHrana _ _ (λ id, id) selected))).
Proof.
  intros evs s selected s'.
  assert (hasBegun _ _ _ s) as Hb by (exists (mkStarted 0 0); split; reflexivity).
  split; [exact Hb|]. split; [reflexivity|].
  destruct (execute_on_started (list Z) string Z (λ id, id) (λ stmt, stmt) evs
              (SqlText "SELECT 1") (Fulfilled selected) Hb eq_refl) as (Hs & Hr & _).
  split; [exact Hs|exact Hr].
Defined.

Lemma commit_on_started_witness :
  let busy :=
    Foreign [ResponseError; ClientError] "database is locked" (Some "SQLITE_BUSY") in
  let evs : list (Event (list Z) string Z) :=
    [ Invoke (Execute (SqlText "INSERT INTO t VALUES (1)"));
      BatchAnswered 0
        (Fulfilled [StepOk (mkRowsResult [] [] 0 None);
                    StepOk (mkRowsResult [] [] 1 (Some 7%Z))]);
      Resume 0 ] in
  let s := run _ _ _ (λ id, id) (λ stmt, stmt) init evs in
  let s1 := run _ _ _ (λ id, id) (λ stmt, stmt) s [Invoke Commit; Resume 1] in
  let s' :=
    run _ _ _ (λ id, id) (λ stmt, stmt) s1 [StmtAnswered 1 (Rejected busy); Resume 1] in
  hasBegun _ _ _ s
  ∧ stream_closed (stream (tx s)) = false
  ∧ results s' !! 1 = Some (Rejected (mapHranaError busy))
  ∧ closed (tx s') = true.
Proof.
  intros busy evs s s1 s'.
  assert (hasBegun _ _ _ s) as Hb by (exists (mkStarted 0 0); split; reflexivity).
  split; [exact Hb|]. split; [reflexivity|].
  destruct (commit_on_started (list Z) string Z (λ id, id) (λ stmt, stmt) evs
              (Rejected busy) Hb eq_refl) as (_ & _ & _ & _ & _ & Hr & Hc).
  split; [exact Hr|exact Hc].
Defined.

Lemma rollback_on_started_witness :
  let evs : list (Event (list Z) string Z) :=
    [ Invoke (Execute (SqlText "INSERT INTO t VALUES (1)")) ] in
  let s := run _ _ _ (λ id, id) (λ stmt, stmt) init evs in
  let s1 := step _ _ _ (λ id, id) (λ stmt, stmt) s (Invoke Rollback) in
  is_Some (started (tx s))
  ∧ stream_closed (stream (tx s)) = false
  ∧ sent (stream (tx s1)) = sent (stream (tx s)) ++ [ReqRun "ROLLBACK"]
  ∧ stream_closed (stream (tx s1)) = true.
Proof.
  intros evs s s1.
  assert (is_Some (started (tx s))) as Hst by (exists (mkStarted 0 0); reflexivity).
  split; [exact Hst|]. split; [reflexivity|].
  destruct (rollback_on_started (list Z) string Z (λ id, id) (λ stmt, stmt) evs
              (Fulfilled (mkRowsResult [] [] 0 None)) Hst eq_refl) as (Hs & Hc & _).
  split; [exact Hs|exact Hc].
Defined.

Lemma sent_after_begin_witness :
  let evs : list (Event (list Z) string Z) :=
    [ Invoke (Execute (SqlText "INSERT INTO t VALUES (1)"));
      BatchAnswered 0
        (Fulfilled [StepOk (mkRowsResult [] [] 0 None);
                    StepOk (mkRowsResult [] [] 1 (Some 7%Z))]);
      Resume 0;
      Invoke (Execute (SqlText "SELECT 1"));
      Resume 1 ] in
  let s := run _ _ _ (λ id, id) (λ stmt, stmt) init evs in
  sent (stream (tx s)) !! 1 = Some (ReqQuery (newStmt "SELECT 1"))
  ∧ hasBegun _ _ _ s.
Proof.
  intros evs s. split; [reflexivity|].
  destruct (sent_after_begin (list Z) string Z (λ id, id) (λ stmt, stmt) evs) as [_ H].
  destruct (H 1 (ReqQuery (newStmt "SELECT 1")) eq_refl) as [[H0 _]|[_ [Hr|[Hb _]]]].
  - discriminate H0.
  - discriminate Hr.
  - exact Hb.
Defined.

Lemma rollback_sent_once_witness :
  let evs : list (Event (list Z) string Z) :=
    [ Invoke (Execute (SqlText "INSERT INTO t VALUES (1)"));
      Invoke Rollback ] in
  let s := run _ _ _ (λ id, id) (λ stmt, stmt) init evs in
  sent (stream (tx s)) !! 1 = Some (ReqRun "ROLLBACK")
  ∧ results (step _ _ _ (λ id, id) (λ stmt, stmt) s (Invoke Commit)) !! ncalls s
    = Some (Rejected commitClosed).
Proof.
  intros evs s. split; [reflexivity|].
  destruct (rollback_sent_once (list Z) string Z (λ id, id) (λ stmt, stmt) evs) as [_ H].
  destruct (H (ReqRun "ROLLBACK")) as (_ & _ & _ & Hc & _).
  - apply (list_elem_of_lookup_2 _ 1). reflexivity.
  - reflexivity.
  - exact Hc.
Defined.

Lemma executeHranaBatch_conforming_witness :
  let constraint :=
    Foreign [ResponseError; ClientError] "UNIQUE constraint failed: t.a"
      (Some "SQLITE_CONSTRAINT") in
  let nothing : RowsResult (list Z) Z := mkRowsResult [] [] 0 None in
  let stmts : list (Stmt string) :=
    [newStmt "INSERT INTO t VALUES (1)"; newStmt "INSERT INTO t VALUES (1)"] in
  let outs := [StepOk nothing; StepError constraint; StepNotRun; StepNotRun; StepOk nothing] in
  conforms _ _ _ (executeHranaBatch_build _ emptyBatch stmts).1 outs = true
  ∧ ¬ okAt _ _ outs 3
  ∧ ∃ j, j ≤ 3
         ∧ outs !! j = Some (StepError constraint)
         ∧ (executeHranaBatch _ _ _ (λ id, id) emptyBatch stmts (Fulfilled outs)).2
           = Rejected constraint.
Proof.
  intros constraint nothing stmts outs.
  assert (¬ okAt _ _ outs 3) as Hno by (intros [r Hr]; discriminate Hr).
  split; [reflexivity|]. split; [exact Hno|].
  destruct (executeHranaBatch_conforming (list Z) string Z (λ id, id) stmts outs eq_refl)
    as [_ H].
  destruct (H Hno) as (_ & j & e & Hj & He & _ & Hres).
  exists j. destruct j as [|[|[|[|j]]]]; simpl in He; try discriminate He.
  - injection He as <-. split; [exact Hj|]. split; [reflexivity|exact Hres].
  - simpl in Hj. lia.
Defined.

Lemma stmtToHrana_bindings_witness :
  let entries := [("a", "1"); ("b", "2")] in
  NoDup entries.*1
  ∧ stmtToHrana string (SqlArgs "SELECT :a, :b" (ArgsObject string entries))
    = mkStmt string "SELECT :a, :b" [] entries.
Proof.
  intros entries.
  assert (NoDup entries.*1) as Hnd.
  { apply (bool_decide_unpack _). reflexivity. }
  split; [exact Hnd|].
  exact (proj2 (proj2 (proj2 (proj2 (proj2 (proj2
    (stmtToHrana_bindings string "SELECT :a, :b" [] entries)))))) Hnd).
Defined.

(** * The URI parser *)

Section UriParser.

Import Uri.

#[local] Arguments chr : simpl never.

(** ** The patterns *)

Lemma many_stops {A} (p : N → bool) (t : list N) (k : list N → option A) :
  stops p t → many p t k = k t.
Proof. destruct t as [|c t]; simpl; [done|]. by intros ->. Qed.

(** The longest prefix after which the continuation succeeds wins. *)
Lemma many_longest {A} (p : N → bool) (k : list N → option A) (r : A) :
  ∀ (t : list N) (i : nat),
    all p (take i t) →
    k (drop i t) = Some r →
    (∀ j, i < j ≤ length t → all p (take j t) → k (drop j t) = None) →
    many p t k = Some r.
Proof.
  induction t as [|c t IH]; intros i Hall Hk Hlonger; simpl.
  - by rewrite drop_nil in Hk.
  - destruct i as [|i].
    + simpl in Hk. destruct (p c) eqn:Hc; [|done].
      destruct (many p t k) as [r'|] eqn:Hm; [|done].
      exfalso. clear IH Hk Hall.
      assert (∀ (t : list N), (∀ j, j ≤ length t → all p (take j t) → k (drop j t) = None) →
              many p t k = None) as Hnone.
      { clear. induction t as [|c t IH]; intros H; simpl.
        - apply (H 0); [simpl; lia|constructor].
        - destruct (p c) eqn:Hc.
          + rewrite IH.
            * apply (H 0); [simpl; lia|constructor].
            * intros j Hj Hall. apply (H (S j)); [simpl; lia|]. simpl. by constructor.
          + apply (H 0); [simpl; lia|constructor]. }
      rewrite Hnone in Hm; [done|].
      intros j Hj Hall. apply (Hlonger (S j)); [simpl; lia|]. simpl. by constructor.
    + simpl in Hall, Hk. apply Forall_cons in Hall as [Hc Hall]. rewrite Hc.
      rewrite (IH i); [done|done|done|].
      intros j Hj Hallj. apply (Hlonger (S j)); [simpl; lia|]. simpl. by constructor.
Qed.

Lemma many_none {A} (p : N → bool) (k : list N → option A) :
  ∀ (t : list N),
    (∀ j, j ≤ length t → all p (take j t) → k (drop j t) = None) →
    many p t k = None.
Proof.
  induction t as [|c t IH]; intros H; simpl.
  - apply (H 0); [simpl; lia|constructor].
  - destruct (p c) eqn:Hc.
    + rewrite IH.
      * apply (H 0); [simpl; lia|constructor].
      * intros j Hj Hall. apply (H (S j)); [simpl; lia|]. simpl. by constructor.
    + apply (H 0); [simpl; lia|constructor].
Qed.

(** A run of the class followed by a text that does not go on with it. *)
Lemma all_take_stops (p : N → bool) (w rest : list N) (j : nat) :
  stops p rest → all p (take j (w ++ rest)) → j ≤ length (w ++ rest) → j ≤ length w.
Proof.
  intros Hstop Hall Hj. destruct (decide (j ≤ length w)) as [|Hgt]; [done|].
  exfalso. destruct rest as [|c rest]; [rewrite app_nil_r in Hj; lia|]. simpl in Hstop.
  assert ((take j (w ++ c :: rest)) !! length w = Some c) as Hc.
  { rewrite lookup_take_lt by lia. by rewrite list_lookup_middle. }
  unfold all in Hall. rewrite Forall_lookup in Hall. specialize (Hall _ _ Hc). simpl in Hall.
  congruence.
Qed.

Lemma many_run {A} (p : N → bool) (k : list N → option A) (w rest : list N) (r : A) :
  all p w → stops p rest → k rest = Some r → many p (w ++ rest) k = Some r.
Proof.
  intros Hw Hstop Hk. apply (many_longest p k r (w ++ rest) (length w)).
  - by rewrite take_app_length.
  - by rewrite drop_app_length.
  - intros j Hj Hall. pose proof (all_take_stops p w rest j Hstop Hall). rewrite length_app in *. lia.
Qed.




Lemma named_many_run (name : string) (p : N → bool) (w rest : list N)
    (g : gmap string (list N)) (k : list N → gmap string (list N) → option (gmap string (list N)))
    (r : gmap string (list N)) :
  all p w → stops p rest → k rest (<[name := w]> g) = Some r →
  matchRe (Named name (Many p)) (w ++ rest) g k = Some r.
Proof.
  intros Hw Hstop Hk. simpl. apply many_run; [done|done|].
  rewrite length_app. replace (length w + length rest - length rest) with (length w) by lia.
  by rewrite take_app_length.
Qed.


Lemma frag_ok (frg : option (list N)) (g : gmap string (list N)) :
  matchRe fragPart (optional (lit "#") frg) g kend = Some (record "fragment" frg g).
Proof.
  destruct frg as [f|]; [|done].
  change (optional (lit "#") (Some f)) with (chr "#" :: f).
  unfold fragPart. cbn [matchRe]. rewrite bool_decide_eq_true_2 by done.
  pose proof (named_many_run "fragment" anyChar f [] g kend (<["fragment" := f]> g)) as H.
  rewrite app_nil_r in H. unfold FRAGMENT. rewrite H; try done. by apply Forall_forall.
Qed.

Lemma stops_optional (p : N → bool) (c : ascii) (o : option (list N)) (rest : list N) :
  p (chr c) = false → stops p rest → stops p (optional [chr c] o ++ rest).
Proof. intros Hc Hrest. by destruct o. Qed.

Lemma query_ok (qry frg : option (list N)) (g : gmap string (list N)) :
  (∀ q, qry = Some q → all (noneOf "#") q) →
  matchRe (Cat queryPart fragPart) (optional (lit "?") qry ++ optional (lit "#") frg) g kend
  = Some (record "fragment" frg (record "query" qry g)).
Proof.
  intros Hq. destruct qry as [q|].
  - change (optional (lit "?") (Some q) ++ optional (lit "#") frg)
      with (chr "?" :: (q ++ optional (lit "#") frg)).
    unfold queryPart. cbn [matchRe]. rewrite bool_decide_eq_true_2 by done.
    change (matchRe QUERY) with (matchRe (Named "query" (Many (noneOf "#")))).
    rewrite (named_many_run "query" _ q _ g _ (record "fragment" frg (<["query" := q]> g)));
      [done|by apply Hq|by destruct frg|apply frag_ok].
  - simpl optional. simpl app. unfold queryPart. cbn [matchRe].
    assert (∀ k, match optional (lit "#") frg with
                 | [] => None
                 | x :: s' => if bool_decide (x = chr "?") then k s' else None
                 end = (None : option (gmap string (list N)))) as ->.
    { intros k. by destruct frg. }
    apply frag_ok.
Qed.

Lemma path_ok (pth : list N) (qry frg : option (list N)) (g : gmap string (list N)) :
  all (noneOf "?#") pth →
  (∀ q, qry = Some q → all (noneOf "#") q) →
  matchRe (Cat PATH (Cat queryPart fragPart))
    (pth ++ optional (lit "?") qry ++ optional (lit "#") frg) g kend
  = Some (record "fragment" frg (record "query" qry (<["path" := pth]> g))).
Proof.
  intros Hp Hq. cbn [matchRe]. unfold PATH.
  apply named_many_run; [done| |by apply query_ok].
  destruct qry; [done|]. by destruct frg.
Qed.

(** What is left once the scheme and the colon are read. *)


Lemma hier_ok (auth : option (list N)) (pth : list N) (qry frg : option (list N))
    (g : gmap string (list N)) :
  (∀ a, auth = Some a → all (noneOf "/?#") a) →
  all (noneOf "?#") pth →
  pathFits auth pth →
  (∀ q, qry = Some q → all (noneOf "#") q) →
  matchRe hierPart
    (optional (lit "//") auth ++ pth ++ optional (lit "?") qry ++ optional (lit "#") frg) g kend
  = Some (record "fragment" frg (record "query" qry
            (<["path" := pth]> (record "authority" auth g)))).
Proof.
  intros Ha Hp Hfit Hq. unfold hierPart. destruct auth as [a|].
  - change (optional (lit "//") (Some a) ++ pth ++ optional (lit "?") qry ++ optional (lit "#") frg)
      with (chr "/" :: chr "/" :: (a ++ (pth ++ optional (lit "?") qry ++ optional (lit "#") frg))).
    unfold authPart. cbn [matchRe cat foldr]. rewrite !bool_decide_eq_true_2 by done.
    unfold AUTHORITY.
    rewrite (named_many_run "authority" _ a _ g _
               (record "fragment" frg (record "query" qry
                  (<["path" := pth]> (<["authority" := a]> g))))); [done|by apply Ha| |].
    + destruct Hfit as [->|[t ->]]; [|done]. simpl. destruct qry; [done|]. by destruct frg.
    + by apply path_ok.
  - simpl optional at 1. simpl app at 1. simpl record.
    rewrite <- (path_ok pth qry frg g Hp Hq).
    set (text := pth ++ optional (lit "?") qry ++ optional (lit "#") frg).
    assert (¬ ∃ t, text = chr "/" :: chr "/" :: t) as Hno.
    { intros [t Ht]. subst text. destruct pth as [|c1 [|c2 pth]]; simpl in *.
      - destruct qry; [done|]. by destruct frg.
      - injection Ht as -> Ht. destruct qry; [done|]. by destruct frg.
      - injection Ht as -> -> _. apply Hfit. eauto. }
    unfold authPart. cbn [matchRe cat foldr].
    destruct text as [|c1 [|c2 text']]; [done| |].
    + by case_bool_decide.
    + case_bool_decide as H1; [|done]. case_bool_decide as H2; [|done].
      subst. destruct Hno. eauto.
Qed.



Lemma exec_hier (c : N) (sch rest : list N) :
  letter c = true → all schemeChar sch →
  exec URI_RE (c :: sch ++ chr ":" :: rest)
  = matchRe hierPart rest (<["scheme" := c :: sch]> ∅) kend.
Proof.
  intros Hc Hs. unfold exec, URI_RE. cbn [cat foldr]. cbn [matchRe]. unfold SCHEME.
  cbn [matchRe]. rewrite Hc.
  destruct (matchRe hierPart rest (<["scheme" := c :: sch]> ∅) kend) as [r|] eqn:Hr.
  - apply many_run; [done|done|]. rewrite bool_decide_eq_true_2 by done.
    simpl length. rewrite length_app. simpl length.
    replace (S (length sch + S (length rest)) - S (length rest)) with (S (length sch)) by lia.
    simpl take. rewrite take_app_length. exact Hr.
  - apply many_none. intros j Hj Hall.
    pose proof (all_take_stops schemeChar sch (chr ":" :: rest) j eq_refl Hall Hj) as Hle.
    destruct (decide (j = length sch)) as [->|Hne].
    + rewrite drop_app_length. rewrite bool_decide_eq_true_2 by done.
      simpl length. rewrite length_app. simpl length.
      replace (S (length sch + S (length rest)) - S (length rest)) with (S (length sch)) by lia.
      simpl take. rewrite take_app_length. exact Hr.
    + rewrite drop_app_le by lia.
      destruct (drop j sch) as [|x t] eqn:Hd.
      { apply (f_equal length) in Hd. rewrite length_drop in Hd. simpl in Hd. lia. }
      simpl. rewrite bool_decide_eq_false_2; [done|]. intros Hx.
      assert (x ∈ sch) as Hin.
      { apply (list_elem_of_lookup_2 _ j). rewrite <- (take_drop j sch) at 1.
        rewrite lookup_app_r by (rewrite length_take; lia). rewrite length_take.
        replace (j - j `min` length sch) with 0 by lia. by rewrite Hd. }
      unfold all in Hs. rewrite Forall_forall in Hs. specialize (Hs _ Hin).
      rewrite Hx in Hs. discriminate Hs.
Qed.


Lemma exec_no_scheme (text : list N) : ¬ hasScheme text → exec URI_RE text = None.
Proof.
  intros Hno. unfold exec, URI_RE. cbn [cat foldr]. cbn [matchRe]. unfold SCHEME.
  cbn [matchRe]. destruct text as [|c t]; [done|].
  destruct (letter c) eqn:Hc; [|done].
  apply many_none. intros j Hj Hall.
  destruct (drop j t) as [|x rest] eqn:Hd; [done|].
  case_bool_decide as Hx; [|done]. subst x. destruct Hno.
  exists c, (take j t), rest. split; [|done].
  by rewrite <- Hd, take_drop.
Qed.

Lemma span_exists (p : N → bool) (t : list N) :
  ∃ w rest, t = w ++ rest ∧ all p w ∧ stops p rest.
Proof.
  induction t as [|c t (w & rest & -> & Hw & Hrest)].
  - exists [], []. split; [done|]. split; [constructor|done].
  - destruct (p c) eqn:Hc.
    + exists (c :: w), rest. split; [done|]. split; [by constructor|done].
    + exists [], (c :: w ++ rest). split; [done|]. split; [constructor|done].
Qed.


Lemma stops_cases (cs : string) (t : list N) :
  stops (noneOf cs) t → t = [] ∨ ∃ c t', t = c :: t' ∧ c ∈ lit cs.
Proof.
  destruct t as [|c t]; [by left|]. simpl. intros H. right. exists c, t. split; [done|].
  unfold noneOf, oneOf in H. apply negb_false_iff in H. by apply bool_decide_eq_true in H.
Qed.

(** Every text is the rest of some URI in exactly one way. *)
Lemma hier_decompose (rest : list N) :
  ∃ auth pth qry frg,
    rest = optional (lit "//") auth ++ pth ++ optional (lit "?") qry ++ optional (lit "#") frg
    ∧ wellFormed auth pth qry.
Proof.
  assert (∀ t, t = [] ∨ (∃ t', t = chr "#" :: t') → ∃ frg, t = optional (lit "#") frg) as Hfrag.
  { intros t [->|[t' ->]]; [by exists None|by exists (Some t')]. }
  assert (∀ t, stops (noneOf "?#") t →
            ∃ qry frg, t = optional (lit "?") qry ++ optional (lit "#") frg
                       ∧ ∀ q, qry = Some q → all (noneOf "#") q) as Hquery.
  { intros t Ht. apply stops_cases in Ht as [->|(c & t' & -> & Hc)].
    - exists None, None. done.
    - apply elem_of_cons in Hc as [->|Hc].
      + destruct (span_exists (noneOf "#") t') as (q & r & -> & Hq & Hr).
        apply stops_cases in Hr.
        destruct (Hfrag r) as [frg ->].
        { destruct Hr as [->|(c & r' & -> & Hc)]; [by left|right].
          apply list_elem_of_singleton in Hc as ->. eauto. }
        exists (Some q), frg. split; [done|]. by intros ? [= <-].
      + apply list_elem_of_singleton in Hc as ->.
        exists None, (Some t'). done. }
  assert (∀ t, ∃ pth qry frg,
            t = pth ++ optional (lit "?") qry ++ optional (lit "#") frg
            ∧ all (noneOf "?#") pth ∧ (∀ q, qry = Some q → all (noneOf "#") q)) as Hpath.
  { intros t. destruct (span_exists (noneOf "?#") t) as (pth & r & -> & Hp & Hr).
    destruct (Hquery r Hr) as (qry & frg & -> & Hq). by exists pth, qry, frg. }
  assert ((∃ t, rest = chr "/" :: chr "/" :: t) ∨ ¬ ∃ t, rest = chr "/" :: chr "/" :: t)
    as [[t ->]|Hno].
  { destruct rest as [|c1 [|c2 t]];
      [right; intros [? H]; inversion H|right; intros [? H]; inversion H|].
    destruct (decide (c1 = chr "/")) as [->|]; [|right; intros [? ?]; congruence].
    destruct (decide (c2 = chr "/")) as [->|]; [|right; intros [? ?]; congruence].
    left. eauto. }
  - destruct (span_exists (noneOf "/?#") t) as (a & r & -> & Ha & Hr).
    destruct (Hpath r) as (pth & qry & frg & -> & Hp & Hq).
    exists (Some a), pth, qry, frg. split; [done|].
    split; [by intros ? [= <-]|]. split; [done|]. split; [|done].
    destruct pth as [|c pth]; [by left|right].
    simpl in Hr. apply Forall_cons in Hp as [Hc _]. exists pth. f_equal.
    unfold noneOf, oneOf in *. apply negb_false_iff, bool_decide_eq_true in Hr.
    apply negb_true_iff, bool_decide_eq_false in Hc.
    change (lit "/?#") with (chr "/" :: lit "?#") in Hr.
    apply elem_of_cons in Hr as [->|Hr]; done.
  - destruct (Hpath rest) as (pth & qry & frg & -> & Hp & Hq).
    exists None, pth, qry, frg. split; [done|].
    split; [done|]. split; [done|]. split; [|done].
    intros [t ->]. apply Hno. eauto.
Qed.


Lemma groupsOf_lookup (scheme : list N) (auth : option (list N)) (pth : list N)
    (qry frg : option (list N)) :
  let g := groupsOf scheme auth pth qry frg in
  g !! "scheme" = Some scheme ∧ g !! "authority" = auth ∧ g !! "path" = Some pth
  ∧ g !! "query" = qry ∧ g !! "fragment" = frg.
Proof.
  unfold groupsOf. destruct auth, qry, frg; simpl; repeat split; by simplify_map_eq.
Qed.

Lemma exec_assemble (scheme : list N) (auth : option (list N)) (pth : list N)
    (qry frg : option (list N)) :
  isScheme scheme → wellFormed auth pth qry →
  exec URI_RE (assemble scheme auth pth qry frg) = Some (groupsOf scheme auth pth qry frg).
Proof.
  intros (c & sch & -> & Hc & Hs) (Ha & Hp & Hfit & Hq). unfold assemble.
  change ((c :: sch) ++ lit ":" ++ ?r) with (c :: sch ++ chr ":" :: r).
  rewrite exec_hier by done. by apply hier_ok.
Qed.

Lemma hasScheme_dec (text : list N) : hasScheme text ∨ ¬ hasScheme text.
Proof.
  unfold hasScheme.
  assert (schemeChar (chr ":") = false) as Hcolon by done.
  generalize dependent (chr ":"). intros colon Hcolon.
  destruct text as [|c t]; [right; by intros (? & ? & ? & ? & _)|].
  destruct (letter c) eqn:Hc.
  2:{ right. intros (? & ? & ? & [= <- _] & ? & _). congruence. }
  destruct (span_exists schemeChar t) as (sch & r & -> & Hs & Hr).
  destruct r as [|x r].
  - right. intros (c' & sch' & rest & [= <- Heq] & _ & Hs').
    rewrite app_nil_r in Heq. subst sch. unfold all in Hs.
    rewrite Forall_app, Forall_cons in Hs. destruct Hs as (_ & ? & _). congruence.
  - destruct (decide (x = colon)) as [->|Hx]; [left; by exists c, sch, r|].
    right. intros (c' & sch' & rest & [= <- Heq] & _ & Hs').
    assert (length sch = length sch' ∨ length sch < length sch' ∨ length sch' < length sch)
      as [Hl|[Hl|Hl]] by lia.
    + apply app_inj_1 in Heq as [_ [= ->]]; done.
    + assert ((sch ++ x :: r) !! length sch = Some x) as H1 by (by apply list_lookup_middle).
      rewrite Heq, lookup_app_l in H1 by done.
      unfold all in Hs'. rewrite Forall_lookup in Hs'. specialize (Hs' _ _ H1).
      simpl in Hr. congruence.
    + assert ((sch' ++ colon :: rest) !! length sch' = Some colon) as H1
        by (by apply list_lookup_middle).
      rewrite <- Heq, lookup_app_l in H1 by done.
      unfold all in Hs. rewrite Forall_lookup in Hs. specialize (Hs _ _ H1). simpl in Hs.
      congruence.
Qed.

Lemma exec_inv (text : list N) (g : gmap string (list N)) :
  exec URI_RE text = Some g →
  ∃ scheme auth pth qry frg,
    isScheme scheme ∧ wellFormed auth pth qry
    ∧ text = assemble scheme auth pth qry frg
    ∧ g = groupsOf scheme auth pth qry frg.
Proof.
  intros Hg.
  assert (hasScheme text) as (c & sch & rest & -> & Hc & Hs).
  { destruct (hasScheme_dec text) as [?|Hno]; [done|]. by rewrite exec_no_scheme in Hg. }
  destruct (hier_decompose rest) as (auth & pth & qry & frg & -> & Hwf).
  exists (c :: sch), auth, pth, qry, frg.
  split; [by exists c, sch|]. split; [done|]. split; [done|].
  pose proof (exec_assemble (c :: sch) auth pth qry frg) as H.
  unfold assemble in H.
  change ((c :: sch) ++ lit ":" ++ ?r) with (c :: sch ++ chr ":" :: r) in H.
  rewrite H in Hg; [by injection Hg|by exists c, sch|done].
Qed.

(** ** The authority *)

Lemma many_sound {A} (p : N → bool) (k : list N → option A) (r : A) :
  ∀ t, many p t k = Some r →
       ∃ j, j ≤ length t ∧ all p (take j t) ∧ k (drop j t) = Some r.
Proof.
  induction t as [|c t IH]; simpl; intros H.
  - exists 0. split; [done|]. split; [constructor|done].
  - destruct (p c) eqn:Hc.
    + destruct (many p t k) as [r'|] eqn:Hm.
      * injection H as ->. destruct (IH eq_refl) as (j & Hj & Hall & Hk).
        exists (S j). split; [lia|]. split; [by constructor|done].
      * exists 0. split; [lia|]. split; [constructor|done].
    + exists 0. split; [lia|]. split; [constructor|done].
Qed.



Lemma portPart_ok (d : option (list N)) (g : gmap string (list N)) :
  digits d → matchRe portPart (optional (lit ":") d) g kend = Some (record "port" d g).
Proof.
  intros Hd. destruct d as [ds|]; [|done].
  change (optional (lit ":") (Some ds)) with (chr ":" :: ds).
  unfold portPart. cbn [matchRe]. rewrite bool_decide_eq_true_2 by done.
  pose proof (named_many_run "port" digit ds [] g kend (<["port" := ds]> g)) as H.
  rewrite app_nil_r in H. unfold PORT. rewrite H; try done. by apply Hd.
Qed.

Lemma portPart_inv (t : list N) (g r : gmap string (list N)) :
  matchRe portPart t g kend = Some r →
  ∃ d, t = optional (lit ":") d ∧ digits d ∧ r = record "port" d g.
Proof.
  unfold portPart, PORT. cbn [matchRe]. destruct t as [|c t].
  - intros [= <-]. exists None. split; [done|]. split; [by intros ?|done].
  - case_bool_decide as Hc; [|done]. subst c.
    destruct (many digit t _) as [r'|] eqn:Hm; [|done]. intros [= ->].
    apply many_sound in Hm as (j & Hj & Hall & Hk).
    destruct (drop j t) as [|? ?] eqn:Hdrop; [|done]. injection Hk as <-.
    assert (length t ≤ j) as Hlen.
    { apply (f_equal length) in Hdrop. rewrite length_drop in Hdrop. simpl in Hdrop. lia. }
    rewrite take_ge in Hall by done.
    exists (Some t). split; [done|]. split; [by intros ? [= <-]|].
    simpl. rewrite Nat.sub_0_r. by rewrite firstn_all.
Qed.


Lemma first_occurrence (c : N) (a a' b b' : list N) :
  c ∉ a → c ∉ a' → a ++ c :: b = a' ++ c :: b' → a = a' ∧ b = b'.
Proof.
  revert a'. induction a as [|x a IH]; intros [|x' a'] Ha Ha' Heq; simpl in Heq.
  - by injection Heq.
  - injection Heq as <- _. destruct Ha'. apply elem_of_cons. by left.
  - injection Heq as -> _. destruct Ha. apply elem_of_cons. by left.
  - injection Heq as -> Heq. apply not_elem_of_cons in Ha as [_ Ha].
    apply not_elem_of_cons in Ha' as [_ Ha']. destruct (IH a' Ha Ha' Heq) as [-> ->]. done.
Qed.

Lemma last_occurrence (c : N) (a a' b b' : list N) :
  c ∉ b → c ∉ b' → a ++ c :: b = a' ++ c :: b' → a = a' ∧ b = b'.
Proof.
  intros Hb Hb' Heq. apply (f_equal reverse) in Heq.
  rewrite !reverse_app, !reverse_cons, <- !app_assoc in Heq. simpl in Heq.
  apply first_occurrence in Heq as [H1 H2]; [|by rewrite elem_of_reverse..].
  apply (inj reverse) in H1, H2. done.
Qed.

Lemma all_not_in (cs : string) (c : N) (t : list N) :
  c ∈ lit cs → all (noneOf cs) t → c ∉ t.
Proof.
  intros Hc Hall Hin. unfold all in Hall. rewrite Forall_forall in Hall.
  specialize (Hall _ Hin). unfold noneOf, oneOf in Hall.
  apply negb_true_iff, bool_decide_eq_false in Hall. done.
Qed.

Lemma not_in_all (c : ascii) (t : list N) :
  chr c ∉ t → all (λ x, negb (bool_decide (x ∈ [chr c]))) t.
Proof.
  intros Hni. apply Forall_forall. intros x Hx. apply negb_true_iff, bool_decide_eq_false.
  intros H. apply list_elem_of_singleton in H as ->. done.
Qed.

Lemma digits_no (c : N) (ds : list N) : digit c = false → all digit ds → c ∉ ds.
Proof.
  intros Hc Hall Hin. unfold all in Hall. rewrite Forall_forall in Hall.
  specialize (Hall _ Hin). congruence.
Qed.

Lemma hostPort_ok (h : list N) (d : option (list N)) (g : gmap string (list N)) :
  isHost h → digits d →
  matchRe hostPort (h ++ optional (lit ":") d) g kend
  = Some (record "port" d (<["host" := h]> g)).
Proof.
  intros Hh Hd. unfold hostPort, HOST.
  set (s := h ++ optional (lit ":") d).
  pose (k' := λ (s' : list N) (g' : gmap string (list N)),
               matchRe portPart s' (<["host" := take (length s - length s') s]> g') kend).
  change (match many (noneOf ":") s (λ s', k' s' g) with
          | Some g' => Some g'
          | None => matchRe (cat [Lit (chr "["); Many dot] (Lit (chr "]"))) s g k'
          end = Some (record "port" d (<["host" := h]> g))).
  assert (k' (optional (lit ":") d) g = Some (record "port" d (<["host" := h]> g))) as Hk.
  { unfold k'. subst s. rewrite length_app.
    replace (length h + length (optional (lit ":") d) - length (optional (lit ":") d))
      with (length h) by lia.
    rewrite take_app_length. by apply portPart_ok. }
  assert (stops (noneOf ":") (optional (lit ":") d)) as Hstop by (by destruct d).
  destruct Hh as [Hh|(x & -> & Hx)].
  - subst s. rewrite (many_run (noneOf ":") (λ s', k' s' g) h _ _ Hh Hstop Hk). done.
  - destruct (many (noneOf ":") s (λ s', k' s' g)) as [r'|] eqn:HA.
    + (* the first alternative can only give the same groups *)
      apply many_sound in HA as (j & Hj & Hall & HA). unfold k' in HA.
      apply portPart_inv in HA as (d' & Hdrop & Hd' & ->).
      rewrite length_drop in *. replace (length s - (length s - j)) with j by lia.
      assert (s = take j s ++ optional (lit ":") d') as Hs by (by rewrite <- Hdrop, take_drop).
      assert (take j s = chr "[" :: x ++ [chr "]"] ∧ d' = d) as [-> ->]; [|done].
      pose proof (all_not_in ":" (chr ":") _ ltac:(by apply list_elem_of_singleton) Hall) as Hnc.
      clear Hdrop Hall Hk. generalize dependent (take j s). intros tk Hs Hnc.
      subst s. destruct d' as [ds'|], d as [ds|];
        repeat change (optional (lit ":") (Some ?t)) with (chr ":" :: t) in Hs;
        repeat change (optional (lit ":") None) with (@nil N) in Hs.
      * apply last_occurrence in Hs as [H1 H2];
          [split; [symmetry; exact H1|by rewrite H2]| |].
        -- apply digits_no; [done|by apply Hd].
        -- apply digits_no; [done|by apply Hd'].
      * exfalso. rewrite app_nil_r in Hs. apply (f_equal last) in Hs.
        rewrite app_comm_cons, last_snoc in Hs.
        change (chr ":" :: ds') with ([chr ":"] ++ ds') in Hs. rewrite app_assoc in Hs.
        destruct ds' as [|y ds' _] using rev_ind.
        -- rewrite app_nil_r, last_snoc in Hs. done.
        -- rewrite app_assoc, last_snoc in Hs. injection Hs as <-.
           specialize (Hd' _ eq_refl). unfold all in Hd'.
           rewrite Forall_app, Forall_singleton in Hd'. by destruct Hd'.
      * exfalso. rewrite app_nil_r in Hs. rewrite <- Hs in Hnc. apply Hnc.
        rewrite app_comm_cons, elem_of_app. right. apply elem_of_cons. by left.
      * rewrite !app_nil_r in Hs. by rewrite <- Hs.
    + (* the bracketed alternative *)
      cbn [cat foldr matchRe]. subst s. simpl app at 1. cbv beta iota.
      rewrite bool_decide_eq_true_2 by done. rewrite <- app_assoc. simpl app at 2.
      apply (many_longest dot _ _ _ (length x)).
      * by rewrite take_app_length.
      * rewrite drop_app_length. rewrite bool_decide_eq_true_2 by done.
        rewrite <- Hk. unfold k'. do 3 f_equal.
      * intros j Hj _. rewrite drop_app_ge by lia.
        destruct (j - length x) as [|m] eqn:Hm; [lia|]. simpl.
        destruct (drop m (optional (lit ":") d)) as [|y t] eqn:Hdrop; [done|].
        rewrite bool_decide_eq_false_2; [done|]. intros ->.
        assert (chr "]" ∈ optional (lit ":") d) as Hin.
        { rewrite <- (take_drop m (optional (lit ":") d)), Hdrop, elem_of_app. right.
          apply elem_of_cons. by left. }
        destruct d as [ds|]; simpl in Hin; [|by apply elem_of_nil in Hin].
        apply elem_of_cons in Hin as [?|Hin]; [done|].
        by apply (digits_no (chr "]") ds) in Hin; [|done|apply Hd].
Qed.

Lemma matchRe_Maybe (r : Re) (s : list N) (g : gmap string (list N))
    (k : list N → gmap string (list N) → option (gmap string (list N))) :
  matchRe (Maybe r) s g k
  = match matchRe r s g k with Some g' => Some g' | None => k s g end.
Proof. reflexivity. Qed.

Lemma matchRe_Cat (r1 r2 : Re) (s : list N) (g : gmap string (list N))
    (k : list N → gmap string (list N) → option (gmap string (list N))) :
  matchRe (Cat r1 r2) s g k = matchRe r1 s g (λ s' g', matchRe r2 s' g' k).
Proof. reflexivity. Qed.

Lemma lit_at_none (t : list N) (g : gmap string (list N))
    (K : list N → gmap string (list N) → option (gmap string (list N))) :
  chr "@" ∉ t → matchRe (Lit (chr "@")) t g K = None.
Proof.
  intros Hni. destruct t as [|c t]; [done|]. cbn [matchRe].
  rewrite bool_decide_eq_false_2; [done|]. intros ->. apply Hni, elem_of_cons. by left.
Qed.

Lemma not_in_drop (c : N) (t : list N) (j : nat) : c ∉ t → c ∉ drop j t.
Proof.
  intros Hni Hin. apply Hni. rewrite <- (take_drop j t), elem_of_app. by right.
Qed.

Lemma passwordPart_none (t : list N) (g : gmap string (list N))
    (K : list N → gmap string (list N) → option (gmap string (list N))) :
  chr "@" ∉ t →
  matchRe passwordPart t g (λ s g', matchRe (Lit (chr "@")) s g' K) = None.
Proof.
  intros Hni. unfold passwordPart.
  change (match matchRe (Cat (Lit (chr ":")) (Named "password" (Many dot))) t g
                  (λ s g', matchRe (Lit (chr "@")) s g' K) with
          | Some g' => Some g'
          | None => matchRe (Lit (chr "@")) t g K
          end = None).
  rewrite (lit_at_none t g K Hni).
  destruct t as [|c t]; [done|]. cbn [matchRe]. case_bool_decide; [|done].
  rewrite many_none; [done|]. intros j Hj Hall.
  apply (lit_at_none (drop j t)). apply not_in_drop.
  intros Hin. apply Hni, elem_of_cons. by right.
Qed.

Lemma userinfo_none (s : list N) (g : gmap string (list N))
    (K : list N → gmap string (list N) → option (gmap string (list N))) :
  chr "@" ∉ s → matchRe (Cat USERINFO (Lit (chr "@"))) s g K = None.
Proof.
  intros Hni. unfold USERINFO. cbn [matchRe].
  apply many_none. intros j Hj Hall.
  apply (passwordPart_none (drop j s)). by apply not_in_drop.
Qed.




Lemma userinfo_ok (ui : option (list N * option (list N))) (rest : list N)
    (g R : gmap string (list N))
    (K : list N → gmap string (list N) → option (gmap string (list N))) :
  userinfoFits ui → chr "@" ∉ rest →
  K rest (recordUser ui g) = Some R →
  matchRe (Maybe (Cat USERINFO (Lit (chr "@")))) (userText ui ++ rest) g K = Some R.
Proof.
  intros Hfit Hrest HK. destruct ui as [[u pw]|].
  2:{ change (userText None ++ rest) with rest.
      rewrite matchRe_Maybe, userinfo_none by done. exact HK. }
  destruct (Hfit u pw eq_refl) as [Hu Hp]. clear Hfit. simpl in HK.
  rewrite matchRe_Maybe. unfold USERINFO. rewrite !matchRe_Cat.
  set (s := userText (Some (u, pw)) ++ rest).
  change (matchRe (Named "username" (Many (noneOf ":"))) s g ?k)
    with (many (noneOf ":") s (λ s', k s' (<["username" := take (length s - length s') s]> g))).
  cbv beta.
  assert (s = u ++ (optional (lit ":") pw ++ chr "@" :: rest)) as Hs.
  { subst s. simpl. by rewrite <- !app_assoc. }
  rewrite (many_longest (noneOf ":") _ R s (length u)); [done| | |].
  - rewrite Hs. by rewrite take_app_length.
  - assert (take (length s - length (drop (length u) s)) s = u) as ->.
    { rewrite length_drop. rewrite Hs at 1 2 3. rewrite length_app.
      replace (length u + length (optional (lit ":") pw ++ chr "@" :: rest)
               - (length u + length (optional (lit ":") pw ++ chr "@" :: rest) - length u))
        with (length u) by lia.
      by rewrite take_app_length. }
    rewrite Hs at 1. rewrite drop_app_length.
    unfold passwordPart. destruct pw as [p|].
    + change (optional (lit ":") (Some p) ++ chr "@" :: rest)
        with (chr ":" :: (p ++ chr "@" :: rest)).
      cbn [matchRe]. rewrite bool_decide_eq_true_2 by done.
      rewrite (many_longest dot _ R (p ++ chr "@" :: rest) (length p)); [done| | |].
      * rewrite take_app_length. by apply Hp.
      * rewrite drop_app_length. rewrite bool_decide_eq_true_2 by done.
        rewrite length_app. simpl length.
        replace (length p + S (length rest) - S (length rest)) with (length p) by lia.
        by rewrite take_app_length.
      * intros j Hj _. rewrite drop_app_ge by lia.
        destruct (j - length p) as [|m] eqn:Hm; [lia|]. simpl.
        apply (lit_at_none (drop m rest)). by apply not_in_drop.
    + simpl optional. simpl app. cbn [matchRe].
      rewrite bool_decide_eq_false_2 by done. by rewrite bool_decide_eq_true_2 by done.
  - intros j Hj Hall. rewrite Hs. rewrite drop_app_ge by lia.
    destruct pw as [p|].
    + (* the run of the user name stops at the colon *)
      exfalso. rewrite Hs in Hall.
      pose proof (all_take_stops (noneOf ":") u
                    (optional (lit ":") (Some p) ++ chr "@" :: rest) j eq_refl Hall) as Hle.
      rewrite Hs in Hj. specialize (Hle ltac:(lia)). lia.
    + simpl optional. simpl app.
      destruct (j - length u) as [|m] eqn:Hm; [lia|]. simpl drop.
      apply (passwordPart_none (drop m rest)). by apply not_in_drop.
Qed.


Lemma exec_authority (ui : option (list N * option (list N))) (h : list N)
    (d : option (list N)) :
  userinfoFits ui → isHost h → chr "@" ∉ h → digits d →
  exec AUTHORITY_RE (userText ui ++ h ++ optional (lit ":") d)
  = Some (authorityGroups ui h d).
Proof.
  intros Hui Hh Hat Hd. unfold exec, AUTHORITY_RE. cbn [cat foldr].
  change (matchRe (Cat ?a (Cat HOST ?b)) ?s ?g ?k)
    with (matchRe a s g (λ s' g', matchRe hostPort s' g' k)).
  apply userinfo_ok; [done| |by apply hostPort_ok].
  rewrite elem_of_app. intros [?|Hin]; [done|].
  destruct d as [ds|]; simpl in Hin; [|by apply elem_of_nil in Hin].
  apply elem_of_cons in Hin as [?|Hin]; [done|].
  by apply (digits_no (chr "@") ds) in Hin; [|done|apply Hd].
Qed.

Lemma authorityGroups_lookup (ui : option (list N * option (list N))) (h : list N)
    (d : option (list N)) :
  let g := authorityGroups ui h d in
  g !! "host" = Some h ∧ g !! "port" = d
  ∧ g !! "username" = fst <$> ui ∧ g !! "password" = ui ≫= snd.
Proof.
  unfold authorityGroups. destruct ui as [[u [p|]]|], d; simpl; repeat split;
    by simplify_map_eq.
Qed.

(** Without a user and without brackets. *)
Lemma exec_authority_plain (text : list N) (g : gmap string (list N)) :
  chr "@" ∉ text → (∀ t, text ≠ chr "[" :: t) →
  exec AUTHORITY_RE text = Some g →
  ∃ h d, text = h ++ optional (lit ":") d ∧ all (noneOf ":") h ∧ digits d
         ∧ g = authorityGroups None h d.
Proof.
  intros Hat Hbr. unfold exec, AUTHORITY_RE. cbn [cat foldr].
  change (matchRe (Cat ?a (Cat HOST ?b)) ?s ?g ?k)
    with (matchRe a s g (λ s' g', matchRe hostPort s' g' k)).
  rewrite matchRe_Maybe, userinfo_none by done. unfold hostPort, HOST.
  pose (k' := λ (s' : list N) (g' : gmap string (list N)),
               matchRe portPart s' (<["host" := take (length text - length s') text]> g') kend).
  change (match many (noneOf ":") text (λ s', k' s' ∅) with
          | Some g' => Some g'
          | None => matchRe (cat [Lit (chr "["); Many dot] (Lit (chr "]"))) text ∅ k'
          end = Some g → ∃ h d, text = h ++ optional (lit ":") d ∧ all (noneOf ":") h
                                ∧ digits d ∧ g = authorityGroups None h d).
  destruct (many (noneOf ":") text _) as [r|] eqn:HA.
  - intros [= ->]. apply many_sound in HA as (j & Hj & Hall & HA). unfold k' in HA.
    apply portPart_inv in HA as (d & Hdrop & Hd & ->).
    exists (take j text), d. split; [by rewrite <- Hdrop, take_drop|].
    split; [done|]. split; [done|].
    rewrite length_drop. replace (length text - (length text - j)) with j by lia. done.
  - destruct text as [|c t]; [done|]. cbn [cat foldr matchRe].
    case_bool_decide; [|done]. subst c. by destruct (Hbr t).
Qed.

(** ** Strings *)

Lemma split_nonempty (sep : N) (t : list N) : split sep t ≠ [].
Proof. destruct t as [|c t]; simpl; [done|]. case_bool_decide; [done|]. by destruct (split sep t). Qed.

Lemma split_app (sep : N) (a b : list N) :
  split sep (a ++ sep :: b) = split sep a ++ split sep b.
Proof.
  induction a as [|c a IH]; simpl.
  - by rewrite bool_decide_eq_true_2.
  - case_bool_decide; [by rewrite IH|]. rewrite IH.
    pose proof (split_nonempty sep a). by destruct (split sep a).
Qed.

Lemma split_none (sep : N) (t : list N) : sep ∉ t → split sep t = [t].
Proof.
  induction t as [|c t IH]; intros Hni; simpl; [done|].
  apply not_elem_of_cons in Hni as [Hne Hni].
  rewrite bool_decide_eq_false_2 by done. by rewrite IH.
Qed.

Lemma indexOf_none (c : N) (t : list N) : c ∉ t → indexOf c t = None.
Proof.
  induction t as [|x t IH]; intros Hni; simpl; [done|].
  apply not_elem_of_cons in Hni as [Hne Hni].
  rewrite bool_decide_eq_false_2 by done. by rewrite IH.
Qed.

Lemma indexOf_first (c : N) (k v : list N) :
  c ∉ k → indexOf c (k ++ c :: v) = Some (length k).
Proof.
  induction k as [|x k IH]; intros Hni; simpl.
  - by rewrite bool_decide_eq_true_2.
  - apply not_elem_of_cons in Hni as [Hne Hni].
    rewrite bool_decide_eq_false_2 by done. by rewrite IH.
Qed.

(** ** The parser *)

Variable Number : Type.
Variable parseInt : list N → Number.
Variable decodeURIComponent : list N → Thrown + list N.

Local Abbreviation percentDecode := (Uri.percentDecode decodeURIComponent).
Local Abbreviation parsePair := (Uri.parsePair decodeURIComponent).
Local Abbreviation parsePairs := (Uri.parsePairs decodeURIComponent).
Local Abbreviation parseQuery := (Uri.parseQuery decodeURIComponent).
Local Abbreviation parseAuthority := (Uri.parseAuthority Number parseInt decodeURIComponent).
Local Abbreviation parse := (Uri.parse Number parseInt decodeURIComponent).
Local Abbreviation portOf := (Uri.portOf Number parseInt).
Local Abbreviation encodingError := (Uri.encodingError decodeURIComponent).

Lemma parsePairs_app (l1 l2 : list (list N)) :
  parsePairs (l1 ++ l2) =
    (p1 ← parsePairs l1; p2 ← parsePairs l2; inr (p1 ++ p2)).
Proof.
  induction l1 as [|s l1 IH]; simpl.
  - by destruct (parsePairs l2).
  - destruct (parsePair s) as [e|p]; simpl; [done|]. rewrite IH.
    destruct (parsePairs l1) as [e|p1]; simpl; [done|].
    destruct (parsePairs l2) as [e|p2]; simpl; [done|]. by rewrite app_assoc.
Qed.

(** X9. [parseQuery] goes through the sequences between the [&] from left
    to right: the pairs of a text are the pairs of what is in front of an
    [&] followed by the pairs of what is behind it, the error of the front
    part comes first, and an empty sequence gives no pair. *)
Theorem parseQuery_app (a b : list N) :
  parseQuery [] = inr (mkQuery [])
  ∧ parseQuery (a ++ lit "&" ++ b) =
      (qa ← parseQuery a; qb ← parseQuery b; inr (mkQuery (pairs qa ++ pairs qb))).
Proof.
  split; [done|]. unfold Uri.parseQuery.
  change (a ++ lit "&" ++ b) with (a ++ chr "&" :: b).
  rewrite split_app, parsePairs_app.
  destruct (parsePairs (split (chr "&") a)) as [e|p1]; simpl; [done|].
  by destruct (parsePairs (split (chr "&") b)) as [e|p2].
Qed.


Lemma parsePair_split (k v : list N) :
  chr "=" ∉ k →
  parsePair (k ++ chr "=" :: v) =
    (k' ← percentDecode (plus k); v' ← percentDecode (plus v);
     inr [mkKeyValue k' v']).
Proof.
  intros Hke. unfold Uri.parsePair.
  rewrite bool_decide_eq_false_2 by (by destruct k).
  rewrite indexOf_first by done. rewrite take_app_length.
  replace (length k + 1) with (S (length k)) by lia.
  replace (drop (S (length k)) (k ++ chr "=" :: v)) with v; [done|].
  clear. induction k; simpl; [done|]. by rewrite <- IHk.
Qed.

Lemma parsePair_key (k : list N) :
  chr "=" ∉ k → k ≠ [] →
  parsePair k =
    (k' ← percentDecode (plus k); v' ← percentDecode (plus []);
     inr [mkKeyValue k' v']).
Proof.
  intros Hke Hne. unfold Uri.parsePair.
  rewrite bool_decide_eq_false_2 by done. by rewrite indexOf_none.
Qed.

(** X10. A sequence of a query is cut at its first [=]: the key is what is
    in front of it, the value all that is behind it, further [=] included,
    and each [+] of both is a space before they are decoded, the key
    first. A sequence with no [=] is a key with the empty value. *)
Theorem parseQuery_pair (k v : list N) :
  chr "&" ∉ k → chr "=" ∉ k → chr "&" ∉ v →
  parseQuery (k ++ lit "=" ++ v) =
    (k' ← percentDecode (plus k); v' ← percentDecode (plus v);
     inr (mkQuery [mkKeyValue k' v']))
  ∧ (k ≠ [] →
     parseQuery k =
       (k' ← percentDecode (plus k); v' ← percentDecode (plus []);
        inr (mkQuery [mkKeyValue k' v']))).
Proof.
  intros Hk Hke Hv. unfold Uri.parseQuery. split.
  - change (k ++ lit "=" ++ v) with (k ++ chr "=" :: v).
    rewrite split_none.
    2:{ rewrite elem_of_app. intros [?|Hin]; [done|].
        apply elem_of_cons in Hin as [?|?]; done. }
    simpl. rewrite parsePair_split by done.
    destruct (percentDecode (plus k)) as [e|k']; simpl; [done|].
    by destruct (percentDecode (plus v)) as [e|v'].
  - intros Hne. rewrite split_none by done. simpl.
    rewrite parsePair_key by done.
    destruct (percentDecode (plus k)) as [e|k']; simpl; [done|].
    by destruct (percentDecode []) as [e|v'].
Qed.

(** Every way the parser fails. *)

Lemma percentDecode_error (t : list N) (err : Thrown) :
  percentDecode t = inl err →
  ∃ e, decodeURIComponent t = inl e ∧ err = invalidEncoding e.
Proof.
  unfold Uri.percentDecode. destruct (decodeURIComponent t) as [e|d]; [|done].
  intros [= <-]. eauto.
Qed.

Lemma percentDecode_ok (t d : list N) :
  percentDecode t = inr d ↔ decodeURIComponent t = inr d.
Proof.
  unfold Uri.percentDecode. destruct (decodeURIComponent t) as [e|d']; [done|].
  split; by intros [= ->].
Qed.


Lemma percentDecode_encodingError (t : list N) (err : Thrown) :
  percentDecode t = inl err → encodingError err.
Proof. intros (e & ? & ?)%percentDecode_error. by exists t, e. Qed.

Lemma parsePair_error (s : list N) (err : Thrown) :
  parsePair s = inl err → encodingError err.
Proof.
  unfold Uri.parsePair. case_bool_decide; [done|].
  destruct (indexOf (chr "=") s) as [i|].
  - destruct (percentDecode (replaceAll (chr "+") (chr " ") (take i s))) as [e|k'] eqn:Hk; simpl.
    { intros [= <-]. by eapply percentDecode_encodingError. }
    destruct (percentDecode (replaceAll (chr "+") (chr " ") (drop (i + 1) s))) as [e|v'] eqn:Hv; simpl; [|done].
    intros [= <-]. by eapply percentDecode_encodingError.
  - destruct (percentDecode (replaceAll (chr "+") (chr " ") s)) as [e|k'] eqn:Hk; simpl.
    { intros [= <-]. by eapply percentDecode_encodingError. }
    destruct (percentDecode []) as [e|v'] eqn:Hv; simpl; [|done].
    intros [= <-]. by eapply percentDecode_encodingError.
Qed.

Lemma parsePairs_error (l : list (list N)) (err : Thrown) :
  parsePairs l = inl err → encodingError err.
Proof.
  induction l as [|s l IH]; simpl; [done|].
  destruct (parsePair s) as [e|p] eqn:Hp; simpl.
  { intros [= <-]. by eapply parsePair_error. }
  destruct (parsePairs l) as [e|ps]; simpl; [|done].
  intros [= <-]. by apply IH.
Qed.

Lemma parseQuery_error (t : list N) (err : Thrown) :
  parseQuery t = inl err → encodingError err.
Proof.
  unfold Uri.parseQuery. destruct (parsePairs (split (chr "&") t)) as [e|ps] eqn:Hp; simpl; [|done].
  intros [= <-]. by eapply parsePairs_error.
Qed.

Lemma parseAuthority_error (t : list N) (err : Thrown) :
  parseAuthority t = inl err →
  (err = invalidAuthority ∧ exec AUTHORITY_RE t = None) ∨ encodingError err.
Proof.
  unfold Uri.parseAuthority. destruct (exec AUTHORITY_RE t) as [g|].
  2:{ intros [= <-]. by left. }
  intros H. right. revert H.
  destruct (percentDecode (group g "host")) as [e|h] eqn:Hh; simpl.
  { intros [= <-]. by eapply percentDecode_encodingError. }
  destruct (g !! "username") as [u|]; [|done].
  destruct (percentDecode u) as [e|u'] eqn:Hu; simpl.
  { intros [= <-]. by eapply percentDecode_encodingError. }
  destruct (g !! "password") as [p|]; [|done].
  destruct (percentDecode p) as [e|p'] eqn:Hp; simpl; [|done].
  intros [= <-]. by eapply percentDecode_encodingError.
Qed.

Lemma parse_error (t : list N) (err : Thrown) :
  parse t = inl err →
  (err = invalidFormat ∧ exec URI_RE t = None)
  ∨ (err = invalidAuthority ∧ exec URI_RE t ≠ None)
  ∨ (encodingError err ∧ exec URI_RE t ≠ None).
Proof.
  unfold Uri.parse. destruct (exec URI_RE t) as [g|].
  2:{ intros [= <-]. by left. }
  intros H. right.
  assert (err = invalidAuthority ∨ encodingError err) as [?|?]; [|by left|by right].
  revert H.
  destruct (g !! "authority") as [a|]; simpl.
  - destruct (parseAuthority a) as [e|a'] eqn:Ha; simpl.
    { intros [= <-]. apply parseAuthority_error in Ha as [[? _]|?]; eauto. }
    destruct (percentDecode (group g "path")) as [e|p'] eqn:Hp; simpl.
    { intros [= <-]. right. by eapply percentDecode_encodingError. }
    destruct (g !! "query") as [q|]; simpl.
    + destruct (parseQuery q) as [e|q'] eqn:Hq; simpl.
      { intros [= <-]. right. by eapply parseQuery_error. }
      destruct (g !! "fragment") as [f|]; simpl; [|done].
      destruct (percentDecode f) as [e|f'] eqn:Hf; simpl; [|done].
      intros [= <-]. right. by eapply percentDecode_encodingError.
    + destruct (g !! "fragment") as [f|]; simpl; [|done].
      destruct (percentDecode f) as [e|f'] eqn:Hf; simpl; [|done].
      intros [= <-]. right. by eapply percentDecode_encodingError.
  - destruct (percentDecode (group g "path")) as [e|p'] eqn:Hp; simpl.
    { intros [= <-]. right. by eapply percentDecode_encodingError. }
    destruct (g !! "query") as [q|]; simpl.
    + destruct (parseQuery q) as [e|q'] eqn:Hq; simpl.
      { intros [= <-]. right. by eapply parseQuery_error. }
      destruct (g !! "fragment") as [f|]; simpl; [|done].
      destruct (percentDecode f) as [e|f'] eqn:Hf; simpl; [|done].
      intros [= <-]. right. by eapply percentDecode_encodingError.
    + destruct (g !! "fragment") as [f|]; simpl; [|done].
      destruct (percentDecode f) as [e|f'] eqn:Hf; simpl; [|done].
      intros [= <-]. right. by eapply percentDecode_encodingError.
Qed.



Lemma exec_scheme (text : list N) : hasScheme text → is_Some (exec URI_RE text).
Proof.
  intros (c & sch & rest & -> & Hc & Hs).
  destruct (hier_decompose rest) as (auth & pth & qry & frg & -> & Hwf).
  pose proof (exec_assemble (c :: sch) auth pth qry frg) as H.
  unfold assemble in H.
  change ((c :: sch) ++ lit ":" ++ ?r) with (c :: sch ++ chr ":" :: r) in H.
  rewrite H; [done|by exists c, sch|done].
Qed.

(** X11. [parse] reads back the components a URI is written from: the
    scheme as it is, the authority, when there is one, as [parseAuthority]
    reads it, the decoded path, the query, when there is one, as
    [parseQuery] reads it, and the decoded fragment, when there is one;
    the first component that fails, in this order, gives the error. With
    no [//] the authority is [undefined] and the path may be relative. *)
Theorem parse_assemble (scheme : list N) (auth : option (list N)) (pth : list N)
    (qry frg : option (list N)) :
  isScheme scheme → wellFormed auth pth qry →
  parse (assemble scheme auth pth qry frg) =
    (authority ← optionally parseAuthority auth;
     path ← percentDecode pth;
     query ← optionally parseQuery qry;
     fragment ← optionally percentDecode frg;
     inr (mkUri Number scheme authority path query fragment)).
Proof.
  intros Hs Hwf. unfold Uri.parse. rewrite exec_assemble by done.
  destruct (groupsOf_lookup scheme auth pth qry frg) as (Hg1 & Hg2 & Hg3 & Hg4 & Hg5).
  unfold group. rewrite Hg1, Hg2, Hg3, Hg4, Hg5. done.
Qed.

(** X12. [parse] fails with the invalid-format error exactly on the texts
    that do not start with a scheme and a colon. The parser fails in no
    other way than with a [LibsqlError] of code [URL_INVALID]: the
    invalid-format error, the invalid-authority error of [parseAuthority],
    or the invalid-encoding error whose cause is what
    [decodeURIComponent] has thrown; [parseQuery] fails only with the
    last. *)
Theorem parse_errors (text : list N) :
  (parse text = inl invalidFormat ↔ ¬ hasScheme text)
  ∧ (∀ err, parse text = inl err →
       err = invalidFormat ∨ err = invalidAuthority ∨ encodingError err)
  ∧ (∀ err, parseAuthority text = inl err →
       err = invalidAuthority ∨ encodingError err)
  ∧ (∀ err, parseQuery text = inl err → encodingError err).
Proof.
  split; [|split; [|split]].
  - split.
    + intros H Hs. apply exec_scheme in Hs as [g Hg].
      apply parse_error in H as [[_ H]|[[H _]|[(t & e & _ & H) _]]];
        [congruence|discriminate H|discriminate H].
    + intros Hno. unfold Uri.parse. by rewrite exec_no_scheme.
  - intros err [[-> _]|[[-> _]|[? _]]]%parse_error; auto.
  - intros err [[-> _]|?]%parseAuthority_error; auto.
  - apply parseQuery_error.
Qed.

(** X13. [URI_RE] matches exactly the texts that start with a scheme and
    a colon, and loses nothing of them: written one after the other behind
    their delimiters, the groups of the match are the text again. The
    authority has none of [/], [?] and [#], the path none of [?] and [#]
    and the query no [#]; behind an authority the path is empty or starts
    with a slash, and with no authority it does not start with [//]. *)
Theorem URI_RE_groups (text : list N) :
  (is_Some (exec URI_RE text) ↔ hasScheme text)
  ∧ ∀ g, exec URI_RE text = Some g →
      isScheme (group g "scheme")
      ∧ wellFormed (g !! "authority") (group g "path") (g !! "query")
      ∧ text = assemble (group g "scheme") (g !! "authority") (group g "path")
                 (g !! "query") (g !! "fragment").
Proof.
  split.
  - split; [|apply exec_scheme]. intros [g Hg].
    destruct (hasScheme_dec text) as [?|Hno]; [done|]. by rewrite exec_no_scheme in Hg.
  - intros g (scheme & auth & pth & qry & frg & Hs & Hwf & -> & ->)%exec_inv.
    destruct (groupsOf_lookup scheme auth pth qry frg) as (Hg1 & Hg2 & Hg3 & Hg4 & Hg5).
    unfold group. rewrite Hg1, Hg2, Hg3, Hg4, Hg5. done.
Qed.

(** X14. [parseAuthority] reads back the parts an authority is written
    from: the decoded host, which has no colon or stands between brackets,
    the port, [parseInt] of its digits, or [undefined] when the digits or
    the colon are missing, and the user with the optional password, cut
    from the host at the last [@] and from each other at the first colon. *)
Theorem parseAuthority_assemble (ui : option (list N * option (list N))) (h : list N)
    (d : option (list N)) :
  userinfoFits ui → isHost h → chr "@" ∉ h → digits d →
  parseAuthority (userText ui ++ h ++ optional (lit ":") d) =
    (host ← percentDecode h;
     userinfo ←
       match ui with
       | Some (u, pw) =>
         u' ← percentDecode u;
         p' ← optionally percentDecode pw;
         inr (Some (mkUserinfo u' p'))
       | None => inr None
       end;
     inr (mkAuthority Number host (portOf d) userinfo)).
Proof.
  intros Hui Hh Hat Hd. unfold Uri.parseAuthority. rewrite exec_authority by done.
  destruct (authorityGroups_lookup ui h d) as (Hg1 & Hg2 & Hg3 & Hg4).
  unfold group. rewrite Hg1, Hg2, Hg3, Hg4.
  destruct ui as [[u pw]|]; done.
Qed.

(** X15. On a text with no [@] that does not start with a bracket,
    [parseAuthority] fails with the invalid-authority error exactly when
    the text is not a host with no colon, followed or not by a colon and
    digits: a second colon, or a port that is not a number, is refused. *)
Theorem parseAuthority_plain (text : list N) :
  chr "@" ∉ text → (∀ t, text ≠ chr "[" :: t) →
  parseAuthority text = inl invalidAuthority
  ↔ ¬ ∃ h d, text = h ++ optional (lit ":") d ∧ all (noneOf ":") h ∧ digits d.
Proof.
  intros Hat Hbr. split.
  - intros H (h & d & -> & Hh & Hd).
    apply parseAuthority_error in H as [[_ H]|(t & e & _ & H)]; [|discriminate H].
    pose proof (exec_authority None h d) as Hx. simpl in Hx.
    rewrite Hx in H; [done|done|by left| |done].
    intros Hin. apply Hat. rewrite elem_of_app. by left.
  - intros Hno. unfold Uri.parseAuthority.
    destruct (exec AUTHORITY_RE text) as [g|] eqn:Hg; [|done].
    apply exec_authority_plain in Hg as (h & d & ? & ? & ? & _); [|done..].
    destruct Hno. by exists h, d.
Qed.

End UriParser.

(** ** URIs

    In what follows a number is a natural number, [parseInt] reads
    decimal digits, and [decodeURIComponent] is the decoder of the texts
    that have no escape: it returns such a text as it is and refuses any
    other. *)

Import Uri.

Lemma parseQuery_pair_witness :
  let decode (t : list N) : Thrown + list N :=
    if bool_decide (chr "%" ∈ t) then inl (Foreign [] "URI malformed" None)
    else inr t in
  let k := lit "a" in
  let v := lit "b+c=d" in
  (chr "&" ∉ k) ∧ (chr "=" ∉ k) ∧ (chr "&" ∉ v)
  ∧ parseQuery decode (lit "a=b+c=d")
    = inr (mkQuery [mkKeyValue (lit "a") (lit "b c=d")]).
Proof.
  intros decode k v.
  assert (chr "&" ∉ k) as Hk by (apply (bool_decide_unpack _); reflexivity).
  assert (chr "=" ∉ k) as Hke by (apply (bool_decide_unpack _); reflexivity).
  assert (chr "&" ∉ v) as Hv by (apply (bool_decide_unpack _); reflexivity).
  split; [exact Hk|]. split; [exact Hke|]. split; [exact Hv|].
  exact (proj1 (parseQuery_pair decode k v Hk Hke Hv)).
Defined.

Lemma parse_assemble_witness :
  let decode (t : list N) : Thrown + list N :=
    if bool_decide (chr "%" ∈ t) then inl (Foreign [] "URI malformed" None)
    else inr t in
  let parseInt (t : list N) : N := foldl (λ n c, 10 * n + (c - chr "0"))%N 0%N t in
  let scheme := lit "file" in
  let pth := lit "relative/path/database.db" in
  let qry := Some (lit "mode=ro") in
  isScheme scheme
  ∧ wellFormed None pth qry
  ∧ parse N parseInt decode (lit "file:relative/path/database.db?mode=ro")
    = inr (mkUri N (lit "file") None (lit "relative/path/database.db")
             (Some (mkQuery [mkKeyValue (lit "mode") (lit "ro")])) None).
Proof.
  intros decode parseInt scheme pth qry.
  assert (isScheme scheme) as Hs.
  { exists (chr "f"), (lit "ile"). split; [reflexivity|]. split; [reflexivity|].
    repeat constructor. }
  assert (wellFormed None pth qry) as Hwf.
  { split; [intros a Ha; discriminate Ha|]. split; [repeat constructor|].
    split; [intros [t Ht]; discriminate Ht|].
    intros q Hq. injection Hq as <-. repeat constructor. }
  split; [exact Hs|]. split; [exact Hwf|].
  exact (parse_assemble N parseInt decode scheme None pth qry None Hs Hwf).
Defined.

Lemma parseAuthority_assemble_witness :
  let decode (t : list N) : Thrown + list N :=
    if bool_decide (chr "%" ∈ t) then inl (Foreign [] "URI malformed" None)
    else inr t in
  let parseInt (t : list N) : N := foldl (λ n c, 10 * n + (c - chr "0"))%N 0%N t in
  let ui := Some (lit "user", Some (lit "p@ss:word")) in
  let h := lit "[::1]" in
  let d := Some (lit "8080") in
  userinfoFits ui ∧ isHost h ∧ (chr "@" ∉ h) ∧ digits d
  ∧ parseAuthority N parseInt decode (lit "user:p@ss:word@[::1]:8080")
    = inr (mkAuthority N (lit "[::1]") (Some 8080%N)
             (Some (mkUserinfo (lit "user") (Some (lit "p@ss:word"))))).
Proof.
  intros decode parseInt ui h d.
  assert (userinfoFits ui) as Hui.
  { intros u pw Hu. injection Hu as <- <-. split; [repeat constructor|].
    intros p Hp. injection Hp as <-. repeat constructor. }
  assert (isHost h) as Hh.
  { right. exists (lit "::1"). split; [reflexivity|repeat constructor]. }
  assert (chr "@" ∉ h) as Hat by (apply (bool_decide_unpack _); reflexivity).
  assert (digits d) as Hd.
  { intros ds Hds. injection Hds as <-. repeat constructor. }
  split; [exact Hui|]. split; [exact Hh|]. split; [exact Hat|]. split; [exact Hd|].
  exact (parseAuthority_assemble N parseInt decode ui h d Hui Hh Hat Hd).
Defined.

Lemma parseAuthority_plain_witness :
  let decode (t : list N) : Thrown + list N :=
    if bool_decide (chr "%" ∈ t) then inl (Foreign [] "URI malformed" None)
    else inr t in
  let parseInt (t : list N) : N := foldl (λ n c, 10 * n + (c - chr "0"))%N 0%N t in
  let text := lit "example.com:8080" in
  (chr "@" ∉ text) ∧ (∀ t, text ≠ chr "[" :: t)
  ∧ parseAuthority N parseInt decode text ≠ inl invalidAuthority.
Proof.
  intros decode parseInt text.
  assert (chr "@" ∉ text) as Hat by (apply (bool_decide_unpack _); reflexivity).
  assert (∀ t, text ≠ chr "[" :: t) as Hbr by (intros t Ht; discriminate Ht).
  split; [exact Hat|]. split; [exact Hbr|].
  intros H. apply (proj1 (parseAuthority_plain N parseInt decode text Hat Hbr) H).
  exists (lit "example.com"), (Some (lit "8080")).
  split; [reflexivity|]. split; [repeat constructor|].
  intros ds Hds. injection Hds as <-. repeat constructor.
Defined.
